(** * Work coordinator and pipeline orchestrator: a shallow embedding

    This development embeds, function by function, the coordination core of
    the repository:

    - [src/coordinator.py]: [URLCoordinator] (ledger kept in a JSON file under
      a file lock) and [HTTPCoordinator] (client of the coordination server);
    - [src/coordination_server.py]: the handlers [/claim], [/batch_claim],
      [/done], [/failed] working on the in-memory ledger [_data];
    - [src/dataset_mover.py]: [TabState], the tick functions, the
      round-robin orchestrator [_run_pipeline] and the url collector
      [_network_collect_urls];
    - [src/utils.py]: [adaptive_timeout].

    Conventions of the embedding.

    - The ledger (the parsed JSON file, resp. the dictionary [_data]) is a
      finite map from URLs to entries.  An entry is the dictionary written by
      the code; its keys are exactly [status], [holder], [worker],
      [claimed_at], [updated_at], [error], every write sets [status], and a
      key that a write leaves out is [None].
    - Timestamps ([time.time()]) are integers; only their order and their
      differences are used.  The readings of the clock taken inside one
      critical section (the file lock, resp. the server's mutex) are a
      single instant, handed to the operation; an operation that reads the
      clock outside its critical section, or that runs several critical
      sections, is handed one instant for each.
    - A string is a Python [str] kept as its UTF-8 encoding.
    - A Python [int] is an integer of [Z]; a Python [float] is a binary64
      number of the Standard Library's [SpecFloat].
    - The exceptions that leave [tick_verifying], [_tick_slot_fast],
      [_run_pipeline] and [adaptive_timeout] are part of their results.
    - The file behind [URLCoordinator] is read and written without I/O
      failure: [_read] returns the map last given to [_write]. *)

From stdpp Require Import gmap strings list fin_maps.
From Stdlib Require Import ZArith.
From Stdlib Require SpecFloat.

(** ** The ledger shared by both coordinators *)

Inductive Status := STATUS_HELD | STATUS_DONE | STATUS_FAILED.

#[global] Instance Status_eq_dec : EqDecision Status.
Proof. solve_decision. Defined.

Record Entry := mkEntry {
  status     : Status;
  holder     : option string;
  worker     : option string;
  claimed_at : option Z;
  updated_at : option Z;
  error      : option string;
}.

#[global] Instance Entry_eq_dec : EqDecision Entry.
Proof. solve_decision. Defined.

Abbreviation ledger := (gmap string Entry).

(** A string is a Python [str] kept as its UTF-8 encoding: a character
    (code point) is one byte that is not a continuation byte ([10xxxxxx]),
    followed by its continuation bytes.  Equality and concatenation of
    strings are those of their encodings; the length and the slices count
    characters. *)
Definition continuation (c : Ascii.ascii) : bool :=
  match c with
  | Ascii.Ascii _ _ _ _ _ _ b6 b7 => b7 && negb b6
  end.

(** [len(s)]: the number of characters. *)
Fixpoint len (s : string) : nat :=
  match s with
  | EmptyString => 0
  | String c rest => if continuation c then len rest else S (len rest)
  end.

(** [s[:n]]: the first [n] characters of a string (all of it when it is
    shorter). *)
Fixpoint slice_to (n : nat) (s : string) : string :=
  match s with
  | EmptyString => EmptyString
  | String c rest =>
      if continuation c then String c (slice_to n rest)
      else match n with
           | 0 => EmptyString
           | S n' => String c (slice_to n' rest)
           end
  end.

(** [s == ""], the test behind [if not url]. *)
Definition is_empty (s : string) : bool := bool_decide (s = "").

(** [d[s] = v] on a dictionary whose keys are the three statuses. *)
Definition set_item {A} (s : Status) (v : A) (d : Status → A) : Status → A :=
  λ s', if bool_decide (s' = s) then v else d s'.

(** ** [URLCoordinator]: the file-backed coordinator *)

Module URLCoordinator.
Section WithTimeout.
Local Open Scope Z_scope.
(** [self._stale_timeout] *)
Variable stale_timeout : Z.

Definition claim (now : Z) (url holder : string) (data : ledger)
  : bool * ledger :=
  let entry := data !! url in
  let granted :=
    (true,
     <[url := {| status     := STATUS_HELD;
                 holder     := Some holder;
                 worker     := None;
                 claimed_at := Some (match entry with
                                     | Some e => default now (claimed_at e)
                                     | None => now
                                     end);
                 updated_at := Some now;
                 error      := None |}]> data) in
  match entry with
  | Some e =>
      match status e with
      | STATUS_DONE | STATUS_FAILED => (false, data)
      | STATUS_HELD =>
          let age := now - default 0 (updated_at e) in
          if bool_decide (age < stale_timeout) then (false, data)
          else granted
      end
  | None => granted
  end.

(** The loop of [batch_claim]: one [self.claim] per url, each in a
    critical section of its own; [granted.append] and [denied.append] add
    at the end of the lists.  [now i] is the instant of the claim of the
    url at position [i] of the list, and [data] is threaded from one claim
    to the next: no other process writes the file in between. *)
Fixpoint batch_claim_loop (now : nat → Z) (i : nat) (urls : list string)
    (holder : string) (granted denied : list string) (data : ledger)
  : list string * list string * ledger :=
  match urls with
  | [] => (granted, denied, data)
  | url :: rest =>
      let '(ok, data') := claim (now i) url holder data in
      if ok then
        batch_claim_loop now (S i) rest holder (granted ++ [url]) denied data'
      else
        batch_claim_loop now (S i) rest holder granted (denied ++ [url]) data'
  end.

Definition batch_claim (now : nat → Z) (urls : list string) (holder : string)
    (data : ledger) : list string * list string * ledger :=
  batch_claim_loop now 0 urls holder [] [] data.

(** [{**entry, "status": new_status, "updated_at": time.time()}] with
    [entry = data.get(url, {})]. *)
Definition _update_status (now : Z) (url : string) (new_status : Status)
    (data : ledger) : ledger :=
  let entry := data !! url in
  <[url := {| status     := new_status;
              holder     := entry ≫= holder;
              worker     := entry ≫= worker;
              claimed_at := entry ≫= claimed_at;
              updated_at := Some now;
              error      := entry ≫= error |}]> data.

Definition mark_done (now : Z) (url : string) (data : ledger) : ledger :=
  _update_status now url STATUS_DONE data.

Definition mark_failed (now : Z) (url error : string) (data : ledger)
  : ledger :=
  let entry := data !! url in
  <[url := {| status     := STATUS_FAILED;
              holder     := entry ≫= holder;
              worker     := entry ≫= worker;
              claimed_at := entry ≫= claimed_at;
              updated_at := Some now;
              error      := Some (slice_to 200 error) |}]> data.

Definition is_available (now : Z) (url : string) (data : ledger) : bool :=
  match data !! url with
  | None => true
  | Some e =>
      match status e with
      | STATUS_DONE => false
      | STATUS_HELD =>
          bool_decide (stale_timeout ≤ now - default 0 (updated_at e))
      | STATUS_FAILED => true
      end
  end.

Definition get_status (url : string) (data : ledger) : option Entry :=
  data !! url.

(** [reset]: [self._write({})]. *)
Definition reset (data : ledger) : ledger := ∅.

(** [sum(1 for e in data.values() if e.get("status") == status)] *)
Definition count_by_status (target : Status) (data : ledger) : nat :=
  map_fold (λ _ e n, if bool_decide (status e = target) then S n else n)
    0%nat data.

(** The dictionary [{held: _, done: _, failed: _}] that the loop of
    [get_summary] fills, as a function of the status. *)
Definition get_summary (data : ledger) : Status → nat :=
  map_fold
    (λ _ entry summary,
       set_item (status entry) (S (summary (status entry))) summary)
    (λ _, 0%nat) data.

(** The three groups that the loop of [get_snapshot] fills, as a function
    of the status; a group maps a url to its pair [(holder, worker)]. *)
Definition get_snapshot (data : ledger)
  : Status → gmap string (string * string) :=
  map_fold
    (λ url entry groups,
       set_item (status entry)
         (<[url := (default "" (holder entry), "")]> (groups (status entry)))
         groups)
    (λ _, ∅) data.

End WithTimeout.
End URLCoordinator.

(** ** [coordination_server]: the HTTP server's handlers over [_data] *)

Module coordination_server.
Section WithTimeout.
Local Open Scope Z_scope.
(** the global [_stale_timeout] *)
Variable _stale_timeout : Z.

Definition _is_stale (now : Z) (e : Entry) : bool :=
  if bool_decide (status e ≠ STATUS_HELD) then false
  else
    let age := now - default 0 (updated_at e) in
    bool_decide (_stale_timeout ≤ age).

(** The entry written on a grant, by [/claim] and by [/batch_claim]. *)
Definition held_entry (now : Z) (holder worker : string)
    (entry : option Entry) : Entry :=
  {| status     := STATUS_HELD;
     holder     := Some holder;
     worker     := Some worker;
     claimed_at := Some (match entry with
                         | Some e => default now (claimed_at e)
                         | None => now
                         end);
     updated_at := Some now;
     error      := None |}.

(** [/claim]: the boolean is the [ok] field of the response (the missing-url
    answer is [{"ok": false}] with code 400). *)
Definition claim (now : Z) (url holder worker : string) (_data : ledger)
  : bool * ledger :=
  if is_empty url then (false, _data)
  else
    let entry := _data !! url in
    let granted := (true, <[url := held_entry now holder worker entry]> _data) in
    match entry with
    | Some e =>
        if bool_decide (status e = STATUS_DONE ∨ status e = STATUS_FAILED)
        then (false, _data)
        else if bool_decide (status e = STATUS_HELD) && negb (_is_stale now e)
        then (false, _data)
        else granted
    | None => granted
    end.

(** The decision taken for one url inside the loop of [/batch_claim]. *)
Definition claimable (now : Z) (entry : option Entry) : bool :=
  match entry with
  | Some e =>
      if bool_decide (status e = STATUS_DONE ∨ status e = STATUS_FAILED)
      then false
      else if bool_decide (status e = STATUS_HELD) && negb (_is_stale now e)
      then false
      else true
  | None => true
  end.

(** The loop of [/batch_claim], run inside [_lock] at the instant
    [locked], which is what [_is_stale] reads; [now] is the reading of the
    clock that the handler takes before it waits for the lock, and that the
    granted entries carry. *)
Fixpoint batch_claim_loop (now locked : Z) (urls : list string)
    (holder worker : string) (granted denied : list string) (_data : ledger)
  : list string * list string * ledger :=
  match urls with
  | [] => (granted, denied, _data)
  | url :: rest =>
      let entry := _data !! url in
      if claimable locked entry then
        batch_claim_loop now locked rest holder worker (granted ++ [url]) denied
          (<[url := held_entry now holder worker entry]> _data)
      else
        batch_claim_loop now locked rest holder worker granted
          (denied ++ [url]) _data
  end.

(** [/batch_claim]: the [granted] and [denied] fields of the response. *)
Definition batch_claim (now locked : Z) (urls : list string)
    (holder worker : string) (_data : ledger)
  : list string * list string * ledger :=
  match urls with
  | [] => ([], [], _data)
  | _ => batch_claim_loop now locked urls holder worker [] [] _data
  end.

(** [/done] *)
Definition done (now : Z) (url worker : string) (_data : ledger) : ledger :=
  if is_empty url then _data
  else
    let entry := _data !! url in
    <[url := {| status     := STATUS_DONE;
                holder     := entry ≫= holder;
                worker     := Some worker;
                claimed_at := entry ≫= claimed_at;
                updated_at := Some now;
                error      := entry ≫= error |}]> _data.

(** [/failed] *)
Definition failed (now : Z) (url error worker : string) (_data : ledger)
  : ledger :=
  let error := slice_to 200 error in
  if is_empty url then _data
  else
    let entry := _data !! url in
    <[url := {| status     := STATUS_FAILED;
                holder     := entry ≫= holder;
                worker     := Some worker;
                claimed_at := entry ≫= claimed_at;
                updated_at := Some now;
                error      := Some error |}]> _data.

(** [/available]: the [available] field of the response (the missing-url
    answer is [{"available": false}] with code 400). *)
Definition available (now : Z) (url : string) (_data : ledger) : bool :=
  if is_empty url then false
  else
    match _data !! url with
    | None => true
    | Some e =>
        match status e with
        | STATUS_DONE => false
        | STATUS_HELD => _is_stale now e
        | STATUS_FAILED => true
        end
    end.

(** [/count]: the [count] field of the response. *)
Definition count (target_status : Status) (_data : ledger) : nat :=
  map_fold
    (λ _ e n, if bool_decide (status e = target_status) then S n else n)
    0%nat _data.

(** [/summary]: the dictionary [counts], as a function of the status. *)
Definition summary (_data : ledger) : Status → nat :=
  map_fold
    (λ _ entry counts,
       set_item (status entry) (S (counts (status entry))) counts)
    (λ _, 0%nat) _data.

(** [/snapshot]: the dictionary [groups], as a function of the status; a
    group maps a url to its pair [(holder, worker)]. *)
Definition snapshot (_data : ledger)
  : Status → gmap string (string * string) :=
  map_fold
    (λ url entry groups,
       set_item (status entry)
         (<[url := (default "" (holder entry), default "" (worker entry))]>
            (groups (status entry)))
         groups)
    (λ _, ∅) _data.

(** [/reset]: [_data.clear()]. *)
Definition reset (_data : ledger) : ledger := ∅.

(** [/reset_blacklist]: the [cleared] field of the response and the
    ledger left. *)
Definition reset_blacklist (_data : ledger) : nat * ledger :=
  let failed_urls :=
    (filter (λ item, status item.2 = STATUS_FAILED) (map_to_list _data)).*1 in
  let _data' := foldl (λ _data url, delete url _data) _data failed_urls in
  (length failed_urls, _data').

End WithTimeout.
End coordination_server.

(** ** [HTTPCoordinator]: the client of the coordination server

    The network is an oracle: [network n] is the outcome of the [n]-th HTTP
    request the client sends.  The client's observable effects (requests and
    sleeps) are recorded in a trace. *)

Module HTTPCoordinator.

(** Python values decoded from a JSON body; [JNone] is [None]. *)
#[warnings="-register-all"]
Inductive json :=
| JNone
| JBool (b : bool)
| JNum (z : Z)
| JStr (s : string)
| JList (items : list json)
| JObj (fields : list (string * json)).

(** Outcome of [requests.post]/[requests.get], [raise_for_status] and
    [r.json()]: a decoded body, or the exception raised.
    [RequestException] stands for every [requests.RequestException] that is
    neither a [ConnectionError] nor a [Timeout] (an HTTP error status, for
    one). *)
Inductive reply :=
| Json (body : json)
| ConnectionError
| Timeout
| RequestException.

Inductive event :=
| POST (path : string) (body : json)
| GET (path : string) (params : json)
| Sleep (seconds : Z).

(** An exception leaving a client method. *)
Inductive exn := AttributeError.

Record net := mkNet { sent : nat; trace : list event }.

Definition _TIMEOUT : Z := 10.
Definition _RETRY_BACKOFF : Z := 2.

(** [bool(x)] *)
Definition truthy (x : json) : bool :=
  match x with
  | JNone => false
  | JBool b => b
  | JNum z => bool_decide (z ≠ 0%Z)
  | JStr s => negb (is_empty s)
  | JList items => match items with [] => false | _ => true end
  | JObj fields => match fields with [] => false | _ => true end
  end.

Fixpoint assoc (key : string) (fields : list (string * json)) : option json :=
  match fields with
  | [] => None
  | (k, v) :: rest => if bool_decide (k = key) then Some v else assoc key rest
  end.

(** [x.get(key, dflt)]; only a dict has the method. *)
Definition get (x : json) (key : string) (dflt : json) : exn + json :=
  match x with
  | JObj fields => inr (default dflt (assoc key fields))
  | _ => inl AttributeError
  end.

(** [a and b], with [b] evaluated only when [a] is truthy. *)
Definition py_and (a : json) (b : exn + json) : exn + json :=
  if truthy a then b else inr a.

(** [bool(x)] of an expression that may raise. *)
Definition bool_of (x : exn + json) : exn + bool :=
  match x with
  | inl e => inl e
  | inr v => inr (truthy v)
  end.

Section WithNetwork.
Variable network : nat → reply.
(** [self._worker_id] *)
Variable _worker_id : string.

Definition request (ev : event) (s : net) : reply * net :=
  (network (sent s), {| sent := S (sent s); trace := trace s ++ [ev] |}).

Definition sleep (seconds : Z) (s : net) : net :=
  {| sent := sent s; trace := trace s ++ [Sleep seconds] |}.

(** The body of [for attempt in range(2)] in [_post] and [_get]; when the
    loop runs out the method returns [None]. *)
Fixpoint attempts (ev : event) (range : list nat) (default : json)
    (s : net) : json * net :=
  match range with
  | [] => (JNone, s)
  | attempt :: range' =>
      let '(r, s1) := request ev s in
      match r with
      | Json body => (body, s1)
      | ConnectionError | Timeout =>
          if bool_decide (attempt = 0) then
            attempts ev range' default (sleep _RETRY_BACKOFF s1)
          else (default, s1)
      | RequestException => (default, s1)
      end
  end.

Definition _post (path : string) (body default : json) (s : net)
  : json * net :=
  attempts (POST path body) (seq 0 2) default s.

Definition _get (path : string) (params default : json) (s : net)
  : json * net :=
  attempts (GET path params) (seq 0 2) default s.

Definition claim (url holder : string) (s : net) : (exn + bool) * net :=
  let '(resp, s1) :=
    _post "/claim"
      (JObj [("url", JStr url); ("holder", JStr holder);
             ("worker", JStr _worker_id)])
      (JObj [("ok", JBool false)]) s in
  (bool_of (py_and resp (get resp "ok" JNone)), s1).

Definition is_available (url : string) (s : net) : (exn + bool) * net :=
  let '(resp, s1) :=
    _get "/available" (JObj [("url", JStr url)])
      (JObj [("available", JBool true)]) s in
  (bool_of (py_and resp (get resp "available" (JBool true))), s1).

(** The loop of the fallback of [batch_claim]: one [self.claim] per url. *)
Fixpoint claim_each (urls : list string) (holder : string)
    (granted denied : list string) (s : net)
  : (exn + (list string * list string)) * net :=
  match urls with
  | [] => (inr (granted, denied), s)
  | url :: rest =>
      let '(r, s1) := claim url holder s in
      match r with
      | inl e => (inl e, s1)
      | inr true => claim_each rest holder (granted ++ [url]) denied s1
      | inr false => claim_each rest holder granted (denied ++ [url]) s1
      end
  end.

(** [batch_claim]: the pair [(granted, denied)]; the two lists are the
    values found in the response, or the lists built by the fallback. *)
Definition batch_claim (urls : list string) (holder : string) (s : net)
  : (exn + (json * json)) * net :=
  match urls with
  | [] => (inr (JList [], JList []), s)
  | _ =>
      let '(resp, s1) :=
        _post "/batch_claim"
          (JObj [("urls", JList (JStr <$> urls)); ("holder", JStr holder);
                 ("worker", JStr _worker_id)])
          JNone s in
      match resp with
      | JNone =>
          let '(r, s2) := claim_each urls holder [] [] s1 in
          (match r with
           | inl e => inl e
           | inr (granted, denied) =>
               inr (JList (JStr <$> granted), JList (JStr <$> denied))
           end, s2)
      | _ =>
          (match get resp "granted" (JList []) with
           | inl e => inl e
           | inr granted =>
               match get resp "denied" (JList []) with
               | inl e => inl e
               | inr denied => inr (granted, denied)
               end
           end, s1)
      end
  end.

(** [mark_done] and [mark_failed] drop the response. *)
Definition mark_done (url : string) (s : net) : net :=
  (_post "/done" (JObj [("url", JStr url); ("worker", JStr _worker_id)])
     (JObj [("ok", JBool false)]) s).2.

Definition mark_failed (url error : string) (s : net) : net :=
  (_post "/failed"
     (JObj [("url", JStr url); ("error", JStr error);
            ("worker", JStr _worker_id)])
     (JObj [("ok", JBool false)]) s).2.

(** [resp.get("entry") if resp else None] *)
Definition get_status (url : string) (s : net) : (exn + json) * net :=
  let '(resp, s1) :=
    _get "/status" (JObj [("url", JStr url)]) (JObj [("entry", JNone)]) s in
  (if truthy resp then get resp "entry" JNone else inr JNone, s1).

(** [resp.get("count", 0) if resp else 0] *)
Definition count_by_status (status : string) (s : net) : (exn + json) * net :=
  let '(resp, s1) :=
    _get "/count" (JObj [("status", JStr status)])
      (JObj [("count", JNum 0)]) s in
  (if truthy resp then get resp "count" (JNum 0) else inr (JNum 0), s1).

(** [resp if resp else {}]; the request carries no parameters. *)
Definition get_summary (s : net) : json * net :=
  let '(resp, s1) := _get "/summary" JNone (JObj []) s in
  (if truthy resp then resp else JObj [], s1).

Definition get_snapshot (s : net) : json * net :=
  let empty := JObj [("held", JObj []); ("done", JObj []);
                     ("failed", JObj [])] in
  let '(resp, s1) := _get "/snapshot" JNone empty s in
  (if truthy resp then resp else empty, s1).

End WithNetwork.
End HTTPCoordinator.

(** ** The responses of the server's handlers

    What the routes [/claim], [/batch_claim], [/done], [/failed] and
    [/available] of [coordination_server.py] answer: the JSON body and the
    HTTP status code (200 when the handler gives none), with the ledger
    left.  The arguments are the strings the handler reads from the request
    ([body.get("url", "")] and so on). *)

Module app.
Import HTTPCoordinator.
Section WithTimeout.
Local Open Scope Z_scope.
Variable _stale_timeout : Z.

Definition response : Type := json * Z.

Definition missing_url (key : string) : response :=
  (JObj [(key, JBool false); ("error", JStr "missing url")], 400).

Definition claim (now : Z) (url holder worker : string) (_data : ledger)
  : response * ledger :=
  if is_empty url then (missing_url "ok", _data)
  else
    let '(ok, _data') :=
      coordination_server.claim _stale_timeout now url holder worker _data in
    ((JObj [("ok", JBool ok)], 200), _data').

Definition batch_claim (now locked : Z) (urls : list string)
    (holder worker : string) (_data : ledger) : response * ledger :=
  let '(granted, denied, _data') :=
    coordination_server.batch_claim _stale_timeout now locked urls holder
      worker _data in
  ((JObj [("granted", JList (JStr <$> granted));
          ("denied", JList (JStr <$> denied))], 200), _data').

Definition done (now : Z) (url worker : string) (_data : ledger)
  : response * ledger :=
  if is_empty url then (missing_url "ok", _data)
  else ((JObj [("ok", JBool true)], 200),
        coordination_server.done now url worker _data).

Definition failed (now : Z) (url error worker : string) (_data : ledger)
  : response * ledger :=
  if is_empty url then (missing_url "ok", _data)
  else ((JObj [("ok", JBool true)], 200),
        coordination_server.failed now url error worker _data).

Definition available (now : Z) (url : string) (_data : ledger) : response :=
  if is_empty url then missing_url "available"
  else
    (JObj [("available",
            JBool (coordination_server.available _stale_timeout now url
                     _data))], 200).

End WithTimeout.
End app.

(** ** [TabState]: one slot of the pipeline

    The fields kept are the ones the orchestrator and the transitions read or
    write; the browser page, the timers and the dashboard history are left
    out. *)

Module TabState.

Inductive Status :=
| PENDING | NAVIGATING | DETAIL_WAIT | SCANNING | NULL_CLICKED | CONVERTING
| READY | ADD_CLICKED | CONFIRMING | VERIFYING | DONE | ERROR | BLACKLISTED
| _counted | _recycled.

#[global] Instance Status_eq_dec : EqDecision Status.
Proof. solve_decision. Defined.

Record t := mk {
  job_url            : string;
  status             : Status;
  error_msg          : string;
  retry_count        : nat;
  consecutive_errors : nat;
  error_history      : list string;
  tick_count         : nat;
}.

Definition __init__ (job_url : string) : t :=
  {| job_url := job_url; status := PENDING; error_msg := "";
     retry_count := 0; consecutive_errors := 0; error_history := [];
     tick_count := 0 |}.

Definition set_status (new_status : Status) (self : t) : t :=
  {| job_url := job_url self; status := new_status;
     error_msg := error_msg self; retry_count := retry_count self;
     consecutive_errors := consecutive_errors self;
     error_history := error_history self; tick_count := tick_count self |}.

Definition transition (new_status : Status) (message : string) (self : t) : t :=
  match new_status with
  | ERROR =>
      {| job_url := job_url self; status := new_status;
         error_msg := message; retry_count := retry_count self;
         consecutive_errors := consecutive_errors self + 1;
         error_history := error_history self ++ [message];
         tick_count := tick_count self |}
  | DONE =>
      {| job_url := job_url self; status := new_status;
         error_msg := error_msg self; retry_count := retry_count self;
         consecutive_errors := 0;
         error_history := error_history self; tick_count := tick_count self |}
  | _ => set_status new_status self
  end.

Definition reset_for (job_url : string) (is_retry : bool) (self : t) : t :=
  {| job_url := job_url; status := PENDING; error_msg := "";
     retry_count := if is_retry then retry_count self + 1 else 0;
     consecutive_errors := if is_retry then consecutive_errors self else 0;
     error_history := error_history self; tick_count := 0 |}.

(** [slot.tick_count += 1] *)
Definition count_tick (self : t) : t :=
  {| job_url := job_url self; status := status self;
     error_msg := error_msg self; retry_count := retry_count self;
     consecutive_errors := consecutive_errors self;
     error_history := error_history self; tick_count := tick_count self + 1 |}.

(** [_record_event], on the list [self.history] alone: the event is
    appended, and a list that has grown past 200 events is cut to its last
    100 ([self.history[-100:]]). *)
Definition _record_event {E} (event : E) (history : list E) : list E :=
  let history := history ++ [event] in
  if bool_decide (200 < length history)
  then drop (length history - 100) history
  else history.

End TabState.

(** ** [utils.adaptive_timeout]

    The arguments are Python ints.  The configured [timeout_multiplier] is
    a number, an [int] or a [float] ([load_config] admits nothing
    else); [config] is what the dictionary holds under that key, if
    anything.  A [float] is an IEEE 754 binary64 number, as specified by
    the Standard Library's [SpecFloat]; [int * float] converts the int to
    the nearest float (ties to even) and raises [OverflowError] when there
    is none, and [int(...)] of a float cuts the fraction off and raises on
    an infinity or a NaN.  A raised exception is [None]; [//] is the
    division rounding down. *)

Module utils.
Import SpecFloat.
Local Open Scope Z_scope.

Inductive number := PyInt (z : Z) | PyFloat (f : spec_float).

Definition prec : Z := 53.
Definition emax : Z := 1024.

Definition float_of_int (z : Z) : option spec_float :=
  match binary_normalize prec emax z 0 false with
  | S754_infinity _ => None
  | f => Some f
  end.

Definition int_of_float (f : spec_float) : option Z :=
  match f with
  | S754_zero _ => Some 0
  | S754_finite s m e =>
      Some (cond_Zopp s (if bool_decide (0 ≤ e) then Z.pos m * 2 ^ e
                         else Z.pos m `div` 2 ^ (- e)))
  | S754_infinity _ | S754_nan => None
  end.

(** [a * b] *)
Definition mul (a b : number) : option number :=
  match a, b with
  | PyInt x, PyInt y => Some (PyInt (x * y))
  | PyInt x, PyFloat g =>
      f ← float_of_int x; Some (PyFloat (SFmul prec emax f g))
  | PyFloat f, PyInt y =>
      g ← float_of_int y; Some (PyFloat (SFmul prec emax f g))
  | PyFloat f, PyFloat g => Some (PyFloat (SFmul prec emax f g))
  end.

(** [int(a)] *)
Definition int (a : number) : option Z :=
  match a with
  | PyInt z => Some z
  | PyFloat f => int_of_float f
  end.

Definition adaptive_timeout (base_ms image_count per_image_ms : Z)
    (config : option number) : option Z :=
  let multiplier := default (PyFloat (SFone prec emax)) config in
  let raw := base_ms `max` (image_count * per_image_ms) in
  product ← mul (PyInt raw) multiplier;
  scaled ← int product;
  Some (((scaled + 99) `div` 100) * 100).

End utils.

(** ** [dataset_mover]: tick functions and the pipeline orchestrator *)

Module dataset_mover.

(** [server_entry and server_entry.get("status") == "done"] *)
Definition done_elsewhere (server_entry : option Entry) : bool :=
  match server_entry with
  | Some e => bool_decide (status e = STATUS_DONE)
  | None => false
  end.

Import TabState.

Definition MAX_CARD_RETRIES : nat := 2.
Definition BLACKLIST_THRESHOLD : nat := 3.

(** "Add-to-dataset button wait: base 30s, +50ms per image." *)
Definition _add_dataset_timeout (image_count : Z)
    (config : option utils.number) : option Z :=
  utils.adaptive_timeout 30000 image_count 50 config.

(** The loop that ends [_network_collect_urls], over the captured job ids
    in the order in which the [for] statement yields them. *)
Fixpoint collect_loop (base_job_url : string) (count : Z)
    (captured_ids : list string) (_done _held blacklist : gset string)
    (urls : list string) : list string :=
  match captured_ids with
  | [] => urls
  | job_id :: rest =>
      let job_url := base_job_url +:+ job_id in
      if bool_decide (job_url ∈ _done) then
        collect_loop base_job_url count rest _done _held blacklist urls
      else if bool_decide (job_url ∈ _held) then
        collect_loop base_job_url count rest _done _held blacklist urls
      else if bool_decide (job_url ∈ blacklist) then
        collect_loop base_job_url count rest _done _held blacklist urls
      else
        let urls := urls ++ [job_url] in
        if bool_decide (count ≤ Z.of_nat (length urls))%Z then urls
        else collect_loop base_job_url count rest _done _held blacklist urls
  end.

(** [_network_collect_urls] from the captured ids on: [None] when nothing
    was captured.  [captured_ids] is a Python set; [order] lists its
    elements in the order in which the [for] statement iterates over it,
    an order that the code does not choose. *)
Definition _network_collect_urls (base_job_url : string) (count : Z)
    (captured_ids : gset string) (order : list string)
    (blacklist coord_held coord_done : gset string)
  : option (list string) :=
  if bool_decide (captured_ids = ∅) then None
  else
    Some (collect_loop base_job_url count order coord_done coord_held
            blacklist []).

(** Calls the orchestrator makes on its coordinator, whether they return
    or raise. *)
Inductive coord_call :=
| MarkDone (url : string)
| MarkFailed (url error : string).

(** *** What a tick observes

    A tick probes the browser page once.  The result of the probe (together
    with the tick's timer and its local retry counter, which only decide
    between waiting and giving up) is the observation; each tick function
    below maps it to the transition the source performs. *)

Inductive pending_obs :=
| GotoFired                       (* page opened, navigation started *)
| OpenRaised (e : string).        (* exception *)

Inductive navigating_obs :=
| NavPageClosed
| NavDetailVisible
| NavTimeout                      (* time_in_state > CARD_LOAD_TIMEOUT *)
| NavNotYet
| NavRaised (e : string).

Inductive detail_wait_obs :=
| GateNotYet                      (* a readiness check fails; timer running or reload recovery *)
| GateFailed (reason : string)    (* a readiness check fails, timer and recovery used up *)
| GatesPassed (card_type : string)
| DetailRaised (e : string).

Inductive scanning_obs :=
| NothingToConvert                (* annotated/review card, or 0 unannotated images *)
| NullClicked
| NullClickFailed (exhausted : bool)   (* exhausted: _null_retry >= 3 *)
| ScanRaised (e : string).

Inductive null_clicked_obs :=
| SwalConfirmed
| SwalAlreadyRunning
| SwalNotYet                      (* timer running, or null button clicked again *)
| SwalTimeout                     (* retries used up *)
| NullClickedRaised (e : string).

Inductive converting_obs :=
| Stalled (duration : string)
| InProgress
| ProcessingComplete
| PollRaised (e : string).

Inductive ready_obs :=
| AddButtonClicked (btn_text : string)
| AddButtonNotYet                 (* timer running or reload recovery *)
| AddButtonNeverAppeared
| ReadyRaised (e : string).

Inductive add_clicked_obs :=
| ModalConfirmed (modal_text : string)
| ModalNotYet                     (* timer running or add button clicked again *)
| ModalNeverAppeared
| AddClickedRaised (e : string).

Inductive confirming_obs :=
| ModalClosed
| ModalStillOpen
| ModalForceClosed                (* still open after 30 s *)
| ConfirmingRaised (e : string).

(** The post-action confirmation query of [tick_verifying]. *)
Inductive verifying_obs :=
| RedirectedToBoard               (* confirmed: job page no longer served *)
| JobStillAccessible              (* inconclusive *)
| VerifyRaised (ve : string).     (* the query raised *)

(** Everything the outside world answers during one tick of one slot.
    [server_entry] is the coordinator's [get_status(slot.job_url)];
    [mark_done_raised] is the exception, if any, raised by the
    coordinator's [mark_done] when [tick_verifying] first calls it, and
    [mark_done_raised_again] the exception, if any, raised when the handler
    of [tick_verifying] calls it a second time. *)
Record tick_env := mkEnv {
  server_entry   : option Entry;
  on_pending     : pending_obs;
  on_navigating  : navigating_obs;
  on_detail_wait : detail_wait_obs;
  on_scanning    : scanning_obs;
  on_null_clicked : null_clicked_obs;
  on_converting  : converting_obs;
  on_ready       : ready_obs;
  on_add_clicked : add_clicked_obs;
  on_confirming  : confirming_obs;
  on_verifying   : verifying_obs;
  mark_done_raised : option string;
  mark_done_raised_again : option string;
}.

Definition tick_pending (obs : pending_obs) (tab : t) : t :=
  match obs with
  | GotoFired => transition NAVIGATING "goto fired" tab
  | OpenRaised e => transition ERROR e tab
  end.

Definition tick_navigating (obs : navigating_obs) (tab : t) : t :=
  match obs with
  | NavPageClosed => transition ERROR "Page closed during navigation" tab
  | NavDetailVisible => transition DETAIL_WAIT "detail view appeared" tab
  | NavTimeout =>
      transition ERROR "Navigation timeout — detail view never appeared" tab
  | NavNotYet => tab
  | NavRaised e => transition ERROR ("nav check error: " +:+ e) tab
  end.

Definition tick_detail_wait (obs : detail_wait_obs) (tab : t) : t :=
  match obs with
  | GateNotYet => tab
  | GateFailed reason => transition ERROR reason tab
  | GatesPassed card_type =>
      transition SCANNING ("card_type=" +:+ card_type) tab
  | DetailRaised e => transition ERROR ("detail_wait error: " +:+ e) tab
  end.

Definition tick_scanning (obs : scanning_obs) (tab : t) : t :=
  match obs with
  | NothingToConvert => transition READY "" tab
  | NullClicked => transition NULL_CLICKED "null button clicked" tab
  | NullClickFailed exhausted =>
      if exhausted then transition READY "null click exhausted, proceeding" tab
      else tab
  | ScanRaised e => transition ERROR ("scanning error: " +:+ e) tab
  end.

Definition tick_null_clicked (obs : null_clicked_obs) (tab : t) : t :=
  match obs with
  | SwalConfirmed => transition CONVERTING "null conversion confirmed" tab
  | SwalAlreadyRunning => transition CONVERTING "conversion already running" tab
  | SwalNotYet => tab
  | SwalTimeout => transition READY "swal timeout, skipping null" tab
  | NullClickedRaised e => transition ERROR ("null_clicked error: " +:+ e) tab
  end.

Definition tick_converting (obs : converting_obs) (tab : t) : t :=
  match obs with
  | Stalled duration =>
      transition ERROR ("Progress stalled for " +:+ duration +:+ "s") tab
  | InProgress => tab
  | ProcessingComplete => transition READY "conversion complete" tab
  | PollRaised e => transition ERROR e tab
  end.

Definition tick_ready (obs : ready_obs) (tab : t) : t :=
  match obs with
  | AddButtonClicked btn_text =>
      transition ADD_CLICKED ("clicked: " +:+ btn_text) tab
  | AddButtonNotYet => tab
  | AddButtonNeverAppeared => transition ERROR "Add button never appeared" tab
  | ReadyRaised e => transition ERROR ("ready error: " +:+ e) tab
  end.

Definition tick_add_clicked (obs : add_clicked_obs) (tab : t) : t :=
  match obs with
  | ModalConfirmed modal_text =>
      transition CONFIRMING ("confirmed: " +:+ modal_text) tab
  | ModalNotYet => tab
  | ModalNeverAppeared => transition ERROR "Confirm modal never appeared" tab
  | AddClickedRaised e => transition ERROR ("add_clicked error: " +:+ e) tab
  end.

Definition tick_confirming (obs : confirming_obs) (tab : t) : t :=
  match obs with
  | ModalClosed => transition VERIFYING "modal closed" tab
  | ModalStillOpen => tab
  | ModalForceClosed => transition VERIFYING "modal force-closed" tab
  | ConfirmingRaised e =>
      transition VERIFYING ("modal check error (assuming ok): " +:+ e) tab
  end.

(** [tick_verifying]: the slot it leaves, the calls it makes on the
    coordinator and the exception that leaves it, if any.  The outcome of
    the confirmation query is only logged.  [raised] is the exception, if
    any, that [coordinator.mark_done] raises in the body of the outer
    [try]; the handler then calls [mark_done] again, outside any [try]:
    when this second call raises too ([raised_again]), the transition is
    not made and the exception leaves the tick. *)
Definition tick_verifying (obs : verifying_obs)
    (raised raised_again : option string) (tab : t)
  : t * list coord_call * option string :=
  match raised with
  | None =>
      (transition DONE "added to dataset" tab, [MarkDone (job_url tab)], None)
  | Some e =>
      match raised_again with
      | None =>
          (transition DONE ("done (verify error: " +:+ e +:+ ")") tab,
           [MarkDone (job_url tab); MarkDone (job_url tab)], None)
      | Some e' =>
          (tab, [MarkDone (job_url tab); MarkDone (job_url tab)], Some e')
      end
  end.

Section WithCoordinator.
(** [coordinator.enabled] *)
Variable enabled : bool.

(** [_tick_slot_fast]: the slot it leaves, the calls it makes on the
    coordinator and the exception that leaves it, if any. *)
Definition _tick_slot_fast (env : tick_env) (slot : t)
  : t * list coord_call * option string :=
  if bool_decide (status slot = PENDING) && enabled
     && done_elsewhere (server_entry env)
  then (transition DONE "done by another worker" slot, [], None)
  else
    match status slot with
    | PENDING => (tick_pending (on_pending env) slot, [], None)
    | NAVIGATING => (tick_navigating (on_navigating env) slot, [], None)
    | DETAIL_WAIT => (tick_detail_wait (on_detail_wait env) slot, [], None)
    | SCANNING => (tick_scanning (on_scanning env) slot, [], None)
    | NULL_CLICKED => (tick_null_clicked (on_null_clicked env) slot, [], None)
    | CONVERTING => (tick_converting (on_converting env) slot, [], None)
    | READY => (tick_ready (on_ready env) slot, [], None)
    | ADD_CLICKED => (tick_add_clicked (on_add_clicked env) slot, [], None)
    | CONFIRMING => (tick_confirming (on_confirming env) slot, [], None)
    | VERIFYING =>
        tick_verifying (on_verifying env) (mark_done_raised env)
          (mark_done_raised_again env) slot
    | _ => (slot, [], None)
    end.

(** *** [_run_pipeline] *)

(** The local variables of [_run_pipeline]; [coordinator_calls] records
    the [mark_done]/[mark_failed] calls made so far, in order, and [raised]
    is the exception that has left a tick, if any: nothing catches it in
    [_run_pipeline], so that nothing of the loop runs any more once it is
    set. *)
Record pipeline := mkPipeline {
  moved              : nat;
  permanently_failed : list string;
  retry_tracker      : gmap string nat;
  blacklisted_urls   : gset string;
  queue              : list string;
  slots              : list t;
  round_num          : nat;
  coordinator_calls  : list coord_call;
  raised             : option string;
}.

Definition set_slot (i : nat) (slot : t) (st : pipeline) : pipeline :=
  {| moved := moved st; permanently_failed := permanently_failed st;
     retry_tracker := retry_tracker st;
     blacklisted_urls := blacklisted_urls st; queue := queue st;
     slots := <[i := slot]> (slots st); round_num := round_num st;
     coordinator_calls := coordinator_calls st;
     raised := raised st |}.

Definition set_queue (q : list string) (st : pipeline) : pipeline :=
  {| moved := moved st; permanently_failed := permanently_failed st;
     retry_tracker := retry_tracker st;
     blacklisted_urls := blacklisted_urls st; queue := q;
     slots := slots st; round_num := round_num st;
     coordinator_calls := coordinator_calls st;
     raised := raised st |}.

(** The claim phase and the creation of the slots, from the list
    [granted] returned by [coordinator.batch_claim].  ([range(slot_count)]
    is empty for a [num_slots] that is not positive: 0 stands for all of
    these.) *)
Definition start (granted : list string) (num_slots : nat) : pipeline :=
  let queue := granted in
  let slot_count := num_slots `min` length queue in
  {| moved := 0; permanently_failed := []; retry_tracker := ∅;
     blacklisted_urls := ∅;
     queue := drop slot_count queue;
     slots := __init__ <$> take slot_count queue;
     round_num := 0; coordinator_calls := []; raised := None |}.

(** [s.status not in (DONE, ERROR, BLACKLISTED) and not
    s.status.startswith("_")] *)
Definition active (s : t) : bool :=
  match status s with
  | DONE | ERROR | BLACKLISTED | _counted | _recycled => false
  | _ => true
  end.

(** The termination test at the top of [while True]. *)
Definition finished (st : pipeline) : bool :=
  forallb (λ s, negb (active s)) (slots st)
  && match queue st with [] => true | _ => false end.

(** First half of "recycle finished/errored slots": the [if]/[elif] chain
    on [slot.status]. *)
Definition recycle (slot : t) (st : pipeline) : t * pipeline :=
  match status slot with
  | DONE =>
      (set_status _counted (transition DONE "counted" slot),
       {| moved := moved st + 1;
          permanently_failed := permanently_failed st;
          retry_tracker := retry_tracker st;
          blacklisted_urls := blacklisted_urls st; queue := queue st;
          slots := slots st; round_num := round_num st;
          coordinator_calls := coordinator_calls st;
          raised := raised st |})
  | ERROR =>
      let failed_url := job_url slot in
      let retries := default 0 (retry_tracker st !! failed_url) in
      if bool_decide (BLACKLIST_THRESHOLD ≤ consecutive_errors slot) then
        (set_status BLACKLISTED slot,
         {| moved := moved st;
            permanently_failed := permanently_failed st ++ [failed_url];
            retry_tracker := retry_tracker st;
            blacklisted_urls := blacklisted_urls st ∪ {[failed_url]};
            queue := queue st; slots := slots st;
            round_num := round_num st;
            coordinator_calls :=
              coordinator_calls st
              ++ [MarkFailed failed_url ("blacklisted: " +:+ error_msg slot)];
            raised := raised st |})
      else if bool_decide (retries < MAX_CARD_RETRIES) then
        (set_status _recycled slot,
         {| moved := moved st;
            permanently_failed := permanently_failed st;
            retry_tracker := <[failed_url := retries + 1]> (retry_tracker st);
            blacklisted_urls := blacklisted_urls st;
            queue := queue st ++ [failed_url]; slots := slots st;
            round_num := round_num st;
            coordinator_calls := coordinator_calls st;
            raised := raised st |})
      else
        (set_status _recycled slot,
         {| moved := moved st;
            permanently_failed := permanently_failed st ++ [failed_url];
            retry_tracker := retry_tracker st;
            blacklisted_urls := blacklisted_urls st;
            queue := queue st; slots := slots st;
            round_num := round_num st;
            coordinator_calls :=
              coordinator_calls st
              ++ [MarkFailed failed_url (error_msg slot)];
            raised := raised st |})
  | _ => (slot, st)
  end.

(** Second half: "assign next URL from queue". *)
Definition assign_next (slot : t) (st : pipeline) : t * pipeline :=
  match status slot with
  | _counted | _recycled | BLACKLISTED =>
      match queue st with
      | next_url :: rest =>
          if bool_decide (next_url ∈ blacklisted_urls st) then
            (slot, set_queue rest st)
          else
            let is_retry :=
              bool_decide (is_Some (retry_tracker st !! next_url)) in
            (reset_for next_url is_retry slot, set_queue rest st)
      | [] => (slot, st)
      end
  | _ => (slot, st)
  end.

(** One iteration of [for slot in slots], on the slot at index [i]. *)
Definition visit (env : tick_env) (i : nat) (st : pipeline) : pipeline :=
  match slots st !! i with
  | None => st
  | Some slot =>
      match status slot with
      | DONE | ERROR | BLACKLISTED =>
          let '(slot1, st1) := recycle slot st in
          let '(slot2, st2) := assign_next slot1 st1 in
          set_slot i slot2 st2
      | _ =>
          let '(slot', calls, exc) := _tick_slot_fast env (count_tick slot) in
          {| moved := moved st;
             permanently_failed := permanently_failed st;
             retry_tracker := retry_tracker st;
             blacklisted_urls := blacklisted_urls st; queue := queue st;
             slots := <[i := slot']> (slots st);
             round_num := round_num st;
             coordinator_calls := coordinator_calls st ++ calls;
             raised := exc |}
      end
  end.

(** [world r i]: what slot [i] observes in round [r]. *)
Variable world : nat → nat → tick_env.

(** The first [k] iterations of [for slot in slots] in the current
    round. *)
Definition visits (k : nat) (st : pipeline) : pipeline :=
  foldl (λ st i, match raised st with
                 | Some _ => st
                 | None => visit (world (round_num st) i) i st
                 end) st (seq 0 k).

Definition next_round (st : pipeline) : pipeline :=
  {| moved := moved st; permanently_failed := permanently_failed st;
     retry_tracker := retry_tracker st;
     blacklisted_urls := blacklisted_urls st; queue := queue st;
     slots := slots st; round_num := round_num st + 1;
     coordinator_calls := coordinator_calls st;
     raised := raised st |}.

(** One full pass of the body of [while True] after the termination
    test (the sleeps and the status log have no effect on the state). *)
Definition round (st : pipeline) : pipeline :=
  visits (length (slots st)) (next_round st).

(** The state at the top of [while True] after at most [n] rounds, or the
    state in which an exception left the loop. *)
Fixpoint rounds (n : nat) (st : pipeline) : pipeline :=
  match n with
  | 0 => st
  | S n' =>
      match raised st with
      | Some _ => st
      | None => if finished st then st else rounds n' (round st)
      end
  end.

(** [while True] with a bound on the number of rounds: the state in which
    the loop breaks or in which an exception leaves it; [None] when the
    bound is reached before. *)
Fixpoint loop (fuel : nat) (st : pipeline) : option pipeline :=
  match raised st with
  | Some _ => Some st
  | None =>
      if finished st then Some st
      else match fuel with
           | 0 => None
           | S fuel' => loop fuel' (round st)
           end
  end.

(** "Final accounting for any remaining slots": the body of the loop,
    then the loop. *)
Definition account_remaining (st : pipeline) (slot : t) : pipeline :=
  match status slot with
  | DONE =>
      {| moved := moved st + 1;
         permanently_failed := permanently_failed st;
         retry_tracker := retry_tracker st;
         blacklisted_urls := blacklisted_urls st;
         queue := queue st; slots := slots st;
         round_num := round_num st;
         coordinator_calls := coordinator_calls st;
         raised := raised st |}
  | ERROR =>
      {| moved := moved st;
         permanently_failed := permanently_failed st ++ [job_url slot];
         retry_tracker := retry_tracker st;
         blacklisted_urls := blacklisted_urls st;
         queue := queue st; slots := slots st;
         round_num := round_num st;
         coordinator_calls :=
           coordinator_calls st
           ++ [MarkFailed (job_url slot) (error_msg slot)];
         raised := raised st |}
  | _ => st
  end.

Definition final_accounting (st : pipeline) : pipeline :=
  foldl account_remaining st (slots st).

(** [_run_pipeline], from the granted list on: [inr] of the returned pair
    [(moved, permanently_failed)] together with the final state, or [inl]
    of the exception that leaves the function together with the state it
    leaves behind. *)
Definition _run_pipeline (granted : list string) (num_slots : nat)
    (fuel : nat)
  : option (string * pipeline + nat * list string * pipeline) :=
  match granted with
  | [] => Some (inr (0, [], start [] num_slots))
  | _ =>
      st ← loop fuel (start granted num_slots);
      match raised st with
      | Some e => Some (inl (e, st))
      | None =>
          let st' := final_accounting st in
          Some (inr (moved st', permanently_failed st', st'))
      end
  end.

End WithCoordinator.
End dataset_mover.

(** * Vocabulary of the statements

    The definitions below are not code of the repository: they name the
    notions the properties are stated with, and the concrete inputs the
    properties are tried on. *)

(** ** Coordinators *)

(** When a claim is granted, in the words of the specification: the entry is
    absent, or FAILED, or HELD and stale. *)
Definition spec_grantable (stale_timeout now : Z) (entry : option Entry) : Prop :=
  match entry with
  | None => True
  | Some e =>
      status e = STATUS_FAILED
      ∨ (status e = STATUS_HELD
         ∧ (stale_timeout ≤ now - default 0 (updated_at e))%Z)
  end.

(** Sequential claiming, as the specification words it: one [claim] per
    key, in list order, each call seeing the writes of the calls before it;
    the keys whose claim was granted and those whose claim was denied are
    collected in order. *)
Fixpoint sequential_claims (claim1 : string → ledger → bool * ledger)
    (keys : list string) (L : ledger) : list string * list string * ledger :=
  match keys with
  | [] => ([], [], L)
  | k :: rest =>
      let '(ok, L1) := claim1 k L in
      let '(granted, denied, L2) := sequential_claims claim1 rest L1 in
      if ok then (k :: granted, denied, L2) else (granted, k :: denied, L2)
  end.


(** When the code grants a claim: the entry is absent, or HELD and stale. *)
Definition grantable (stale_timeout now : Z) (entry : option Entry) : Prop :=
  match entry with
  | None => True
  | Some e =>
      status e = STATUS_HELD
      ∧ (stale_timeout ≤ now - default 0 (updated_at e))%Z
  end.

(** An entry claimed at the instant [now] and still HELD. *)
Definition fresh (now : Z) (L : ledger) (k : string) : Prop :=
  ∃ e, L !! k = Some e ∧ status e = STATUS_HELD ∧ updated_at e = Some now.

(** The shape common to the claim operations of both coordinators: a claim
    either leaves the ledger alone and is denied, or it is granted on an
    entry that is claimable at the instant [locked] and writes an entry
    HELD since [now]. *)
Definition claim_like (stale_timeout locked now : Z)
    (claim1 : string → ledger → bool * ledger) : Prop :=
  ∀ k L,
    claim1 k L = (false, L)
    ∨ (coordination_server.claimable stale_timeout locked (L !! k) = true
       ∧ ∃ e, claim1 k L = (true, <[k := e]> L)
              ∧ status e = STATUS_HELD ∧ updated_at e = Some now).

(** What one turn of the loop of [/batch_claim] does; with [locked = now]
    it is [/claim] without its missing-url guard. *)
Definition claim_unguarded (stale_timeout now locked : Z)
    (holder worker : string) (url : string) (_data : ledger) : bool * ledger :=
  if coordination_server.claimable stale_timeout locked (_data !! url)
  then (true,
        <[url := coordination_server.held_entry now holder worker (_data !! url)]>
          _data)
  else (false, _data).

(** Every HELD entry carries the fields a claim writes.  The ledgers the
    operations build from the empty ledger are of this kind. *)
Definition held_complete (L : ledger) : Prop :=
  ∀ k e, L !! k = Some e → status e = STATUS_HELD →
         is_Some (holder e) ∧ is_Some (claimed_at e) ∧ is_Some (updated_at e).

(** An entry with its [updated_at] replaced. *)
Definition with_updated_at (t : Z) (e : Entry) : Entry :=
  {| status := status e; holder := holder e; worker := worker e;
     claimed_at := claimed_at e; updated_at := Some t; error := error e |}.

Definition failed_A : ledger :=
  {[ "A" := {| status := STATUS_FAILED; holder := Some "x"; worker := None;
               claimed_at := Some 0%Z; updated_at := Some 50%Z;
               error := Some "boom" |} ]}.

Definition held_A : ledger :=
  {[ "A" := {| status := STATUS_HELD; holder := Some "x"; worker := Some "w1";
               claimed_at := Some 5%Z; updated_at := Some 7%Z;
               error := None |} ]}.

(** Every request fails with a connection error or a timeout. *)
Definition unreachable (network : nat → HTTPCoordinator.reply) : Prop :=
  ∀ n, network n = HTTPCoordinator.ConnectionError
       ∨ network n = HTTPCoordinator.Timeout.

(** *** Schedules of coordinator operations

    The critical sections that the workers run on the file-backed
    coordinator, each stamped with its instant.  A [batch_claim] is a
    sequence of claims, one critical section each. *)

Inductive op :=
| OpClaim (url holder : string)
| OpMarkDone (url : string)
| OpMarkFailed (url error : string).

(** The requests that the server handles, each stamped with the instant of
    its critical section.  A [/batch_claim] carries the reading [now] of
    the clock that it takes before it waits for the lock. *)
Inductive request :=
| ReqClaim (url holder : string)
| ReqBatchClaim (now : Z) (urls : list string) (holder : string)
| ReqDone (url : string)
| ReqFailed (url error : string).

(** One operation on the file-backed coordinator: the keys it was granted
    and the ledger it leaves. *)
Definition file_op (stale_timeout now : Z) (o : op) (L : ledger)
  : list string * ledger :=
  match o with
  | OpClaim url holder =>
      let '(ok, L') := URLCoordinator.claim stale_timeout now url holder L in
      (if ok then [url] else [], L')
  | OpMarkDone url => ([], URLCoordinator.mark_done now url L)
  | OpMarkFailed url error => ([], URLCoordinator.mark_failed now url error L)
  end.

(** One request on the server, sent by the worker [wid] and handled at the
    instant [locked]. *)
Definition server_op (stale_timeout : Z) (wid : string) (locked : Z)
    (r : request) (L : ledger) : list string * ledger :=
  match r with
  | ReqClaim url holder =>
      let '(ok, L') :=
        coordination_server.claim stale_timeout locked url holder wid L in
      (if ok then [url] else [], L')
  | ReqBatchClaim now urls holder =>
      let '(granted, _, L') :=
        coordination_server.batch_claim stale_timeout now locked urls holder
          wid L in
      (granted, L')
  | ReqDone url => ([], coordination_server.done locked url wid L)
  | ReqFailed url error =>
      ([], coordination_server.failed locked url error wid L)
  end.

(** The claims of a [batch_claim] of the file-backed coordinator, from
    position [i] on, as a schedule. *)
Fixpoint batch_schedule (now : nat → Z) (i : nat) (urls : list string)
    (holder : string) : list (Z * op) :=
  match urls with
  | [] => []
  | url :: rest =>
      (now i, OpClaim url holder) :: batch_schedule now (S i) rest holder
  end.

(** The request was handled without waiting: a [/batch_claim] took the
    lock at the instant at which it had read the clock. *)
Definition prompt (locked : Z) (r : request) : Prop :=
  match r with
  | ReqBatchClaim now _ _ => now = locked
  | _ => True
  end.

(** A schedule run from the ledger [L]: the grants, each with its instant,
    in the order they were given, and the ledger left. *)
Fixpoint run {O} (apply : Z → O → ledger → list string * ledger)
    (sched : list (Z * O)) (L : ledger) : list (Z * string) * ledger :=
  match sched with
  | [] => ([], L)
  | (now, o) :: rest =>
      let '(granted, L1) := apply now o L in
      let '(log, L2) := run apply rest L1 in
      (((λ k, (now, k)) <$> granted) ++ log, L2)
  end.

(** The clock never goes back. *)
Fixpoint ascending (ts : list Z) : bool :=
  match ts with
  | t1 :: ((t2 :: _) as rest) => bool_decide (t1 ≤ t2)%Z && ascending rest
  | _ => true
  end.

(** Two grants of one key are at least [stale_timeout] apart. *)
Definition spaced (stale_timeout : Z) (log : list (Z * string)) : Prop :=
  ∀ l1 t k l2 t' l3,
    log = l1 ++ (t, k) :: l2 ++ (t', k) :: l3 → (stale_timeout ≤ t' - t)%Z.

(** Every grant recorded so far is backed by an entry of the ledger that is
    either no longer HELD or was refreshed no earlier than the grant. *)
Definition backed (tnow : Z) (L : ledger) (pre : list (Z * string)) : Prop :=
  ∀ t k, (t, k) ∈ pre →
    (t ≤ tnow)%Z
    ∧ ∃ e, L !! k = Some e
           ∧ (status e = STATUS_HELD →
              ∃ u, updated_at e = Some u ∧ (t ≤ u)%Z).

(** The grants of [new] respect the timeout among themselves and against
    the grants of [pre]. *)
Definition spaced_after (stale_timeout : Z) (pre new : list (Z * string))
  : Prop :=
  ∀ l1 t' k l2, new = l1 ++ (t', k) :: l2 →
    ∀ t, (t, k) ∈ pre ++ l1 → (stale_timeout ≤ t' - t)%Z.

(** What the operations of a schedule that satisfy [P] have to guarantee
    for the grants to stay spaced. *)
Definition op_ok {O} (stale_timeout : Z) (P : Z → O → Prop)
    (apply : Z → O → ledger → list string * ledger) : Prop :=
  ∀ now o tnow (L : ledger) pre,
    P now o → (tnow ≤ now)%Z → backed tnow L pre →
    spaced_after stale_timeout pre ((λ k, (now, k)) <$> (apply now o L).1)
    ∧ backed now (apply now o L).2
        (pre ++ ((λ k, (now, k)) <$> (apply now o L).1)).

(** The entry of [k] is terminal (DONE or FAILED) and still carries the
    [holder] and the [claimed_at] of [e]. *)
Definition settled (L : ledger) (k : string) (e : Entry) : Prop :=
  ∃ e', L !! k = Some e' ∧ status e' ≠ STATUS_HELD
        ∧ holder e' = holder e ∧ claimed_at e' = claimed_at e.

Definition keeps_settled {O}
    (apply : Z → O → ledger → list string * ledger) : Prop :=
  ∀ now o (L : ledger) k e,
    settled L k e →
    (k ∉ (apply now o L).1) ∧ settled (apply now o L).2 k e.

(** A schedule of two workers: ["x"] claims ["A"], ["y"] tries ten seconds
    later and again, in a batch, once the claim of ["x"] is stale. *)
Definition two_workers : list (Z * op) :=
  [(0, OpClaim "A" "x"); (10, OpClaim "A" "y")]%Z
  ++ batch_schedule (λ i, 1800 + Z.of_nat i)%Z 0 ["A"; "B"] "y".

(** The same on the server, the batch taking its lock at once. *)
Definition two_requests : list (Z * request) :=
  [(0, ReqClaim "A" "x"); (10, ReqClaim "A" "y");
   (1800, ReqBatchClaim 1800 ["A"; "B"] "y")]%Z.

(** ["x"] claims ["A"] at 100; the batch of ["y"] reads the clock at 1899
    and gets the lock at 1900; ["z"] claims ["A"] at 3699. *)
Definition waiting_batch : list (Z * request) :=
  [(100, ReqClaim "A" "x"); (1900, ReqBatchClaim 1899 ["A"] "y");
   (3699, ReqClaim "A" "z")]%Z.

(** *** Counting and grouping *)

(** The urls of the ledger with a given status. *)
Definition with_status (s : Status) (L : ledger) : ledger :=
  filter (λ item, status item.2 = s) L.

(** What both coordinators write on a claim, up to the entry written. *)
Definition claims_with (stale_timeout now : Z)
    (entry_for : string → ledger → Entry)
    (claim1 : string → ledger → bool * ledger) : Prop :=
  ∀ k (L : ledger),
    claim1 k L
    = if coordination_server.claimable stale_timeout now (L !! k)
      then (true, <[k := entry_for k L]> L) else (false, L).

(** The urls that pass the filter of the collection loop. *)
Definition usable (_done _held blacklist : gset string) (url : string) : Prop :=
  (url ∉ _done) ∧ (url ∉ _held) ∧ (url ∉ blacklist).

#[global] Instance usable_dec _done _held blacklist url :
  Decision (usable _done _held blacklist url).
Proof. unfold usable. apply _. Defined.

(** A ledger in which job 1 is done and job 2 has failed. *)
Definition board_ledger : ledger :=
  {[ "job/1" := {| status := STATUS_DONE; holder := Some "x"; worker := None;
                   claimed_at := Some 0%Z; updated_at := Some 40%Z;
                   error := None |};
     "job/2" := {| status := STATUS_FAILED; holder := Some "x"; worker := None;
                   claimed_at := Some 0%Z; updated_at := Some 50%Z;
                   error := Some "boom" |} ]}.

(** *** Client and server *)

(** What the client's [requests] call makes of a response that reaches it:
    [raise_for_status] raises an [HTTPError], which is a
    [RequestException], on the codes 400 to 599, and the body is decoded
    otherwise. *)
Definition deliver (r : app.response) : HTTPCoordinator.reply :=
  if bool_decide (400 ≤ r.2 < 600)%Z then HTTPCoordinator.RequestException
  else HTTPCoordinator.Json r.1.

(** The outcome of a request that is tried again. *)
Definition transient (r : HTTPCoordinator.reply) : bool :=
  match r with
  | HTTPCoordinator.ConnectionError | HTTPCoordinator.Timeout => true
  | _ => false
  end.

(** The body a reply gives, [dflt] when the request failed. *)
Definition body_or (dflt : HTTPCoordinator.json) (r : HTTPCoordinator.reply)
  : HTTPCoordinator.json :=
  match r with
  | HTTPCoordinator.Json b => b
  | _ => dflt
  end.

(** [x] is a dictionary. *)
Definition is_object (x : HTTPCoordinator.json) : bool :=
  match x with
  | HTTPCoordinator.JObj _ => true
  | _ => false
  end.

(** ** Pipeline *)

Module Accounting.
Import dataset_mover TabState.

(** The orchestrator is done with the key of a slot once the slot is marked
    [_counted], [_recycled] or [BLACKLISTED]: the key was counted as moved,
    put back on the queue, or recorded as permanently failed. *)
Definition accounted (s : t) : bool :=
  match status s with
  | _counted | _recycled | BLACKLISTED => true
  | _ => false
  end.

(** Keys held by slots that are not yet accounted for. *)
Fixpoint held_keys (ss : list t) : list string :=
  match ss with
  | [] => []
  | s :: rest =>
      if accounted s then held_keys rest else job_url s :: held_keys rest
  end.

(** Keys still to be settled: queued, or held by a slot. *)
Definition outstanding (st : pipeline) : list string :=
  queue st ++ held_keys (slots st).

(** The sum of the specification: completed + permanently failed + queued +
    slots in a non-terminal state (the [active] slots of the termination
    test). *)
Definition claimed_total (st : pipeline) : nat :=
  moved st + length (permanently_failed st) + length (queue st)
  + length (filter (λ s, active s) (slots st)).

(** The invariant of a run on [n] granted keys. *)
Record consistent (n : nat) (st : pipeline) : Prop := mkConsistent {
  balance :
    moved st + length (permanently_failed st) + length (outstanding st) = n;
  distinct : NoDup (outstanding st);
  quarantined : ∀ u, u ∈ blacklisted_urls st → u ∉ outstanding st;
}.

(** One step of a run: a slot is visited, or the next round begins. *)
Inductive step (enabled : bool) : pipeline → pipeline → Prop :=
| step_visit env i st : step enabled st (visit enabled env i st)
| step_next_round st : step enabled st (next_round st).

(** The same, a slot being visited only while no exception has left a
    tick. *)
Inductive live_step (enabled : bool) : pipeline → pipeline → Prop :=
| live_visit env i st :
    raised st = None → live_step enabled st (visit enabled env i st)
| live_next_round st : live_step enabled st (next_round st).

(** *** Sample worlds *)

Definition with_page (p : pending_obs) (n : navigating_obs) : tick_env :=
  {| server_entry := None; on_pending := p; on_navigating := n;
     on_detail_wait := GatesPassed "add_to_dataset";
     on_scanning := NothingToConvert; on_null_clicked := SwalConfirmed;
     on_converting := ProcessingComplete; on_ready := AddButtonClicked "Add";
     on_add_clicked := ModalConfirmed "Confirm"; on_confirming := ModalClosed;
     on_verifying := RedirectedToBoard; mark_done_raised := None;
     mark_done_raised_again := None |}.


(** Every probe succeeds at once: a key is done after 8 ticks. *)
Definition smooth : tick_env := with_page GotoFired NavDetailVisible.

Definition smooth_world (r i : nat) : tick_env := smooth.

(** Slot 0 fails to open its page in round 1 and times out while
    navigating in rounds 4 and 8; the other slots run smoothly. *)
Definition exit_world (r i : nat) : tick_env :=
  if bool_decide (i = 0) then
    with_page (if bool_decide (r = 1) then OpenRaised "boom" else GotoFired)
              (if bool_decide (r = 7) then NavNotYet else NavTimeout)
  else smooth.

(** Slot 0 never manages to open its page; the other slots wait for their
    detail view forever. *)
Definition stuck_world (r i : nat) : tick_env :=
  if bool_decide (i = 0) then with_page (OpenRaised "boom") NavNotYet
  else with_page GotoFired NavNotYet.

(** Slot 0 fails to open its page in rounds 1 and 3, then runs smoothly. *)
Definition recovering_world (r i : nat) : tick_env :=
  if bool_decide (i = 0) && bool_decide (r ≤ 3)
  then with_page (OpenRaised "boom") NavNotYet
  else if bool_decide (i = 0) then smooth
  else with_page GotoFired NavNotYet.

End Accounting.

(** ** What the orchestrator reports *)

Module Reporting.
Import dataset_mover TabState.

(** The urls reported with [mark_failed], resp. [mark_done], in order. *)
Definition failed_reports (calls : list coord_call) : list string :=
  omap (λ c, match c with MarkFailed url _ => Some url | _ => None end) calls.

Definition done_reports (calls : list coord_call) : list string :=
  omap (λ c, match c with MarkDone url => Some url | _ => None end) calls.

(** The keys of the slots that have reached DONE and are not yet counted,
    and of the slots left in ERROR. *)
Definition done_keys (ss : list t) : list string :=
  job_url <$> filter (λ s, status s = DONE) ss.

Definition error_keys (ss : list t) : list string :=
  job_url <$> filter (λ s, status s = ERROR) ss.

(** The position of a state in the lifecycle
    PENDING, NAVIGATING, ..., VERIFYING, DONE. *)
Definition rank (s : Status) : nat :=
  match s with
  | PENDING => 0 | NAVIGATING => 1 | DETAIL_WAIT => 2 | SCANNING => 3
  | NULL_CLICKED => 4 | CONVERTING => 5 | READY => 6 | ADD_CLICKED => 7
  | CONFIRMING => 8 | VERIFYING => 9 | DONE => 10
  | ERROR | BLACKLISTED | _counted | _recycled => 11
  end.

(** What holds at every point of a run on the keys [G] with [c] slots,
    whatever the keys are (duplicates included). *)
Record sound (enabled : bool) (G : list string) (c : nat) (st : pipeline)
  : Prop := mkSound {
  keys_sub :
    Accounting.outstanding st ++ permanently_failed st ⊆+ G;
  keys_le :
    moved st + length (permanently_failed st)
      + length (Accounting.outstanding st) ≤ length G;
  reports_failed :
    failed_reports (coordinator_calls st) = permanently_failed st;
  reports_done :
    length (done_reports (coordinator_calls st))
    ≤ 2 * (moved st + length (done_keys (slots st)))
      + match raised st with Some _ => 2 | None => 0 end;
  reports_done_ge :
    enabled = false →
    moved st + length (done_keys (slots st))
    ≤ length (done_reports (coordinator_calls st));
  budget :
    ∀ u n, retry_tracker st !! u = Some n → 1 ≤ n ≤ MAX_CARD_RETRIES;
  black_failed :
    ∀ u, u ∈ blacklisted_urls st → u ∈ permanently_failed st;
  slot_count : length (slots st) = c;
}.

(** What holds at every point of a run in which no first call of
    [mark_done] raises: every completed key was reported once. *)
Record reported_once (enabled : bool) (st : pipeline) : Prop := mkOnce {
  once_le :
    length (done_reports (coordinator_calls st))
    ≤ moved st + length (done_keys (slots st));
  once_eq :
    enabled = false →
    length (done_reports (coordinator_calls st))
    = moved st + length (done_keys (slots st));
}.

End Reporting.

(** ** Runs in which no probe fails *)

Module Calm.
Import dataset_mover TabState.

(** No probe of the tick reports a failure. *)
Definition calm (env : tick_env) : bool :=
  match on_pending env with OpenRaised _ => false | _ => true end
  && match on_navigating env with
     | NavPageClosed | NavTimeout | NavRaised _ => false
     | _ => true
     end
  && match on_detail_wait env with
     | GateFailed _ | DetailRaised _ => false
     | _ => true
     end
  && match on_scanning env with ScanRaised _ => false | _ => true end
  && match on_null_clicked env with
     | NullClickedRaised _ => false
     | _ => true
     end
  && match on_converting env with
     | Stalled _ | PollRaised _ => false
     | _ => true
     end
  && match on_ready env with
     | AddButtonNeverAppeared | ReadyRaised _ => false
     | _ => true
     end
  && match on_add_clicked env with
     | ModalNeverAppeared | AddClickedRaised _ => false
     | _ => true
     end.

(** What holds at every point of a run in which no probe fails. *)
Record unharmed (n : nat) (st : pipeline) : Prop := mkUnharmed {
  none_failed : permanently_failed st = [];
  none_blacklisted : blacklisted_urls st = ∅;
  none_erring :
    Forall (λ s, status s ≠ ERROR ∧ status s ≠ BLACKLISTED
                 ∧ status s ≠ _recycled) (slots st);
  all_there : moved st + length (Accounting.outstanding st) = n;
}.
End Calm.

(** * Properties of the coordinators *)

(** ** Truncation of error messages *)

Lemma slice_to_length n s : len (slice_to n s) = n `min` len s.
Proof.
  revert n. induction s as [|c s IH]; intros n; simpl; [lia|].
  destruct (continuation c) eqn:Hc; simpl; rewrite ?Hc; [apply IH|].
  destruct n as [|n]; simpl; rewrite ?Hc, ?IH; lia.
Qed.

Lemma slice_to_prefix n s : ∃ rest, s = slice_to n s +:+ rest.
Proof.
  revert n. induction s as [|c s IH]; intros n; simpl; [by exists ""|].
  destruct (continuation c).
  - destruct (IH n) as [rest Hrest]. exists rest.
    change (String c s = String c (slice_to n s +:+ rest)). congruence.
  - destruct n as [|n]; [by exists (String c s)|].
    destruct (IH n) as [rest Hrest]. exists rest.
    change (String c s = String c (slice_to n s +:+ rest)). congruence.
Qed.

Lemma slice_to_short n s : len s ≤ n → slice_to n s = s.
Proof.
  revert n. induction s as [|c s IH]; intros n; simpl; [done|].
  destruct (continuation c); intros H; [by rewrite IH|].
  destruct n as [|n]; [lia|]. rewrite IH; [done|lia].
Qed.

(** An em dash is one character of three bytes: a slice never cuts it. *)
Example slice_to_characters :
  len "—" = 1 ∧ String.length "—" = 3
  ∧ slice_to 2 "a—b" = "a—" ∧ slice_to 3 "a—b" = "a—b".
Proof. vm_compute. by split_and!. Qed.

(** ** The decision of [claim] *)

Section Claiming.
Local Open Scope Z_scope.
Variable stale_timeout : Z.

(** Both [claim]s take the decision that [/batch_claim] takes. *)
Lemma file_claim_unfold now url holder (L : ledger) :
  URLCoordinator.claim stale_timeout now url holder L =
    if coordination_server.claimable stale_timeout now (L !! url)
    then (true,
          <[url := {| status := STATUS_HELD; holder := Some holder;
                      worker := None;
                      claimed_at :=
                        Some (match L !! url with
                              | Some e => default now (claimed_at e)
                              | None => now
                              end);
                      updated_at := Some now; error := None |}]> L)
    else (false, L).
Proof.
  unfold URLCoordinator.claim, coordination_server.claimable,
    coordination_server._is_stale.
  destruct (L !! url) as [e|]; [|done].
  destruct (status e); simpl; repeat case_bool_decide; simpl;
    try done; try lia; naive_solver.
Qed.

Lemma server_claim_unfold now url holder wid (L : ledger) :
  coordination_server.claim stale_timeout now url holder wid L =
    if is_empty url then (false, L)
    else claim_unguarded stale_timeout now now holder wid url L.
Proof.
  unfold coordination_server.claim, claim_unguarded,
    coordination_server.claimable.
  destruct (is_empty url); [done|].
  destruct (L !! url) as [e|]; [|done].
  repeat case_match; done.
Qed.

Lemma claimable_spec now entry :
  coordination_server.claimable stale_timeout now entry = true
  ↔ grantable stale_timeout now entry.
Proof.
  unfold coordination_server.claimable, coordination_server._is_stale,
    grantable.
  destruct entry as [e|]; [|done].
  destruct (status e) eqn:E; simpl; repeat case_bool_decide; simpl;
    intuition (try congruence; try lia).
Qed.

Lemma file_claim_granted now url holder (L : ledger) :
  (URLCoordinator.claim stale_timeout now url holder L).1 = true
  ↔ grantable stale_timeout now (L !! url).
Proof.
  rewrite file_claim_unfold, <-claimable_spec.
  by destruct (coordination_server.claimable _ _ _).
Qed.

Lemma server_claim_granted now url holder wid (L : ledger) :
  (coordination_server.claim stale_timeout now url holder wid L).1 = true
  ↔ url ≠ "" ∧ grantable stale_timeout now (L !! url).
Proof.
  rewrite server_claim_unfold, <-claimable_spec.
  unfold is_empty, claim_unguarded.
  case_bool_decide; destruct (coordination_server.claimable _ _ _); simpl;
    intuition congruence.
Qed.

(** C1 (as amended).  [claim] grants exactly when the key has no entry or
    its entry is HELD and stale (age [now - updated_at] at least
    [stale_timeout]); a DONE entry, a FAILED entry and a HELD entry that is
    not stale are denied, and a denied claim leaves the ledger as it was.
    The [/claim] handler of the server takes the same decision as the
    file-backed coordinator on every key but the empty one, which it
    always denies. *)
Theorem claim_granted_iff now url holder wid (L : ledger) :
  let file := URLCoordinator.claim stale_timeout now url holder L in
  let server := coordination_server.claim stale_timeout now url holder wid L in
  (file.1 = true ↔ grantable stale_timeout now (L !! url))
  ∧ (server.1 = true ↔ url ≠ "" ∧ grantable stale_timeout now (L !! url))
  ∧ server.1 = negb (is_empty url) && file.1
  ∧ (file.1 = false → file.2 = L)
  ∧ (server.1 = false → server.2 = L).
Proof.
  simpl. split_and!.
  - apply file_claim_granted.
  - apply server_claim_granted.
  - rewrite server_claim_unfold, file_claim_unfold. unfold claim_unguarded.
    by destruct (is_empty url),
         (coordination_server.claimable stale_timeout now (L !! url)).
  - rewrite file_claim_unfold.
    by destruct (coordination_server.claimable _ _ _).
  - rewrite server_claim_unfold. unfold claim_unguarded.
    by destruct (is_empty url),
         (coordination_server.claimable stale_timeout now (L !! url)).
Qed.

(** ** [batch_claim] against sequential claims *)

Lemma file_batch_loop now i urls holder granted denied (L : ledger) :
  URLCoordinator.batch_claim_loop stale_timeout (λ _, now) i urls holder
    granted denied L
  = let '(g, d, L') :=
      sequential_claims
        (λ k, URLCoordinator.claim stale_timeout now k holder) urls L in
    (granted ++ g, denied ++ d, L').
Proof.
  revert i granted denied L.
  induction urls as [|url rest IH]; intros i granted denied L; simpl.
  - by rewrite !app_nil_r.
  - destruct (URLCoordinator.claim _ _ _ _ _) as [[] L1]; rewrite IH;
      destruct (sequential_claims _ rest L1) as [[g d] L2];
      by rewrite <-?app_assoc.
Qed.

Lemma server_batch_loop now locked urls holder wid granted denied
    (L : ledger) :
  coordination_server.batch_claim_loop stale_timeout now locked urls holder
    wid granted denied L
  = let '(g, d, L') :=
      sequential_claims (claim_unguarded stale_timeout now locked holder wid)
        urls L in
    (granted ++ g, denied ++ d, L').
Proof.
  revert granted denied L.
  induction urls as [|url rest IH]; intros granted denied L; simpl.
  - by rewrite !app_nil_r.
  - unfold claim_unguarded at 1.
    destruct (coordination_server.claimable _ _ _); rewrite IH;
      match goal with
      | |- context [sequential_claims ?f rest ?L1] =>
          destruct (sequential_claims f rest L1) as [[g d] L2]
      end;
      by rewrite <-?app_assoc.
Qed.

Lemma file_batch_sequential now urls holder (L : ledger) :
  URLCoordinator.batch_claim stale_timeout (λ _, now) urls holder L
  = sequential_claims
      (λ k, URLCoordinator.claim stale_timeout now k holder) urls L.
Proof.
  unfold URLCoordinator.batch_claim. rewrite file_batch_loop.
  by destruct (sequential_claims _ urls L) as [[g d] L'].
Qed.

Lemma server_batch_unguarded now locked urls holder wid (L : ledger) :
  coordination_server.batch_claim stale_timeout now locked urls holder wid L
  = sequential_claims (claim_unguarded stale_timeout now locked holder wid)
      urls L.
Proof.
  unfold coordination_server.batch_claim.
  destruct urls as [|k rest]; [done|].
  rewrite server_batch_loop.
  by destruct (sequential_claims _ (k :: rest) L) as [[g d] L'].
Qed.




(** ** Granted keys are distinct *)

Section Distinct.
Hypothesis positive : 0 < stale_timeout.
Variable now : Z.

Lemma fresh_not_claimable L k :
  fresh now L k →
  coordination_server.claimable stale_timeout now (L !! k) = false.
Proof.
  intros (e & -> & Hs & Hu).
  unfold coordination_server.claimable, coordination_server._is_stale.
  rewrite Hs, Hu. simpl. rewrite (bool_decide_eq_false_2 (_ ≤ _)) by lia.
  by repeat case_bool_decide.
Qed.

Lemma fresh_never_granted claim1 keys L k :
  claim_like stale_timeout now now claim1 → fresh now L k →
  k ∉ (sequential_claims claim1 keys L).1.1.
Proof.
  intros Hlike. revert L.
  induction keys as [|k' keys IH]; intros L Hf; simpl.
  - apply not_elem_of_nil.
  - destruct (Hlike k' L) as [-> | (Hc & e & -> & Hs & Hu)].
    + specialize (IH L Hf).
      by destruct (sequential_claims claim1 keys L) as [[g d] L2].
    + assert (k' ≠ k) as Hne.
      { intros ->. by rewrite fresh_not_claimable in Hc. }
      assert (fresh now (<[k' := e]> L) k) as Hf'.
      { destruct Hf as (e0 & ? & ? & ?). exists e0.
        by rewrite lookup_insert_ne. }
      specialize (IH _ Hf').
      destruct (sequential_claims claim1 keys _) as [[g d] L2].
      simpl in *. by apply not_elem_of_cons.
Qed.

Lemma sequential_claims_NoDup claim1 keys L :
  claim_like stale_timeout now now claim1 →
  NoDup (sequential_claims claim1 keys L).1.1.
Proof.
  intros Hlike. revert L. induction keys as [|k keys IH]; intros L; simpl.
  - apply NoDup_nil_2.
  - destruct (Hlike k L) as [-> | (Hc & e & -> & Hs & Hu)].
    + specialize (IH L).
      by destruct (sequential_claims claim1 keys L) as [[g d] L2].
    + pose proof (fresh_never_granted claim1 keys (<[k := e]> L) k Hlike)
        as Hk.
      specialize (IH (<[k := e]> L)).
      destruct (sequential_claims claim1 keys _) as [[g d] L2].
      simpl in *. apply NoDup_cons. split; [|done].
      apply Hk. exists e. by rewrite lookup_insert_eq.
Qed.

(** With a positive timeout a batch taken at one instant never grants a
    key twice. *)
Lemma batch_claim_granted_NoDup urls holder wid L :
  NoDup (URLCoordinator.batch_claim stale_timeout (λ _, now) urls holder L).1.1
  ∧ NoDup
      (coordination_server.batch_claim stale_timeout now now urls holder wid
         L).1.1.
Proof.
  split.
  - rewrite file_batch_sequential. apply sequential_claims_NoDup.
    intros k L0. rewrite file_claim_unfold.
    destruct (coordination_server.claimable _ _ _) eqn:Hc; [right|by left].
    split; [done|]. by eexists.
  - rewrite server_batch_unguarded. apply sequential_claims_NoDup.
    intros k L0. unfold claim_unguarded.
    destruct (coordination_server.claimable _ _ _) eqn:Hc; [right|by left].
    split; [done|]. by eexists.
Qed.
End Distinct.
End Claiming.

(** ** Ledgers built by the operations

    A HELD entry is only ever written by a claim, with its [holder],
    [claimed_at] and [updated_at]. *)

Section Reachable.
Local Open Scope Z_scope.
Variable stale_timeout : Z.

Lemma held_complete_empty : held_complete ∅.
Proof. intros k e. by rewrite lookup_empty. Qed.

Lemma held_complete_insert (L : ledger) k e :
  held_complete L →
  (status e = STATUS_HELD →
   is_Some (holder e) ∧ is_Some (claimed_at e) ∧ is_Some (updated_at e)) →
  held_complete (<[k := e]> L).
Proof.
  intros HL He k' e'. rewrite lookup_insert. case_decide.
  - intros [= <-]. exact He.
  - apply HL.
Qed.

Lemma file_claim_held_complete now url holder (L : ledger) :
  held_complete L →
  held_complete (URLCoordinator.claim stale_timeout now url holder L).2.
Proof.
  intros HL. rewrite file_claim_unfold.
  destruct (coordination_server.claimable _ _ _); [|done].
  apply held_complete_insert; [done|]. simpl. by eauto.
Qed.

Lemma server_claim_held_complete now url holder wid (L : ledger) :
  held_complete L →
  held_complete (coordination_server.claim stale_timeout now url holder wid L).2.
Proof.
  intros HL. rewrite server_claim_unfold. unfold claim_unguarded.
  destruct (is_empty url); [done|].
  destruct (coordination_server.claimable _ _ _); [|done].
  apply held_complete_insert; [done|]. simpl. by eauto.
Qed.

Lemma sequential_claims_held_complete claim1 keys (L : ledger) :
  (∀ k L0, held_complete L0 → held_complete (claim1 k L0).2) →
  held_complete L → held_complete (sequential_claims claim1 keys L).2.
Proof.
  intros Hclaim. revert L. induction keys as [|k keys IH]; intros L HL; simpl.
  - done.
  - specialize (Hclaim k L HL). destruct (claim1 k L) as [ok L1].
    specialize (IH L1 Hclaim).
    destruct (sequential_claims claim1 keys L1) as [[g d] L2].
    by destruct ok.
Qed.

Lemma batch_claim_held_complete now locked urls holder wid (L : ledger) :
  held_complete L →
  held_complete
    (URLCoordinator.batch_claim stale_timeout (λ _, now) urls holder L).2
  ∧ held_complete
      (coordination_server.batch_claim stale_timeout now locked urls holder
         wid L).2.
Proof.
  intros HL. rewrite file_batch_sequential, server_batch_unguarded. split.
  - apply sequential_claims_held_complete; [|done].
    intros k L0. apply file_claim_held_complete.
  - apply sequential_claims_held_complete; [|done].
    intros k L0 HL0. unfold claim_unguarded.
    destruct (coordination_server.claimable _ _ _); [|done].
    apply held_complete_insert; [done|]. simpl. by eauto.
Qed.

Lemma terminal_marks_held_complete now url reason wid (L : ledger) :
  held_complete L →
  held_complete (URLCoordinator.mark_done now url L)
  ∧ held_complete (URLCoordinator.mark_failed now url reason L)
  ∧ held_complete (coordination_server.done now url wid L)
  ∧ held_complete (coordination_server.failed now url reason wid L).
Proof.
  intros HL.
  unfold URLCoordinator.mark_done, URLCoordinator._update_status,
    URLCoordinator.mark_failed, coordination_server.done,
    coordination_server.failed.
  split_and!; try (destruct (is_empty url); [done|]);
    (apply held_complete_insert; [done|]); by simpl.
Qed.
End Reachable.

(** A FAILED entry is reported available by [is_available] and by
    [/available], and is denied by [claim] and by [/claim]. *)
Example failed_available_not_claimable :
  URLCoordinator.is_available 1800 100 "A" failed_A = true
  ∧ coordination_server.available 1800 100 "A" failed_A = true
  ∧ (URLCoordinator.claim 1800 100 "A" "y" failed_A).1 = false
  ∧ (coordination_server.claim 1800 100 "A" "y" "w2" failed_A).1 = false.
Proof. vm_compute. by split_and!. Qed.

(** C1, counterexample.  A FAILED entry is absent-FAILED-or-stale in the
    words of the specification, yet neither coordinator grants the claim. *)
Lemma claim_failed_entry_denied :
  ¬ ((URLCoordinator.claim 1800 100 "A" "y" failed_A).1 = true
     ↔ spec_grantable 1800 100 (failed_A !! "A"))
  ∧ ¬ ((coordination_server.claim 1800 100 "A" "y" "w2" failed_A).1 = true
       ↔ spec_grantable 1800 100 (failed_A !! "A")).
Proof.
  assert (Hs : spec_grantable 1800 100 (failed_A !! "A"))
    by (vm_compute; auto).
  split; intros [_ H]; specialize (H Hs); vm_compute in H; discriminate.
Qed.

(** C5, counterexample.  Every call writes the time it reads: on an empty
    ledger, [mark_done] at time 1 and again at time 2 leaves an entry with
    [updated_at] 2, one call leaves [updated_at] 1; the same for
    [mark_failed]. *)
Lemma second_mark_moves_updated_at :
  URLCoordinator.mark_done 2 "A" (URLCoordinator.mark_done 1 "A" ∅) !! "A"
  ≠ URLCoordinator.mark_done 1 "A" ∅ !! "A"
  ∧ URLCoordinator.mark_failed 2 "A" "boom"
      (URLCoordinator.mark_failed 1 "A" "boom" ∅) !! "A"
    ≠ URLCoordinator.mark_failed 1 "A" "boom" ∅ !! "A".
Proof. split; vm_compute; discriminate. Qed.


(** C10, counterexample.  For the empty url the file-backed coordinator
    stores the error and the [/failed] handler, which answers 400, stores
    nothing. *)
Lemma failed_empty_url_not_stored :
  (URLCoordinator.mark_failed 1 "" "boom" ∅ !! "") ≫= error = Some "boom"
  ∧ (coordination_server.failed 1 "" "boom" "w" ∅ !! "") ≫= error = None.
Proof. vm_compute. by split. Qed.

(** C4, counterexample.  [stale_timeout] is not checked to be positive:
    with a timeout of 0 an entry is stale the instant it is written, and a
    re-claim at that instant is granted and leaves [updated_at] where it
    was. *)
Lemma reclaim_at_once_not_advanced :
  (URLCoordinator.claim 0 7 "A" "y" held_A).1 = true
  ∧ (URLCoordinator.claim 0 7 "A" "y" held_A).2 !! "A" ≫= updated_at
    = held_A !! "A" ≫= updated_at
  ∧ (coordination_server.claim 0 7 "A" "y" "w2" held_A).1 = true
  ∧ (coordination_server.claim 0 7 "A" "y" "w2" held_A).2 !! "A" ≫= updated_at
    = held_A !! "A" ≫= updated_at.
Proof. vm_compute. by split_and!. Qed.


Section Scenarios.
Local Open Scope Z_scope.

(** C3.  From an empty ledger, ["x"] is granted ["A"] at [t0]; ["y"] is
    denied at any [t1] before [stale_timeout] has elapsed since [t0], and
    granted at any [t2] from [t0 + stale_timeout] on; the entry then is
    HELD by ["y"].  The same holds of the server's [/claim]. *)
Theorem stale_reclaim_scenario stale_timeout t0 t1 t2 wid :
  t1 - t0 < stale_timeout → stale_timeout ≤ t2 - t0 →
  (let '(g0, L0) := URLCoordinator.claim stale_timeout t0 "A" "x" ∅ in
   let '(g1, L1) := URLCoordinator.claim stale_timeout t1 "A" "y" L0 in
   let '(g2, L2) := URLCoordinator.claim stale_timeout t2 "A" "y" L1 in
   g0 = true ∧ g1 = false ∧ g2 = true
   ∧ L2 !! "A" = Some {| status := STATUS_HELD; holder := Some "y";
                         worker := None; claimed_at := Some t0;
                         updated_at := Some t2; error := None |})
  ∧ (let '(g0, L0) := coordination_server.claim stale_timeout t0 "A" "x" wid ∅ in
     let '(g1, L1) := coordination_server.claim stale_timeout t1 "A" "y" wid L0 in
     let '(g2, L2) := coordination_server.claim stale_timeout t2 "A" "y" wid L1 in
     g0 = true ∧ g1 = false ∧ g2 = true
     ∧ L2 !! "A" = Some {| status := STATUS_HELD; holder := Some "y";
                           worker := Some wid; claimed_at := Some t0;
                           updated_at := Some t2; error := None |}).
Proof.
  intros Hfresh Hstale. split.
  - rewrite file_claim_unfold, lookup_empty. simpl.
    rewrite file_claim_unfold, lookup_insert_eq.
    unfold coordination_server.claimable at 1, coordination_server._is_stale.
    simpl. rewrite (bool_decide_eq_false_2 (_ ≤ _)) by lia. simpl.
    rewrite file_claim_unfold, lookup_insert_eq.
    unfold coordination_server.claimable, coordination_server._is_stale.
    simpl. rewrite (bool_decide_eq_true_2 (_ ≤ _)) by lia. simpl.
    by rewrite lookup_insert_eq.
  - rewrite server_claim_unfold. unfold claim_unguarded.
    rewrite lookup_empty. simpl.
    rewrite server_claim_unfold. unfold claim_unguarded.
    rewrite lookup_insert_eq.
    unfold coordination_server.claimable at 1, coordination_server._is_stale.
    simpl. rewrite (bool_decide_eq_false_2 (_ ≤ _)) by lia. simpl.
    rewrite server_claim_unfold. unfold claim_unguarded.
    rewrite lookup_insert_eq.
    unfold coordination_server.claimable, coordination_server._is_stale.
    simpl. rewrite (bool_decide_eq_true_2 (_ ≤ _)) by lia. simpl.
    by rewrite lookup_insert_eq.
Qed.

(** C4 (as amended).  The granted re-claim of a HELD entry writes exactly
    the fields [status], [holder], [claimed_at], [updated_at] (and [worker]
    on the server): [claimed_at] is the previous one, [updated_at] is the
    current time, at least [stale_timeout] after the previous [updated_at]
    and so strictly later when the timeout is positive; no [error] field
    is written and no other key of the ledger changes. *)
Theorem reclaim_preserves_claimed_at stale_timeout now url holder wid
    (L : ledger) e c u :
  L !! url = Some e → status e = STATUS_HELD →
  claimed_at e = Some c → updated_at e = Some u →
  ((URLCoordinator.claim stale_timeout now url holder L).1 = true →
   (URLCoordinator.claim stale_timeout now url holder L).2
   = <[url := {| status := STATUS_HELD; holder := Some holder;
                 worker := None; claimed_at := Some c;
                 updated_at := Some now; error := None |}]> L
   ∧ u + stale_timeout ≤ now ∧ (0 < stale_timeout → u < now))
  ∧ ((coordination_server.claim stale_timeout now url holder wid L).1 = true →
     (coordination_server.claim stale_timeout now url holder wid L).2
     = <[url := {| status := STATUS_HELD; holder := Some holder;
                   worker := Some wid; claimed_at := Some c;
                   updated_at := Some now; error := None |}]> L
     ∧ u + stale_timeout ≤ now ∧ (0 < stale_timeout → u < now)).
Proof.
  intros He Hheld Hc Hu. split.
  - intros Hg. pose proof Hg as Hg'.
    apply file_claim_granted in Hg'. rewrite He in Hg'. simpl in Hg'.
    rewrite Hu in Hg'. simpl in Hg'. destruct Hg' as [_ Hg'].
    split; [|lia].
    revert Hg. rewrite file_claim_unfold, He.
    destruct (coordination_server.claimable _ _ _); [|done]. intros _.
    simpl. by rewrite Hc.
  - intros Hg. pose proof Hg as Hg'.
    apply server_claim_granted in Hg' as [_ Hg']. rewrite He in Hg'.
    simpl in Hg'. rewrite Hu in Hg'. simpl in Hg'. destruct Hg' as [_ Hg'].
    split; [|lia].
    revert Hg. rewrite server_claim_unfold. unfold claim_unguarded.
    rewrite He. destruct (is_empty url); [done|].
    destruct (coordination_server.claimable _ _ _); [|done]. intros _.
    simpl. unfold coordination_server.held_entry. by rewrite Hc.
Qed.

(** C5 (as amended).  A second [mark_done] (resp. [mark_failed] with the
    same reason) leaves the ledger that a single call at the time of the
    second call leaves: the entry differs from the one the first call left
    in [updated_at] only, and two calls at the same instant leave what one
    call leaves.  On a key without entry the calls create the entry. *)
Theorem terminal_marks_idempotent (L : ledger) url reason wid t1 t2 :
  URLCoordinator.mark_done t2 url (URLCoordinator.mark_done t1 url L)
  = URLCoordinator.mark_done t2 url L
  ∧ URLCoordinator.mark_failed t2 url reason
      (URLCoordinator.mark_failed t1 url reason L)
    = URLCoordinator.mark_failed t2 url reason L
  ∧ coordination_server.done t2 url wid (coordination_server.done t1 url wid L)
    = coordination_server.done t2 url wid L
  ∧ coordination_server.failed t2 url reason wid
      (coordination_server.failed t1 url reason wid L)
    = coordination_server.failed t2 url reason wid L
  ∧ URLCoordinator.mark_done t2 url (URLCoordinator.mark_done t1 url L) !! url
    = with_updated_at t2 <$> (URLCoordinator.mark_done t1 url L !! url)
  ∧ URLCoordinator.mark_failed t2 url reason
      (URLCoordinator.mark_failed t1 url reason L) !! url
    = with_updated_at t2 <$> (URLCoordinator.mark_failed t1 url reason L !! url)
  ∧ URLCoordinator.mark_done t1 url L !! url
    = Some {| status := STATUS_DONE; holder := L !! url ≫= holder;
              worker := L !! url ≫= worker;
              claimed_at := L !! url ≫= claimed_at;
              updated_at := Some t1; error := L !! url ≫= error |}
  ∧ URLCoordinator.mark_failed t1 url reason L !! url
    = Some {| status := STATUS_FAILED; holder := L !! url ≫= holder;
              worker := L !! url ≫= worker;
              claimed_at := L !! url ≫= claimed_at;
              updated_at := Some t1;
              error := Some (slice_to 200 reason) |}.
Proof.
  unfold URLCoordinator.mark_done, URLCoordinator._update_status,
    URLCoordinator.mark_failed, coordination_server.done,
    coordination_server.failed.
  split_and!.
  - rewrite lookup_insert_eq, insert_insert_eq. by destruct (L !! url).
  - rewrite lookup_insert_eq, insert_insert_eq. by destruct (L !! url).
  - destruct (is_empty url); [done|].
    rewrite lookup_insert_eq, insert_insert_eq. by destruct (L !! url).
  - simpl. destruct (is_empty url); [done|].
    rewrite lookup_insert_eq, insert_insert_eq. by destruct (L !! url).
  - by rewrite !lookup_insert_eq.
  - by rewrite !lookup_insert_eq.
  - by rewrite lookup_insert_eq.
  - by rewrite lookup_insert_eq.
Qed.

(** C10 (as amended).  [mark_failed] stores in the [error] field the
    error string cut to its first 200 characters: a prefix of the input,
    of [min 200 (len error)] characters, the input itself when it has at
    most 200 characters.  The [/failed] handler stores the same for every
    url but the empty one, which it rejects: the ledger then keeps what it
    had. *)
Theorem mark_failed_truncates (L : ledger) url err wid now :
  (URLCoordinator.mark_failed now url err L !! url) ≫= error
  = Some (slice_to 200 err)
  ∧ (coordination_server.failed now url err wid L !! url) ≫= error
    = (if is_empty url then (L !! url) ≫= error
       else Some (slice_to 200 err))
  ∧ len (slice_to 200 err) = (200 `min` len err)%nat
  ∧ (∃ rest, err = slice_to 200 err +:+ rest)
  ∧ ((len err ≤ 200)%nat → slice_to 200 err = err).
Proof.
  split_and!.
  - unfold URLCoordinator.mark_failed. by rewrite lookup_insert_eq.
  - unfold coordination_server.failed. destruct (is_empty url); [done|].
    by rewrite lookup_insert_eq.
  - apply slice_to_length.
  - apply slice_to_prefix.
  - apply slice_to_short.
Qed.
End Scenarios.

Lemma stale_reclaim_scenario_witness :
  (URLCoordinator.claim 1800 1800 "A" "y"
     (URLCoordinator.claim 1800 10 "A" "y"
        (URLCoordinator.claim 1800 0 "A" "x" ∅).2).2).1 = true.
Proof.
  pose proof (stale_reclaim_scenario 1800 0 10 1800 "w"
                ltac:(lia) ltac:(lia)) as [H _].
  destruct (URLCoordinator.claim 1800 0 "A" "x" ∅) as [g0 L0]; simpl.
  destruct (URLCoordinator.claim 1800 10 "A" "y" L0) as [g1 L1]; simpl.
  destruct (URLCoordinator.claim 1800 1800 "A" "y" L1) as [g2 L2]; simpl.
  tauto.
Defined.

Lemma reclaim_preserves_claimed_at_witness :
  (URLCoordinator.claim 1800 2000 "A" "y" held_A).2 !! "A"
  = Some {| status := STATUS_HELD; holder := Some "y"; worker := None;
            claimed_at := Some 5%Z; updated_at := Some 2000%Z;
            error := None |}
  ∧ (coordination_server.claim 1800 2000 "A" "y" "w2" held_A).2 !! "A"
    = Some {| status := STATUS_HELD; holder := Some "y"; worker := Some "w2";
              claimed_at := Some 5%Z; updated_at := Some 2000%Z;
              error := None |}.
Proof.
  destruct (reclaim_preserves_claimed_at 1800 2000 "A" "y" "w2" held_A
              {| status := STATUS_HELD; holder := Some "x"; worker := Some "w1";
                 claimed_at := Some 5%Z; updated_at := Some 7%Z;
                 error := None |}
              5 7 ltac:(reflexivity) ltac:(reflexivity)
              ltac:(reflexivity) ltac:(reflexivity)) as [Hf Hs].
  split.
  - destruct (Hf ltac:(reflexivity)) as [-> _]. apply lookup_insert_eq.
  - destruct (Hs ltac:(reflexivity)) as [-> _]. apply lookup_insert_eq.
Defined.

(** ** The HTTP client when the server cannot be reached *)

Section Client.
Import HTTPCoordinator.
Variable network : nat → reply.
Variable _worker_id : string.

Lemma attempts_unreachable ev default s :
  unreachable network →
  attempts network ev (seq 0 2) default s
  = (default, {| sent := sent s + 2;
                 trace := trace s ++ [ev; Sleep _RETRY_BACKOFF; ev] |}).
Proof.
  intros Hdown. simpl. unfold request, sleep. simpl.
  replace (sent s + 2) with (S (S (sent s))) by lia.
  rewrite <-!app_assoc. simpl.
  destruct (Hdown (sent s)) as [-> | ->],
           (Hdown (S (sent s))) as [-> | ->]; reflexivity.
Qed.

(** C6.  When every request fails with a connection error or a timeout,
    [claim] and [is_available] each send their request, sleep the backoff
    of 2 seconds, send the request once more and then return their
    default without raising: [False] (denied) for [claim], [True]
    (available) for [is_available]. *)
Theorem http_safe_defaults url holder s :
  unreachable network →
  claim network _worker_id url holder s
  = (inr false,
     {| sent := sent s + 2;
        trace := trace s
          ++ [POST "/claim" (JObj [("url", JStr url); ("holder", JStr holder);
                                   ("worker", JStr _worker_id)]);
              Sleep 2;
              POST "/claim" (JObj [("url", JStr url); ("holder", JStr holder);
                                   ("worker", JStr _worker_id)])] |})
  ∧ is_available network url s
    = (inr true,
       {| sent := sent s + 2;
          trace := trace s
            ++ [GET "/available" (JObj [("url", JStr url)]);
                Sleep 2;
                GET "/available" (JObj [("url", JStr url)])] |}).
Proof.
  intros Hdown. unfold claim, is_available, _post, _get.
  by rewrite !attempts_unreachable.
Qed.
End Client.

Lemma http_safe_defaults_witness :
  (HTTPCoordinator.claim (λ _, HTTPCoordinator.ConnectionError) "host" "A"
     "top_down"
     {| HTTPCoordinator.sent := 0; HTTPCoordinator.trace := [] |}).1
  = inr false
  ∧ (HTTPCoordinator.is_available (λ _, HTTPCoordinator.Timeout) "A"
       {| HTTPCoordinator.sent := 0; HTTPCoordinator.trace := [] |}).1
    = inr true.
Proof.
  split.
  - rewrite (proj1 (http_safe_defaults (λ _, HTTPCoordinator.ConnectionError)
                      "host" "A" "top_down" _ (λ _, or_introl eq_refl))).
    reflexivity.
  - rewrite (proj2 (http_safe_defaults (λ _, HTTPCoordinator.Timeout)
                      "host" "A" "top_down" _ (λ _, or_intror eq_refl))).
    reflexivity.
Defined.

(** * More properties of the coordinators *)

(** ** Availability against claiming *)

Section MoreClaiming.
Local Open Scope Z_scope.
Variable stale_timeout : Z.

Lemma file_available_spec now url (L : ledger) :
  URLCoordinator.is_available stale_timeout now url L = true
  ↔ spec_grantable stale_timeout now (L !! url).
Proof.
  unfold URLCoordinator.is_available, spec_grantable.
  destruct (L !! url) as [e|]; [|done].
  destruct (status e); simpl; try case_bool_decide;
    intuition (try congruence; try lia).
Qed.

Lemma server_available_spec now url (L : ledger) :
  coordination_server.available stale_timeout now url L = true
  ↔ url ≠ "" ∧ spec_grantable stale_timeout now (L !! url).
Proof.
  unfold coordination_server.available, coordination_server._is_stale,
    spec_grantable, is_empty.
  case_bool_decide as Hurl; [intuition congruence|].
  destruct (L !! url) as [e|]; [|done].
  destruct (status e) eqn:E; simpl; repeat case_bool_decide;
    intuition (try congruence; try lia).
Qed.

(** X1.  [is_available] answers true exactly when the key has no entry, or
    its entry is FAILED, or its entry is HELD and stale; [/available]
    answers the same on every key but the empty one, for which it answers
    false.  Whenever a claim would be granted the key is reported
    available; a key reported available whose claim is denied is a FAILED
    one. *)
Theorem available_iff now url h wid (L : ledger) :
  (URLCoordinator.is_available stale_timeout now url L = true
   ↔ spec_grantable stale_timeout now (L !! url))
  ∧ (coordination_server.available stale_timeout now url L = true
     ↔ url ≠ "" ∧ spec_grantable stale_timeout now (L !! url))
  ∧ ((URLCoordinator.claim stale_timeout now url h L).1 = true →
     URLCoordinator.is_available stale_timeout now url L = true)
  ∧ ((coordination_server.claim stale_timeout now url h wid L).1 = true →
     coordination_server.available stale_timeout now url L = true)
  ∧ (URLCoordinator.is_available stale_timeout now url L = true →
     (URLCoordinator.claim stale_timeout now url h L).1 = false →
     ∃ e, L !! url = Some e ∧ status e = STATUS_FAILED)
  ∧ (coordination_server.available stale_timeout now url L = true →
     (coordination_server.claim stale_timeout now url h wid L).1 = false →
     ∃ e, L !! url = Some e ∧ status e = STATUS_FAILED).
Proof.
  pose proof (file_available_spec now url L) as Hfa.
  pose proof (server_available_spec now url L) as Hsa.
  pose proof (file_claim_granted stale_timeout now url h L) as Hfc.
  pose proof (server_claim_granted stale_timeout now url h wid L) as Hsc.
  assert (Hgs : grantable stale_timeout now (L !! url) →
                spec_grantable stale_timeout now (L !! url)).
  { unfold grantable, spec_grantable. destruct (L !! url); tauto. }
  assert (Hsg : spec_grantable stale_timeout now (L !! url) →
                ¬ grantable stale_timeout now (L !! url) →
                ∃ e, L !! url = Some e ∧ status e = STATUS_FAILED).
  { unfold grantable, spec_grantable.
    destruct (L !! url) as [e|]; [|tauto].
    intros [Hf|Hh] Hn; [by exists e|tauto]. }
  split_and!; try done.
  - intros Hg. apply Hfa, Hgs, Hfc, Hg.
  - intros Hg. apply Hsc in Hg as [? ?]. apply Hsa. auto.
  - intros Ha Hd. apply Hsg; [by apply Hfa|].
    intros Hg. apply Hfc in Hg. congruence.
  - intros Ha Hd. apply Hsa in Ha as [Hne Ha]. apply Hsg; [done|].
    intros Hg. assert (Hg' := proj2 Hsc (conj Hne Hg)). congruence.
Qed.

(** ** Schedules: two grants of a key are a timeout apart *)

Lemma file_claim_like now h :
  claim_like stale_timeout now now
    (λ k, URLCoordinator.claim stale_timeout now k h).
Proof.
  intros k L0. simpl. rewrite file_claim_unfold.
  destruct (coordination_server.claimable _ _ _) eqn:Hc; [right|by left].
  split; [done|]. by eexists.
Qed.

Lemma unguarded_claim_like now locked h wid :
  claim_like stale_timeout locked now
    (claim_unguarded stale_timeout now locked h wid).
Proof.
  intros k L0. unfold claim_unguarded.
  destruct (coordination_server.claimable _ _ _) eqn:Hc; [right|by left].
  split; [done|]. by eexists.
Qed.

Lemma server_claim_like now h wid :
  claim_like stale_timeout now now
    (λ k, coordination_server.claim stale_timeout now k h wid).
Proof.
  intros k L0. simpl. rewrite server_claim_unfold.
  destruct (is_empty k); [by left|]. apply unguarded_claim_like.
Qed.

Lemma spaced_after_nil pre : spaced_after stale_timeout pre [].
Proof. intros [|??] ??? [=]. Qed.

Lemma spaced_after_app pre new1 new2 :
  spaced_after stale_timeout pre new1 →
  spaced_after stale_timeout (pre ++ new1) new2 →
  spaced_after stale_timeout pre (new1 ++ new2).
Proof.
  intros H1 H2 l1 t' k l2 Heq t Hin.
  apply app_eq_inv in Heq as [(m & -> & Hm)|(m & -> & ->)].
  - destruct m as [|[t0 k0] m]; simpl in Hm.
    + rewrite app_nil_r in *. eapply (H2 [] t' k l2); [by rewrite Hm|].
      by rewrite app_nil_r.
    + simplify_eq. by eapply (H1 l1).
  - eapply (H2 m t' k l2); [done|]. by rewrite <-app_assoc.
Qed.

Lemma spaced_nil_after log :
  spaced_after stale_timeout [] log ↔ spaced stale_timeout log.
Proof.
  unfold spaced_after, spaced. split.
  - intros H l1 t k l2 t' l3 ->.
    eapply (H (l1 ++ (t, k) :: l2)); [by rewrite <-app_assoc|].
    simpl. apply elem_of_app. right. by left.
  - intros H l1 t' k l2 -> t Hin. simpl in Hin.
    apply list_elem_of_split in Hin as (m1 & m2 & ->).
    eapply (H m1 t k m2 t' l2). by rewrite <-app_assoc.
Qed.

Lemma backed_mono tnow tnow' L pre :
  tnow ≤ tnow' → backed tnow L pre → backed tnow' L pre.
Proof.
  intros Hle Hb t k Hin. destruct (Hb t k Hin) as [? ?]. split; [lia|done].
Qed.

Lemma backed_mark tnow (L : ledger) pre url e :
  status e ≠ STATUS_HELD → backed tnow L pre → backed tnow (<[url := e]> L) pre.
Proof.
  intros He Hb t k Hin. destruct (Hb t k Hin) as [Ht (e0 & Hk & Hu)].
  split; [done|]. destruct (decide (k = url)) as [->|Hne].
  - exists e. by rewrite lookup_insert_eq.
  - exists e0. by rewrite lookup_insert_ne.
Qed.

Lemma sequential_claims_backed now claim1 keys tnow (L : ledger) pre :
  claim_like stale_timeout now now claim1 → tnow ≤ now → backed tnow L pre →
  let '(granted, _, L') := sequential_claims claim1 keys L in
  spaced_after stale_timeout pre ((λ k, (now, k)) <$> granted)
  ∧ backed now L' (pre ++ ((λ k, (now, k)) <$> granted)).
Proof.
  intros Hlike. revert tnow L pre.
  induction keys as [|k keys IH]; intros tnow L pre Hle Hb; simpl.
  - split; [apply spaced_after_nil|]. rewrite app_nil_r.
    by eapply backed_mono.
  - destruct (Hlike k L) as [-> | (Hc & e & -> & Hs & Hu)].
    + specialize (IH tnow L pre Hle Hb).
      by destruct (sequential_claims claim1 keys L) as [[g d] L2].
    + assert (Hnew : spaced_after stale_timeout pre [(now, k)]).
      { intros l1 t' k' l2 Heq t Hin.
        destruct l1 as [|? [|? ?]]; [|done..].
        injection Heq as Ht' Hk' _. subst t' k'.
        rewrite app_nil_r in Hin. destruct (Hb t k Hin) as [Ht (e0 & Hk & Hh)].
        rewrite Hk in Hc. apply claimable_spec in Hc as [Hheld Hage].
        destruct (Hh Hheld) as (u & Hu0 & Htu). rewrite Hu0 in Hage.
        simpl in Hage. lia. }
      assert (Hb' : backed now (<[k := e]> L) (pre ++ [(now, k)])).
      { intros t k' [Hin| [= -> ->]%list_elem_of_singleton]%elem_of_app.
        - destruct (Hb t k' Hin) as [Ht (e0 & Hk & Hh)]. split; [lia|].
          destruct (decide (k' = k)) as [->|Hne].
          + exists e. rewrite lookup_insert_eq. split; [done|].
            intros _. exists now. split; [done|lia].
          + exists e0. by rewrite lookup_insert_ne.
        - split; [lia|]. exists e. rewrite lookup_insert_eq.
          split; [done|]. intros _. exists now. split; [done|lia]. }
      specialize (IH now (<[k := e]> L) (pre ++ [(now, k)]) (Z.le_refl _) Hb').
      destruct (sequential_claims claim1 keys _) as [[g d] L2].
      destruct IH as [IH1 IH2]. csimpl. split.
      * by apply (spaced_after_app pre [(now, k)]).
      * by rewrite <-app_assoc in IH2.
Qed.

Lemma file_op_ok : op_ok stale_timeout (λ _ _, True) (file_op stale_timeout).
Proof.
  intros now o tnow L pre _ Hle Hb. destruct o as [url h|url|url err].
  - pose proof (sequential_claims_backed now _ [url] tnow L pre
                  (file_claim_like now h) Hle Hb) as H.
    simpl in *. by destruct (URLCoordinator.claim _ _ _ _ _) as [[] L1].
  - simpl. split; [apply spaced_after_nil|]. rewrite app_nil_r.
    apply backed_mark; [done|]. by eapply backed_mono.
  - simpl. split; [apply spaced_after_nil|]. rewrite app_nil_r.
    apply backed_mark; [done|]. by eapply backed_mono.
Qed.

Lemma server_op_ok wid :
  op_ok stale_timeout prompt (server_op stale_timeout wid).
Proof.
  intros now o tnow L pre Hp Hle Hb.
  destruct o as [url h|read urls h|url|url err].
  - pose proof (sequential_claims_backed now _ [url] tnow L pre
                  (server_claim_like now h wid) Hle Hb) as H.
    simpl in *. by destruct (coordination_server.claim _ _ _ _ _ _) as [[] L1].
  - simpl in Hp. subst read.
    pose proof (sequential_claims_backed now _ urls tnow L pre
                  (unguarded_claim_like now now h wid) Hle Hb) as H.
    simpl. rewrite server_batch_unguarded.
    by destruct (sequential_claims _ urls L) as [[g d] L1].
  - simpl. unfold coordination_server.done.
    split; [apply spaced_after_nil|]. rewrite app_nil_r.
    destruct (is_empty url); [by eapply backed_mono|].
    apply backed_mark; [done|]. by eapply backed_mono.
  - simpl. unfold coordination_server.failed.
    split; [apply spaced_after_nil|]. rewrite app_nil_r.
    destruct (is_empty url); [by eapply backed_mono|].
    apply backed_mark; [done|]. by eapply backed_mono.
Qed.

Lemma run_spaced_after {O} (P : Z → O → Prop) apply (sched : list (Z * O))
    tnow (L : ledger) pre :
  op_ok stale_timeout P apply →
  Forall (λ item, P item.1 item.2) sched →
  ascending (tnow :: sched.*1) = true → backed tnow L pre →
  spaced_after stale_timeout pre (run apply sched L).1.
Proof.
  intros Hok. revert tnow L pre.
  induction sched as [|[now o] sched IH]; intros tnow L pre HP Hasc Hb; simpl.
  - apply spaced_after_nil.
  - apply Forall_cons in HP as [Hp HP].
    simpl in Hasc. apply andb_prop in Hasc as [Hle%bool_decide_eq_true Hasc].
    destruct (Hok now o tnow L pre Hp Hle Hb) as [H1 H2].
    destruct (apply now o L) as [granted L1]. simpl in *.
    specialize (IH now L1 _ HP Hasc H2).
    destruct (run apply sched L1) as [log L2]. simpl in *.
    by apply spaced_after_app.
Qed.

Lemma run_spaced {O} (P : Z → O → Prop) apply (sched : list (Z * O))
    (L : ledger) :
  op_ok stale_timeout P apply →
  Forall (λ item, P item.1 item.2) sched →
  ascending sched.*1 = true →
  spaced stale_timeout (run apply sched L).1.
Proof.
  intros Hok HP Hasc. apply spaced_nil_after.
  destruct sched as [|[now o] sched]; [apply spaced_after_nil|].
  apply (run_spaced_after P apply _ now); [done|done| |].
  - simpl in *. by rewrite bool_decide_eq_true_2 by lia.
  - intros t k Hin. by apply elem_of_nil in Hin.
Qed.

(** A [batch_claim] of the file-backed coordinator grants what its claims,
    run as a schedule, are granted, and leaves the ledger they leave. *)
Lemma file_batch_loop_run now i urls h granted denied (L : ledger) :
  (URLCoordinator.batch_claim_loop stale_timeout now i urls h granted denied
     L).1.1
  = granted ++ (run (file_op stale_timeout) (batch_schedule now i urls h) L).1.*2
  ∧ (URLCoordinator.batch_claim_loop stale_timeout now i urls h granted denied
       L).2
    = (run (file_op stale_timeout) (batch_schedule now i urls h) L).2.
Proof.
  revert i granted denied L.
  induction urls as [|url rest IH]; intros i granted denied L; simpl.
  - by rewrite app_nil_r.
  - destruct (URLCoordinator.claim _ _ _ _ _) as [[] L1].
    + destruct (IH (S i) (granted ++ [url]) denied L1) as [-> ->].
      destruct (run _ (batch_schedule now (S i) rest h) L1) as [log L2].
      simpl. by rewrite <-app_assoc.
    + destruct (IH (S i) granted (denied ++ [url]) L1) as [-> ->].
      by destruct (run _ (batch_schedule now (S i) rest h) L1) as [log L2].
Qed.

(** X2.  On the file-backed coordinator, whatever the starting ledger and
    however the claims, [mark_done]s and [mark_failed]s of any number of
    workers follow one another on a clock that does not go back: two
    grants of the same key are at least [stale_timeout] apart.  A
    [batch_claim] is such a sequence of claims, one critical section for
    each url.  On the server the same holds of the requests [/claim],
    [/done], [/failed], and of the [/batch_claim]s that got the lock at the
    instant at which they had read the clock. *)
Theorem grants_spaced wid (sched : list (Z * op))
    (reqs : list (Z * request)) now urls h (L : ledger) :
  (ascending sched.*1 = true →
   spaced stale_timeout (run (file_op stale_timeout) sched L).1)
  ∧ ((URLCoordinator.batch_claim stale_timeout now urls h L).1.1
     = (run (file_op stale_timeout) (batch_schedule now 0 urls h) L).1.*2
     ∧ (URLCoordinator.batch_claim stale_timeout now urls h L).2
       = (run (file_op stale_timeout) (batch_schedule now 0 urls h) L).2)
  ∧ (ascending reqs.*1 = true →
     Forall (λ item, prompt item.1 item.2) reqs →
     spaced stale_timeout (run (server_op stale_timeout wid) reqs L).1).
Proof.
  split; [|split].
  - intros Hasc. apply (run_spaced (λ _ _, True)); [apply file_op_ok| |done].
    by apply Forall_true.
  - apply (file_batch_loop_run now 0 urls h [] [] L).
  - intros Hasc Hp. by apply (run_spaced prompt); [apply server_op_ok|..].
Qed.

(** ** DONE and FAILED are final for the operations of the workers *)

Lemma settled_insert_ne (L : ledger) k k' e e' :
  k' ≠ k → settled L k e → settled (<[k' := e']> L) k e.
Proof.
  intros Hne (e0 & ? & ?). exists e0. by rewrite lookup_insert_ne.
Qed.

Lemma settled_not_claimable now (L : ledger) k e :
  settled L k e →
  coordination_server.claimable stale_timeout now (L !! k) = false.
Proof.
  intros (e' & -> & Hs & _).
  unfold coordination_server.claimable.
  destruct (status e') eqn:E; [done|..];
    by rewrite bool_decide_eq_true_2 by auto.
Qed.

Lemma sequential_claims_settled locked now claim1 keys (L : ledger) k e :
  claim_like stale_timeout locked now claim1 → settled L k e →
  settled (sequential_claims claim1 keys L).2 k e
  ∧ k ∉ (sequential_claims claim1 keys L).1.1.
Proof.
  intros Hlike. revert L.
  induction keys as [|k' keys IH]; intros L Hs; simpl.
  - split; [done|apply not_elem_of_nil].
  - destruct (Hlike k' L) as [-> | (Hc & e' & -> & _)].
    + specialize (IH L Hs).
      by destruct (sequential_claims claim1 keys L) as [[g d] L2].
    + assert (k' ≠ k) as Hne.
      { intros ->. by rewrite (settled_not_claimable locked L k e) in Hc. }
      specialize (IH _ (settled_insert_ne L k k' e e' Hne Hs)).
      destruct (sequential_claims claim1 keys _) as [[g d] L2].
      simpl in *. destruct IH as [IH1 IH2]. split; [done|].
      by apply not_elem_of_cons.
Qed.

Lemma file_op_keeps_settled : keeps_settled (file_op stale_timeout).
Proof.
  intros now o L k e Hs. destruct o as [url h|url|url err]; simpl.
  - pose proof (sequential_claims_settled now now _ [url] L k e
                  (file_claim_like now h) Hs) as H.
    simpl in H. destruct (URLCoordinator.claim _ _ _ _ _) as [[] L1]; tauto.
  - split; [apply not_elem_of_nil|].
    unfold URLCoordinator.mark_done, URLCoordinator._update_status.
    destruct (decide (url = k)) as [->|Hne];
      [|by apply settled_insert_ne].
    destruct Hs as (e0 & Hk & H0 & Hh & Hc). eexists.
    rewrite lookup_insert_eq, Hk. by split_and!.
  - split; [apply not_elem_of_nil|].
    unfold URLCoordinator.mark_failed.
    destruct (decide (url = k)) as [->|Hne];
      [|by apply settled_insert_ne].
    destruct Hs as (e0 & Hk & H0 & Hh & Hc). eexists.
    rewrite lookup_insert_eq, Hk. by split_and!.
Qed.

Lemma server_op_keeps_settled wid : keeps_settled (server_op stale_timeout wid).
Proof.
  intros now o L k e Hs. destruct o as [url h|read urls h|url|url err]; simpl.
  - pose proof (sequential_claims_settled now now _ [url] L k e
                  (server_claim_like now h wid) Hs) as H.
    simpl in H.
    destruct (coordination_server.claim _ _ _ _ _ _) as [[] L1]; tauto.
  - pose proof (sequential_claims_settled now read _ urls L k e
                  (unguarded_claim_like read now h wid) Hs) as H.
    rewrite server_batch_unguarded.
    destruct (sequential_claims _ urls L) as [[g d] L1]; simpl in *; tauto.
  - split; [apply not_elem_of_nil|].
    unfold coordination_server.done. destruct (is_empty url); [done|].
    destruct (decide (url = k)) as [->|Hne];
      [|by apply settled_insert_ne].
    destruct Hs as (e0 & Hk & H0 & Hh & Hc). eexists.
    rewrite lookup_insert_eq, Hk. by split_and!.
  - split; [apply not_elem_of_nil|].
    unfold coordination_server.failed. destruct (is_empty url); [done|].
    destruct (decide (url = k)) as [->|Hne];
      [|by apply settled_insert_ne].
    destruct Hs as (e0 & Hk & H0 & Hh & Hc). eexists.
    rewrite lookup_insert_eq, Hk. by split_and!.
Qed.

Lemma run_keeps_settled {O} apply (sched : list (Z * O)) (L : ledger) k e :
  keeps_settled apply → settled L k e →
  (∀ t, (t, k) ∉ (run apply sched L).1) ∧ settled (run apply sched L).2 k e.
Proof.
  intros Hok. revert L.
  induction sched as [|[now o] sched IH]; intros L Hs; simpl.
  - split; [|done]. intros t. apply not_elem_of_nil.
  - destruct (Hok now o L k e Hs) as [H1 H2].
    destruct (apply now o L) as [granted L1]. simpl in *.
    destruct (IH L1 H2) as [H3 H4].
    destruct (run apply sched L1) as [log L2]. simpl in *.
    split; [|done]. intros t [Hin|Hin]%elem_of_app; [|by eapply H3].
    apply list_elem_of_fmap in Hin as (k0 & [= _ <-] & Hin). done.
Qed.

(** X3.  A key whose entry is DONE or FAILED is never granted again, by
    no claim and no batch claim of any schedule, at any time (no timeout
    frees it); its entry stays DONE or FAILED, whatever marks follow, and
    keeps its [holder] and its [claimed_at].  This holds of the critical
    sections of the file-backed coordinator, of its [batch_claim] whatever
    the instants of its claims, and of the requests of the server, a
    [/batch_claim] having read the clock at any instant. *)
Theorem terminal_entries_absorbing wid (sched : list (Z * op))
    (reqs : list (Z * request)) now urls h (L : ledger) k e :
  L !! k = Some e → status e ≠ STATUS_HELD →
  ((∀ t, (t, k) ∉ (run (file_op stale_timeout) sched L).1)
   ∧ settled (run (file_op stale_timeout) sched L).2 k e)
  ∧ ((k ∉ (URLCoordinator.batch_claim stale_timeout now urls h L).1.1)
     ∧ settled (URLCoordinator.batch_claim stale_timeout now urls h L).2 k e)
  ∧ ((∀ t, (t, k) ∉ (run (server_op stale_timeout wid) reqs L).1)
     ∧ settled (run (server_op stale_timeout wid) reqs L).2 k e).
Proof.
  intros Hk Hs. assert (settled L k e) as Hset by (by exists e).
  pose proof (run_keeps_settled (file_op stale_timeout)) as Hfile.
  split; [|split].
  - by apply Hfile; [apply file_op_keeps_settled|].
  - destruct (file_batch_loop_run now 0 urls h [] [] L) as [Hg HL].
    unfold URLCoordinator.batch_claim. rewrite Hg, HL. simpl.
    destruct (Hfile (batch_schedule now 0 urls h) L k e
                file_op_keeps_settled Hset) as [Hnot Hkeep].
    split; [|done].
    intros ([t k'] & -> & Hin)%list_elem_of_fmap. by apply (Hnot t).
  - by apply run_keeps_settled; [apply server_op_keeps_settled|].
Qed.
End MoreClaiming.

(** A [/batch_claim] that waits for the lock writes the instant it read
    before waiting: the grant it is given at 1900 is followed by a grant
    of the same key 1799 seconds later. *)
Example waiting_batch_regrants_early :
  (run (server_op 1800 "w") waiting_batch ∅).1
  = [(100, "A"); (1900, "A"); (3699, "A")]%Z
  ∧ ¬ spaced 1800 (run (server_op 1800 "w") waiting_batch ∅).1.
Proof.
  split; [reflexivity|]. intros H.
  specialize (H [(100, "A")] 1900 "A" [] 3699 [] eq_refl)%Z. lia.
Qed.

Lemma grants_spaced_witness :
  (run (file_op 1800) two_workers ∅).1
  = [(0, "A"); (1800, "A"); (1801, "B")]%Z
  ∧ spaced 1800 (run (file_op 1800) two_workers ∅).1
  ∧ spaced 1800 (run (server_op 1800 "w") two_requests ∅).1.
Proof.
  split; [reflexivity|].
  destruct (grants_spaced 1800 "w" two_workers two_requests (λ _, 0%Z) [] "y" ∅)
    as (Hf & _ & Hs).
  split; [by apply Hf|]. apply Hs; [done|].
  repeat constructor.
Defined.

Lemma terminal_entries_absorbing_witness :
  (∀ t, (t, "A") ∉ (run (file_op 1800) two_workers failed_A).1)
  ∧ settled (run (file_op 1800) two_workers failed_A).2 "A"
      {| status := STATUS_FAILED; holder := Some "x"; worker := None;
         claimed_at := Some 0%Z; updated_at := Some 50%Z;
         error := Some "boom" |}.
Proof.
  refine (proj1 (terminal_entries_absorbing 1800 "w" two_workers two_requests
                   (λ _, 0%Z) [] "y" failed_A "A" _ _ _)).
  - reflexivity.
  - discriminate.
Defined.

(** ** Counting and grouping the ledger *)

Section Counting.

Lemma with_status_insert s (L : ledger) k e :
  L !! k = None →
  with_status s (<[k := e]> L)
  = if decide (status e = s) then <[k := e]> (with_status s L)
    else with_status s L.
Proof.
  intros Hk. unfold with_status. case_decide as Hs.
  - by rewrite map_filter_insert_True.
  - rewrite map_filter_insert_False by done. by rewrite delete_id.
Qed.

Lemma with_status_size_insert s (L : ledger) k e :
  L !! k = None →
  size (with_status s (<[k := e]> L))
  = if decide (status e = s) then S (size (with_status s L))
    else size (with_status s L).
Proof.
  intros Hk. rewrite with_status_insert by done. case_decide; [|done].
  rewrite map_size_insert_None; [done|].
  unfold with_status. apply map_lookup_filter_None. by left.
Qed.

Lemma count_by_status_size s (L : ledger) :
  URLCoordinator.count_by_status s L = size (with_status s L).
Proof.
  unfold URLCoordinator.count_by_status.
  apply (map_fold_weak_ind (λ n m, n = size (with_status s m))).
  - unfold with_status. by rewrite map_filter_empty, map_size_empty.
  - intros k e m n Hk ->. rewrite with_status_size_insert by done.
    case_bool_decide; by case_decide.
Qed.

Lemma get_summary_size (L : ledger) s :
  URLCoordinator.get_summary L s = size (with_status s L).
Proof.
  unfold URLCoordinator.get_summary. revert s.
  apply (map_fold_weak_ind (λ r m, ∀ s, r s = size (with_status s m))).
  - intros s. unfold with_status. by rewrite map_filter_empty, map_size_empty.
  - intros k e m r Hk IH s. rewrite with_status_size_insert by done.
    unfold set_item. case_bool_decide as Hs; case_decide; congruence.
Qed.

Lemma with_status_total (L : ledger) :
  size (with_status STATUS_HELD L) + size (with_status STATUS_DONE L)
    + size (with_status STATUS_FAILED L) = size L.
Proof.
  induction L as [|k e L Hk IH] using map_ind.
  - unfold with_status. by rewrite !map_filter_empty, !map_size_empty.
  - rewrite !with_status_size_insert, map_size_insert_None by done.
    destruct (status e); repeat case_decide; try congruence; lia.
Qed.

Lemma with_status_length s (L : ledger) :
  size (with_status s L)
  = length (filter (λ item, status item.2 = s) (map_to_list L)).
Proof.
  induction L as [|k e L Hk IH] using map_ind.
  - unfold with_status. by rewrite map_filter_empty, map_to_list_empty.
  - rewrite with_status_size_insert, map_to_list_insert by done.
    rewrite filter_cons. simpl. case_decide; simpl; by rewrite IH.
Qed.

(** X4.  [get_summary] gives for each status what [count_by_status]
    gives, the three counts add up to the number of tracked urls, and
    [count_by_status] is the number of entries of the ledger with that
    status; [/summary] and [/count] give the same. *)
Theorem summary_counts (L : ledger) :
  (∀ s, URLCoordinator.get_summary L s = URLCoordinator.count_by_status s L)
  ∧ (∀ s, coordination_server.summary L s = coordination_server.count s L)
  ∧ URLCoordinator.count_by_status STATUS_HELD L
      + URLCoordinator.count_by_status STATUS_DONE L
      + URLCoordinator.count_by_status STATUS_FAILED L = size L
  ∧ coordination_server.summary L STATUS_HELD
      + coordination_server.summary L STATUS_DONE
      + coordination_server.summary L STATUS_FAILED = size L
  ∧ (∀ s, URLCoordinator.count_by_status s L
          = length (filter (λ item, status item.2 = s) (map_to_list L))).
Proof.
  assert (H1 : ∀ s, URLCoordinator.get_summary L s
                    = URLCoordinator.count_by_status s L).
  { intros s. by rewrite get_summary_size, count_by_status_size. }
  split_and!.
  - exact H1.
  - exact H1.
  - rewrite !count_by_status_size. apply with_status_total.
  - change (URLCoordinator.get_summary L STATUS_HELD
            + URLCoordinator.get_summary L STATUS_DONE
            + URLCoordinator.get_summary L STATUS_FAILED = size L).
    rewrite !get_summary_size. apply with_status_total.
  - intros s. by rewrite count_by_status_size, with_status_length.
Qed.
End Counting.

Section Blacklist.
Local Open Scope Z_scope.

Lemma foldl_delete_lookup (urls : list string) (L : ledger) k :
  foldl (λ _data url, delete url _data) L urls !! k
  = if decide (k ∈ urls) then None else L !! k.
Proof.
  revert L. induction urls as [|u urls IH]; intros L.
  - simpl. destruct (decide (k ∈ [])) as [Hin|_]; [|done].
    by apply elem_of_nil in Hin.
  - simpl. rewrite IH.
    destruct (decide (k ∈ urls)) as [Hin|Hin];
      destruct (decide (k ∈ u :: urls)) as [Hin'|Hin']; try done.
    + exfalso. apply Hin'. by right.
    + apply elem_of_cons in Hin' as [->|?]; [|done].
      apply lookup_delete_eq.
    + apply lookup_delete_ne. intros ->. apply Hin'. by left.
Qed.

Lemma failed_urls_elem (L : ledger) k :
  k ∈ (filter (λ item, status item.2 = STATUS_FAILED) (map_to_list L)).*1
  ↔ ∃ e, L !! k = Some e ∧ status e = STATUS_FAILED.
Proof.
  rewrite list_elem_of_fmap. split.
  - intros ([k' e] & -> & [Hs Hin%elem_of_map_to_list]%list_elem_of_filter).
    by exists e.
  - intros (e & Hk & Hs). exists (k, e). split; [done|].
    apply list_elem_of_filter. split; [done|]. by apply elem_of_map_to_list.
Qed.

Lemma reset_blacklist_lookup (L : ledger) k :
  (coordination_server.reset_blacklist L).2 !! k
  = match L !! k with
    | Some e => if decide (status e = STATUS_FAILED) then None else Some e
    | None => None
    end.
Proof.
  unfold coordination_server.reset_blacklist. simpl.
  rewrite foldl_delete_lookup.
  case_decide as Hin.
  - apply failed_urls_elem in Hin as (e & -> & Hs). by rewrite decide_True.
  - destruct (L !! k) as [e|] eqn:Hk; [|done].
    case_decide as Hs; [|done]. exfalso. apply Hin, failed_urls_elem. eauto.
Qed.

Lemma reset_blacklist_ledger (L : ledger) :
  (coordination_server.reset_blacklist L).2
  = filter (λ item, status item.2 ≠ STATUS_FAILED) L.
Proof.
  apply map_eq. intros k. rewrite reset_blacklist_lookup.
  destruct (L !! k) as [e|] eqn:Hk.
  - case_decide as Hs.
    + symmetry. apply map_lookup_filter_None. right. intros e' He'. simpl.
      rewrite Hk in He'. injection He' as <-. auto.
    + symmetry. by apply map_lookup_filter_Some.
  - symmetry. apply map_lookup_filter_None. by left.
Qed.

Lemma with_status_ext s (L1 L2 : ledger) :
  (∀ k e, status e = s → L1 !! k = Some e ↔ L2 !! k = Some e) →
  with_status s L1 = with_status s L2.
Proof.
  intros H. apply map_eq. intros k. apply option_eq. intros e.
  unfold with_status. rewrite !map_lookup_filter_Some. simpl.
  split; intros [Hk Hs]; (split; [|done]); by apply (H k e Hs).
Qed.

(** X5.  [/reset_blacklist] removes the FAILED entries and nothing else:
    every other entry is left as it was, the number it reports is the
    number of FAILED entries ([/count] of FAILED before), no FAILED entry
    remains, the numbers of HELD and of DONE entries are unchanged, and a
    second reset clears nothing.  A key that was FAILED, whose claim was
    denied before the reset, is granted after it, as a first claim
    ([claimed_at] is the time of that claim). *)
Theorem reset_blacklist_clears stale_timeout now url h wid (L : ledger) :
  let '(cleared, L') := coordination_server.reset_blacklist L in
  (∀ k, L' !! k
        = match L !! k with
          | Some e => if decide (status e = STATUS_FAILED) then None else Some e
          | None => None
          end)
  ∧ cleared = coordination_server.count STATUS_FAILED L
  ∧ coordination_server.count STATUS_FAILED L' = 0%nat
  ∧ coordination_server.count STATUS_HELD L'
    = coordination_server.count STATUS_HELD L
  ∧ coordination_server.count STATUS_DONE L'
    = coordination_server.count STATUS_DONE L
  ∧ coordination_server.reset_blacklist L' = (0%nat, L')
  ∧ (∀ e, L !! url = Some e → status e = STATUS_FAILED → url ≠ "" →
          (coordination_server.claim stale_timeout now url h wid L).1
          = false
          ∧ coordination_server.claim stale_timeout now url h wid L'
            = (true,
               <[url := {| status := STATUS_HELD; holder := Some h;
                           worker := Some wid; claimed_at := Some now;
                           updated_at := Some now; error := None |}]> L')).
Proof.
  pose proof (reset_blacklist_lookup L) as Hlook.
  assert (Hcleared : (coordination_server.reset_blacklist L).1
                     = coordination_server.count STATUS_FAILED L).
  { unfold coordination_server.reset_blacklist. simpl.
    rewrite length_fmap.
    change (coordination_server.count STATUS_FAILED L)
      with (URLCoordinator.count_by_status STATUS_FAILED L).
    by rewrite count_by_status_size, with_status_length. }
  destruct (coordination_server.reset_blacklist L) as [cleared L'] eqn:HR.
  simpl in *.
  assert (Hnone : coordination_server.count STATUS_FAILED L' = 0%nat).
  { change (URLCoordinator.count_by_status STATUS_FAILED L' = 0%nat).
    rewrite count_by_status_size. apply map_size_empty_iff.
    apply map_eq. intros k. rewrite lookup_empty.
    apply map_lookup_filter_None. right. intros e He. simpl.
    rewrite Hlook in He. destruct (L !! k) as [e0|]; [|done].
    case_decide; [done|]. by injection He as <-. }
  assert (Hkeep : ∀ s, s ≠ STATUS_FAILED →
            coordination_server.count s L' = coordination_server.count s L).
  { intros s Hs.
    change (URLCoordinator.count_by_status s L'
            = URLCoordinator.count_by_status s L).
    rewrite !count_by_status_size. f_equal. apply with_status_ext.
    intros k e He. rewrite Hlook. destruct (L !! k) as [e0|]; [|done].
    case_decide as Hf; [|done]. split; [done|]. intros [= ->]. congruence. }
  split_and!; try done.
  - auto.
  - auto.
  - unfold coordination_server.reset_blacklist.
    change (coordination_server.count STATUS_FAILED L')
      with (URLCoordinator.count_by_status STATUS_FAILED L') in Hnone.
    rewrite count_by_status_size, with_status_length in Hnone.
    apply nil_length_inv in Hnone. by rewrite Hnone.
  - intros e Hk Hs Hne. split.
    + destruct (coordination_server.claim stale_timeout now url h wid L).1
        eqn:Hg; [|done].
      apply server_claim_granted in Hg as [_ Hg]. rewrite Hk in Hg.
      destruct Hg as [? _]. congruence.
    + rewrite server_claim_unfold. unfold is_empty, claim_unguarded.
      rewrite bool_decide_eq_false_2 by done.
      rewrite Hlook, Hk, decide_True by done. done.
Qed.
End Blacklist.

Section Snapshot.
Local Open Scope Z_scope.

Lemma get_snapshot_lookup (L : ledger) s url :
  URLCoordinator.get_snapshot L s !! url
  = L !! url ≫= λ e, if bool_decide (status e = s)
                     then Some (default "" (holder e), "") else None.
Proof.
  unfold URLCoordinator.get_snapshot. revert s url.
  apply (map_fold_weak_ind (λ r m, ∀ s url,
    r s !! url = m !! url ≫= λ e, if bool_decide (status e = s)
                                  then Some (default "" (holder e), "")
                                  else None)).
  - intros s url. by rewrite !lookup_empty.
  - intros k e m r Hk IH s url. unfold set_item.
    destruct (decide (url = k)) as [->|Hne].
    + rewrite lookup_insert_eq. simpl.
      case_bool_decide as H1; case_bool_decide as H2; try congruence.
      * by rewrite lookup_insert_eq.
      * by rewrite IH, Hk.
    + rewrite (lookup_insert_ne m) by done.
      case_bool_decide; [subst s; rewrite lookup_insert_ne by done|];
        apply IH.
Qed.

Lemma snapshot_lookup (L : ledger) s url :
  coordination_server.snapshot L s !! url
  = L !! url ≫= λ e, if bool_decide (status e = s)
                     then Some (default "" (holder e), default "" (worker e))
                     else None.
Proof.
  unfold coordination_server.snapshot. revert s url.
  apply (map_fold_weak_ind (λ r m, ∀ s url,
    r s !! url = m !! url ≫= λ e, if bool_decide (status e = s)
                                  then Some (default "" (holder e),
                                             default "" (worker e))
                                  else None)).
  - intros s url. by rewrite !lookup_empty.
  - intros k e m r Hk IH s url. unfold set_item.
    destruct (decide (url = k)) as [->|Hne].
    + rewrite lookup_insert_eq. simpl.
      case_bool_decide as H1; case_bool_decide as H2; try congruence.
      * by rewrite lookup_insert_eq.
      * by rewrite IH, Hk.
    + rewrite (lookup_insert_ne m) by done.
      case_bool_decide; [subst s; rewrite lookup_insert_ne by done|];
        apply IH.
Qed.

Lemma get_snapshot_dom (L : ledger) s url :
  url ∈ dom (URLCoordinator.get_snapshot L s)
  ↔ ∃ e, L !! url = Some e ∧ status e = s.
Proof.
  rewrite elem_of_dom, get_snapshot_lookup.
  destruct (L !! url) as [e|]; simpl.
  - case_bool_decide as Hs; split.
    + intros _. by exists e.
    + intros _. by eexists.
    + by intros [? [=]].
    + intros (e' & [= <-] & ?). done.
  - split; [by intros [? [=]]|by intros (? & [=] & _)].
Qed.

Lemma snapshot_dom (L : ledger) s url :
  url ∈ dom (coordination_server.snapshot L s)
  ↔ ∃ e, L !! url = Some e ∧ status e = s.
Proof.
  rewrite elem_of_dom, snapshot_lookup.
  destruct (L !! url) as [e|]; simpl.
  - case_bool_decide as Hs; split.
    + intros _. by exists e.
    + intros _. by eexists.
    + by intros [? [=]].
    + intros (e' & [= <-] & ?). done.
  - split; [by intros [? [=]]|by intros (? & [=] & _)].
Qed.

(** X6.  A url is in the group of a status in [get_snapshot] (resp.
    [/snapshot]) exactly when its entry has that status, with the holder
    (and, on the server, the worker) of the entry, the empty string
    standing for a missing one; the size of a group is the count of its
    status.  A url in the done or the failed group is denied by [claim]
    at any time, and a url in no group is granted (on the server unless
    it is empty). *)
Theorem snapshot_groups stale_timeout now h wid (L : ledger) s url :
  (URLCoordinator.get_snapshot L s !! url
   = L !! url ≫= λ e, if bool_decide (status e = s)
                      then Some (default "" (holder e), "") else None)
  ∧ (coordination_server.snapshot L s !! url
     = L !! url ≫= λ e, if bool_decide (status e = s)
                        then Some (default "" (holder e),
                                   default "" (worker e))
                        else None)
  ∧ size (URLCoordinator.get_snapshot L s)
    = URLCoordinator.count_by_status s L
  ∧ size (coordination_server.snapshot L s) = coordination_server.count s L
  ∧ (url ∈ dom (coordination_server.snapshot L STATUS_DONE)
     ∨ url ∈ dom (coordination_server.snapshot L STATUS_FAILED) →
     (URLCoordinator.claim stale_timeout now url h L).1 = false
     ∧ (coordination_server.claim stale_timeout now url h wid L).1
       = false)
  ∧ ((∀ s', url ∉ dom (coordination_server.snapshot L s')) →
     (URLCoordinator.claim stale_timeout now url h L).1 = true
     ∧ (coordination_server.claim stale_timeout now url h wid L).1
       = negb (is_empty url)).
Proof.
  assert (Hsize : ∀ (G : gmap string (string * string)),
            dom G = dom (with_status s L) →
            size G = URLCoordinator.count_by_status s L).
  { intros G HG. rewrite count_by_status_size.
    by rewrite <-!size_dom, HG. }
  assert (Hdom : ∀ u, u ∈ dom (with_status s L)
                      ↔ ∃ e, L !! u = Some e ∧ status e = s).
  { intros u. rewrite elem_of_dom. unfold with_status. split.
    - intros [e [? ?]%map_lookup_filter_Some]. by exists e.
    - intros (e & ? & ?). exists e. by apply map_lookup_filter_Some. }
  split_and!.
  - apply get_snapshot_lookup.
  - apply snapshot_lookup.
  - apply Hsize. apply set_eq. intros u.
    by rewrite Hdom, get_snapshot_dom.
  - apply Hsize. apply set_eq. intros u.
    by rewrite Hdom, snapshot_dom.
  - intros Hin.
    assert (∃ e, L !! url = Some e ∧ status e ≠ STATUS_HELD)
      as (e & Hk & Hs).
    { destruct Hin as [(e & ? & ?)%snapshot_dom|(e & ? & ?)%snapshot_dom];
        exists e; split; congruence. }
    split.
    + destruct (URLCoordinator.claim _ _ _ _ _).1 eqn:Hg; [|done].
      apply file_claim_granted in Hg. rewrite Hk in Hg.
      by destruct Hg.
    + destruct (coordination_server.claim _ _ _ _ _ _).1 eqn:Hg; [|done].
      apply server_claim_granted in Hg as [_ Hg]. rewrite Hk in Hg.
      by destruct Hg.
  - intros Hout.
    assert (L !! url = None) as Hk.
    { destruct (L !! url) as [e|] eqn:Hk; [|done].
      exfalso. apply (Hout (status e)), snapshot_dom. eauto. }
    split.
    + apply file_claim_granted. by rewrite Hk.
    + rewrite server_claim_unfold. unfold claim_unguarded.
      rewrite Hk. by destruct (is_empty url).
Qed.
End Snapshot.

(** ** Collected urls against the ledger *)

Section Collecting.
Import dataset_mover.
Local Open Scope Z_scope.

Lemma collect_loop_take base_job_url count ids _done _held blacklist acc :
  (length acc < Z.to_nat (count `max` 1))%nat →
  collect_loop base_job_url count ids _done _held blacklist acc
  = take (Z.to_nat (count `max` 1))
      (acc ++ filter (usable _done _held blacklist)
                (String.append base_job_url <$> ids)).
Proof.
  revert acc. induction ids as [|job_id ids IH]; intros acc Hacc; simpl.
  - rewrite app_nil_r, take_ge; [done|lia].
  - rewrite filter_cons.
    destruct (decide (usable _done _held blacklist (base_job_url +:+ job_id)))
      as [(H1 & H2 & H3)|Hno].
    + rewrite (bool_decide_eq_false_2 _ H1), (bool_decide_eq_false_2 _ H2),
        (bool_decide_eq_false_2 _ H3).
      rewrite (cons_middle _ acc (filter _ _)), app_assoc.
      case_bool_decide as Hfull.
      * rewrite take_app_length'; [done|].
        rewrite length_app in *. simpl in *. lia.
      * apply IH. rewrite length_app in *. simpl in *. lia.
    + repeat case_bool_decide; try (by apply IH); exfalso; by apply Hno.
Qed.

Lemma append_inj_r base (a b : string) : base +:+ a = base +:+ b → a = b.
Proof.
  induction base as [|c base IH]; simpl; [done|]. intros [= H]. by apply IH.
Qed.

Lemma network_collect_urls_take base_job_url count captured_ids order
    blacklist coord_held coord_done :
  _network_collect_urls base_job_url count captured_ids order blacklist
    coord_held coord_done
  = if bool_decide (captured_ids = ∅) then None
    else Some (take (Z.to_nat (count `max` 1))
                 (filter (usable coord_done coord_held blacklist)
                    (String.append base_job_url <$> order))).
Proof.
  unfold _network_collect_urls. case_bool_decide; [done|].
  rewrite collect_loop_take; [done|]. simpl. lia.
Qed.

Lemma network_collect_urls_sound base_job_url count captured_ids order
    blacklist coord_held coord_done :
  order ≡ₚ elements captured_ids →
  match _network_collect_urls base_job_url count captured_ids order blacklist
          coord_held coord_done with
  | None => captured_ids = ∅
  | Some urls =>
      captured_ids ≠ ∅
      ∧ NoDup urls
      ∧ (∀ u, u ∈ urls →
              usable coord_done coord_held blacklist u
              ∧ ∃ job_id, job_id ∈ captured_ids ∧ u = base_job_url +:+ job_id)
      ∧ Z.of_nat (length urls)
        = (count `max` 1)
            `min` Z.of_nat
                    (length (filter (usable coord_done coord_held blacklist)
                               (String.append base_job_url
                                  <$> elements captured_ids)))
  end.
Proof.
  intros Hperm. rewrite network_collect_urls_take.
  case_bool_decide as Hempty; [done|]. split; [done|].
  assert (Inj (=) (=) (String.append base_job_url)) as Hinj.
  { intros a b. apply append_inj_r. }
  assert (Hnd : NoDup order).
  { rewrite Hperm. apply NoDup_elements. }
  split_and!.
  - eapply sublist_NoDup; [|apply sublist_take].
    apply NoDup_filter. by apply (NoDup_fmap_2 (String.append base_job_url)).
  - intros u Hu. eapply elem_of_sublist in Hu; [|apply sublist_take].
    apply list_elem_of_filter in Hu as [Hus Hin]. split; [done|].
    apply list_elem_of_fmap in Hin as (job_id & -> & Hin).
    exists job_id. split; [|done]. apply elem_of_elements. by rewrite <-Hperm.
  - rewrite length_take, <-Hperm. lia.
Qed.

(** X7.  From the captured ids on, [_network_collect_urls] returns
    nothing exactly when no id was captured.  Otherwise, in whatever order
    the set of captured ids is iterated, it returns distinct urls, each
    built from a captured id and neither done, nor held, nor blacklisted,
    and as many of them as there are, up to [max(count, 1)]: a [count]
    below 1 still yields one url.  Which of the candidates are returned,
    and in which order, depends on the iteration order alone. *)
Theorem network_collect_urls_filters base_job_url count captured_ids order
    blacklist coord_held coord_done :
  order ≡ₚ elements captured_ids →
  match _network_collect_urls base_job_url count captured_ids order blacklist
          coord_held coord_done with
  | None => captured_ids = ∅
  | Some urls =>
      captured_ids ≠ ∅
      ∧ NoDup urls
      ∧ (∀ u, u ∈ urls →
              usable coord_done coord_held blacklist u
              ∧ ∃ job_id, job_id ∈ captured_ids ∧ u = base_job_url +:+ job_id)
      ∧ Z.of_nat (length urls)
        = (count `max` 1)
            `min` Z.of_nat
                    (length (filter (usable coord_done coord_held blacklist)
                               (String.append base_job_url
                                  <$> elements captured_ids)))
  end.
Proof. apply network_collect_urls_sound. Qed.

Lemma sequential_claims_untracked stale_timeout now entry_for claim1 keys
    (L L0 : ledger) :
  claims_with stale_timeout now entry_for claim1 →
  NoDup keys →
  Forall (λ k, L0 !! k = L !! k
               ∧ ∀ e, L !! k = Some e → status e ≠ STATUS_HELD) keys →
  (sequential_claims claim1 keys L0).1
  = (filter (λ k, L !! k = None) keys, filter (λ k, is_Some (L !! k)) keys).
Proof.
  intros Hclaim. revert L0.
  induction keys as [|k keys IH]; intros L0 Hnd Hall; simpl; [done|].
  apply NoDup_cons in Hnd as [Hk Hnd].
  apply Forall_cons in Hall as [[Hk0 Hterm] Hall].
  rewrite Hclaim, Hk0, !filter_cons.
  destruct (L !! k) as [e|] eqn:HLk.
  - assert (coordination_server.claimable stale_timeout now (Some e) = false)
      as ->.
    { specialize (Hterm e eq_refl). unfold coordination_server.claimable.
      destruct (status e); [done|..]; by rewrite bool_decide_eq_true_2 by auto. }
    specialize (IH L0 Hnd Hall).
    destruct (sequential_claims claim1 keys L0) as [[g d] L2].
    simpl in *. by injection IH as -> ->.
  - simpl.
    assert (Hall' : Forall (λ k0, <[k := entry_for k L0]> L0 !! k0 = L !! k0
                     ∧ ∀ e, L !! k0 = Some e → status e ≠ STATUS_HELD) keys).
    { apply Forall_forall. intros k0 Hin.
      rewrite Forall_forall in Hall. destruct (Hall k0 Hin) as [? ?].
      split; [|done]. rewrite lookup_insert_ne; [done|]. by intros ->. }
    specialize (IH _ Hnd Hall').
    destruct (sequential_claims claim1 keys _) as [[g d] L2].
    simpl in *. by injection IH as -> ->.
Qed.

Lemma file_claims_with stale_timeout now h :
  claims_with stale_timeout now
    (λ k L, {| status := STATUS_HELD; holder := Some h; worker := None;
               claimed_at := Some (match L !! k with
                                   | Some e => default now (claimed_at e)
                                   | None => now
                                   end);
               updated_at := Some now; error := None |})
    (λ k, URLCoordinator.claim stale_timeout now k h).
Proof. intros k L. apply file_claim_unfold. Qed.

Lemma unguarded_claims_with stale_timeout now locked h wid :
  claims_with stale_timeout locked
    (λ k L, coordination_server.held_entry now h wid (L !! k))
    (claim_unguarded stale_timeout now locked h wid).
Proof. by intros k L. Qed.

Lemma file_batch_loop_untracked stale_timeout now i urls h granted denied
    (L L0 : ledger) :
  NoDup urls →
  Forall (λ k, L0 !! k = L !! k
               ∧ ∀ e, L !! k = Some e → status e ≠ STATUS_HELD) urls →
  (URLCoordinator.batch_claim_loop stale_timeout now i urls h granted denied
     L0).1
  = (granted ++ filter (λ k, L !! k = None) urls,
     denied ++ filter (λ k, is_Some (L !! k)) urls).
Proof.
  revert i granted denied L0.
  induction urls as [|k urls IH]; intros i granted denied L0 Hnd Hall; simpl.
  - by rewrite !app_nil_r.
  - apply NoDup_cons in Hnd as [Hk Hnd].
    apply Forall_cons in Hall as [[Hk0 Hterm] Hall].
    rewrite file_claim_unfold, Hk0, !filter_cons.
    destruct (L !! k) as [e|] eqn:HLk.
    + assert (coordination_server.claimable stale_timeout (now i) (Some e)
              = false) as ->.
      { specialize (Hterm e eq_refl). unfold coordination_server.claimable.
        destruct (status e); [done|..];
          by rewrite bool_decide_eq_true_2 by auto. }
      rewrite (IH (S i) granted (denied ++ [k]) L0 Hnd Hall).
      simpl. by rewrite <-app_assoc.
    + simpl. rewrite IH; [| done |].
      * simpl. by rewrite <-app_assoc.
      * apply Forall_forall. intros k0 Hin.
        rewrite Forall_forall in Hall. destruct (Hall k0 Hin) as [? ?].
        split; [|done]. rewrite lookup_insert_ne; [done|]. by intros ->.
Qed.

(** X8.  With the held and done sets taken from a snapshot of the ledger
    (and no change of the ledger in between), every collected url has no
    entry or a FAILED one: the failed group is not filtered.  A batch
    claim of the collected urls grants exactly those without entry and
    denies exactly the FAILED ones, on both coordinators and whatever the
    instants of the batch are. *)
Theorem collected_urls_claimed stale_timeout clock now locked h wid
    base_job_url count captured_ids order blacklist (L : ledger) urls :
  order ≡ₚ elements captured_ids →
  _network_collect_urls base_job_url count captured_ids order blacklist
    (dom (URLCoordinator.get_snapshot L STATUS_HELD))
    (dom (URLCoordinator.get_snapshot L STATUS_DONE)) = Some urls →
  Forall (λ u, L !! u = None
               ∨ ∃ e, L !! u = Some e ∧ status e = STATUS_FAILED) urls
  ∧ (URLCoordinator.batch_claim stale_timeout clock urls h L).1
    = (filter (λ u, L !! u = None) urls, filter (λ u, is_Some (L !! u)) urls)
  ∧ (coordination_server.batch_claim stale_timeout now locked urls h wid L).1
    = (filter (λ u, L !! u = None) urls, filter (λ u, is_Some (L !! u)) urls).
Proof.
  intros Hperm Hurls.
  pose proof (network_collect_urls_sound base_job_url count captured_ids
                order blacklist
                (dom (URLCoordinator.get_snapshot L STATUS_HELD))
                (dom (URLCoordinator.get_snapshot L STATUS_DONE)) Hperm)
    as Hspec.
  rewrite Hurls in Hspec. destruct Hspec as (_ & Hnd & Hus' & _).
  assert (Hus : Forall (usable (dom (URLCoordinator.get_snapshot L STATUS_DONE))
                          (dom (URLCoordinator.get_snapshot L STATUS_HELD))
                          blacklist) urls).
  { apply Forall_forall. intros u Hu. by destruct (Hus' u Hu). }
  assert (Hterm : Forall (λ u, L !! u = L !! u
                    ∧ ∀ e, L !! u = Some e → status e ≠ STATUS_HELD) urls).
  { eapply Forall_impl; [exact Hus|]. intros u (Hd & Hh & _).
    split; [done|]. intros e Hk Hs. apply Hh, get_snapshot_dom. eauto. }
  split_and!.
  - eapply Forall_impl; [exact Hus|]. intros u (Hd & Hh & _).
    destruct (L !! u) as [e|] eqn:Hk; [right|by left].
    exists e. split; [done|].
    destruct (status e) eqn:Hs; [| |done].
    + exfalso. apply Hh, get_snapshot_dom. eauto.
    + exfalso. apply Hd, get_snapshot_dom. eauto.
  - unfold URLCoordinator.batch_claim.
    by rewrite (file_batch_loop_untracked _ _ _ _ _ _ _ L).
  - rewrite server_batch_unguarded.
    by eapply sequential_claims_untracked; [apply unguarded_claims_with|..].
Qed.
End Collecting.

(** ** What a batch claim leaves *)

Section ClaimedKeys.
Local Open Scope Z_scope.
Variable stale_timeout : Z.
Hypothesis positive : 0 < stale_timeout.
Variable now : Z.

Lemma sequential_claims_partition claim1 keys (L : ledger) :
  (sequential_claims claim1 keys L).1.1
    ++ (sequential_claims claim1 keys L).1.2 ≡ₚ keys.
Proof.
  revert L. induction keys as [|k keys IH]; intros L; simpl; [done|].
  destruct (claim1 k L) as [ok L1]. specialize (IH L1).
  destruct (sequential_claims claim1 keys L1) as [[g d] L2].
  destruct ok; simpl in *.
  - by rewrite IH.
  - by rewrite <-Permutation_middle, IH.
Qed.

Lemma sequential_claims_keeps_fresh claim1 keys (L : ledger) k :
  claim_like stale_timeout now now claim1 → fresh now L k →
  fresh now (sequential_claims claim1 keys L).2 k.
Proof.
  intros Hlike. revert L.
  induction keys as [|k' keys IH]; intros L Hf; simpl; [done|].
  destruct (Hlike k' L) as [-> | (Hc & e & -> & Hs & Hu)].
  - specialize (IH L Hf).
    by destruct (sequential_claims claim1 keys L) as [[g d] L2].
  - assert (k' ≠ k) as Hne.
    { intros ->. by rewrite (fresh_not_claimable stale_timeout positive now)
        in Hc. }
    assert (fresh now (<[k' := e]> L) k) as Hf'.
    { destruct Hf as (e0 & ? & ? & ?). exists e0.
      by rewrite lookup_insert_ne. }
    specialize (IH _ Hf').
    by destruct (sequential_claims claim1 keys _) as [[g d] L2].
Qed.

Lemma sequential_claims_granted_fresh claim1 keys (L : ledger) k :
  claim_like stale_timeout now now claim1 →
  k ∈ (sequential_claims claim1 keys L).1.1 →
  fresh now (sequential_claims claim1 keys L).2 k.
Proof.
  intros Hlike. revert L.
  induction keys as [|k' keys IH]; intros L; simpl.
  - by intros ?%elem_of_nil.
  - destruct (Hlike k' L) as [HL | (Hc & e & HL & Hs & Hu)].
    + rewrite HL. specialize (IH L).
      by destruct (sequential_claims claim1 keys L) as [[g d] L2].
    + rewrite HL.
      pose proof (sequential_claims_keeps_fresh claim1 keys (<[k' := e]> L) k'
                    Hlike) as Hkeep.
      specialize (IH (<[k' := e]> L)).
      destruct (sequential_claims claim1 keys _) as [[g d] L2].
      simpl in *. intros [->|Hin]%elem_of_cons; [|by apply IH].
      apply Hkeep. exists e. by rewrite lookup_insert_eq.
Qed.
End ClaimedKeys.

(** ** The HTTP client, whatever the network does *)

Section MoreClient.
Import HTTPCoordinator.
Variable network : nat → reply.
Variable _worker_id : string.

Lemma attempts_twice ev dflt s :
  attempts network ev (seq 0 2) dflt s
  = if transient (network (sent s)) then
      (body_or dflt (network (S (sent s))),
       {| sent := sent s + 2;
          trace := trace s ++ [ev; Sleep _RETRY_BACKOFF; ev] |})
    else
      (body_or dflt (network (sent s)),
       {| sent := sent s + 1; trace := trace s ++ [ev] |}).
Proof.
  simpl. unfold request, sleep. simpl.
  replace (sent s + 2) with (S (S (sent s))) by lia.
  replace (sent s + 1) with (S (sent s)) by lia.
  rewrite <-!app_assoc. simpl.
  destruct (network (sent s)); simpl; try done;
    by destruct (network (S (sent s))).
Qed.

(** X9.  [_post] and [_get] send one request, or two with one sleep of
    the backoff in between: the second is sent exactly when the first
    fails with a connection error or a timeout; any other failure (an HTTP
    error status for one) gives the default at once, and the loop never
    falls through.  [claim] then answers by the body it got: false for a
    falsy body, the truth of its [ok] field for a dictionary, and it raises
    [AttributeError] for any other truthy body. *)
Theorem retry_policy path body dflt url h s :
  _post network path body dflt s
  = (if transient (network (sent s)) then
       (body_or dflt (network (S (sent s))),
        {| sent := sent s + 2;
           trace := trace s ++ [POST path body; Sleep 2; POST path body] |})
     else
       (body_or dflt (network (sent s)),
        {| sent := sent s + 1; trace := trace s ++ [POST path body] |}))
  ∧ _get network path body dflt s
    = (if transient (network (sent s)) then
         (body_or dflt (network (S (sent s))),
          {| sent := sent s + 2;
             trace := trace s ++ [GET path body; Sleep 2; GET path body] |})
       else
         (body_or dflt (network (sent s)),
          {| sent := sent s + 1; trace := trace s ++ [GET path body] |}))
  ∧ (let resp :=
       body_or (JObj [("ok", JBool false)])
         (network (if transient (network (sent s)) then S (sent s)
                   else sent s)) in
     (claim network _worker_id url h s).1
     = if truthy resp
       then if is_object resp
            then bool_of (get resp "ok" JNone)
            else inl AttributeError
       else inr false).
Proof.
  unfold claim, _post, _get. rewrite !attempts_twice. split_and!; try done.
  destruct (transient (network (sent s))); simpl;
    match goal with
    | |- context [body_or ?d ?r] => generalize (body_or d r)
    end; intros resp; unfold py_and;
    (destruct (truthy resp) eqn:Ht; [by destruct resp|simpl; by rewrite Ht]).
Qed.

Lemma claim_unreachable url h s :
  unreachable network →
  claim network _worker_id url h s
  = (inr false,
     {| sent := sent s + 2;
        trace := trace s
          ++ [POST "/claim" (JObj [("url", JStr url); ("holder", JStr h);
                                   ("worker", JStr _worker_id)]);
              Sleep 2;
              POST "/claim" (JObj [("url", JStr url); ("holder", JStr h);
                                   ("worker", JStr _worker_id)])] |}).
Proof.
  intros Hdown. unfold claim, _post. by rewrite attempts_unreachable.
Qed.

Lemma claim_each_unreachable urls h granted denied s :
  unreachable network →
  claim_each network _worker_id urls h granted denied s
  = (inr (granted, denied ++ urls),
     {| sent := sent s + 2 * length urls;
        trace := trace s
          ++ (urls ≫= λ url,
                [POST "/claim" (JObj [("url", JStr url); ("holder", JStr h);
                                      ("worker", JStr _worker_id)]);
                 Sleep 2;
                 POST "/claim" (JObj [("url", JStr url); ("holder", JStr h);
                                      ("worker", JStr _worker_id)])]) |}).
Proof.
  intros Hdown. revert granted denied s.
  induction urls as [|url urls IH]; intros granted denied s.
  - simpl. rewrite !app_nil_r. destruct s as [n tr]. simpl.
    do 2 f_equal. lia.
  - cbn [claim_each]. rewrite claim_unreachable by done.
    rewrite IH. simpl. rewrite <-!app_assoc. simpl.
    f_equal. f_equal. lia.
Qed.

(** X10.  When every request fails with a connection error or a
    timeout, [batch_claim] falls back to one [claim] per url and denies
    them all, after two requests for the batch and two per url (none for
    an empty list); [get_status] gives [None], [count_by_status] 0,
    [get_summary] the empty dictionary, [get_snapshot] three empty
    groups, and [mark_done] and [mark_failed] return after two
    requests. *)
Theorem unreachable_server_degrades urls h url err target s :
  unreachable network →
  batch_claim network _worker_id urls h s
  = (inr (JList [], JList (JStr <$> urls)),
     match urls with
     | [] => s
     | _ =>
         {| sent := sent s + 2 + 2 * length urls;
            trace := trace s
              ++ [POST "/batch_claim"
                    (JObj [("urls", JList (JStr <$> urls));
                           ("holder", JStr h); ("worker", JStr _worker_id)]);
                  Sleep 2;
                  POST "/batch_claim"
                    (JObj [("urls", JList (JStr <$> urls));
                           ("holder", JStr h); ("worker", JStr _worker_id)])]
              ++ (urls ≫= λ url,
                    [POST "/claim"
                       (JObj [("url", JStr url); ("holder", JStr h);
                              ("worker", JStr _worker_id)]);
                     Sleep 2;
                     POST "/claim"
                       (JObj [("url", JStr url); ("holder", JStr h);
                              ("worker", JStr _worker_id)])]) |}
     end)
  ∧ (get_status network url s).1 = inr JNone
  ∧ (count_by_status network target s).1 = inr (JNum 0)
  ∧ (get_summary network s).1 = JObj []
  ∧ (get_snapshot network s).1
    = JObj [("held", JObj []); ("done", JObj []); ("failed", JObj [])]
  ∧ sent (mark_done network _worker_id url s) = sent s + 2
  ∧ sent (mark_failed network _worker_id url err s) = sent s + 2.
Proof.
  intros Hdown.
  unfold batch_claim, get_status, count_by_status, get_summary, get_snapshot,
    mark_done, mark_failed, _post, _get.
  rewrite !attempts_unreachable by done. split_and!; try done.
  destruct urls as [|u urls]; [done|].
  rewrite claim_each_unreachable by done. simpl.
  by rewrite <-!app_assoc.
Qed.

(** X11.  When the response of the server's handler reaches the client,
    [claim] returns the decision of [/claim] (false for the empty url,
    which the server refuses with the code 400) after a single request,
    and [batch_claim] returns the two lists of [/batch_claim];
    [is_available] returns the answer of [/available] for every url but
    the empty one, for which it returns true while the server says
    false. *)
Theorem client_server_round_trip stale_timeout now locked url h urls s
    (L : ledger) :
  (network (sent s)
   = deliver (app.claim stale_timeout now url h _worker_id L).1 →
   claim network _worker_id url h s
   = (inr (coordination_server.claim stale_timeout now url h _worker_id L).1,
      {| sent := sent s + 1;
         trace := trace s
           ++ [POST "/claim" (JObj [("url", JStr url); ("holder", JStr h);
                                    ("worker", JStr _worker_id)])] |}))
  ∧ (network (sent s) = deliver (app.available stale_timeout now url L) →
     (is_available network url s).1
     = inr (if is_empty url then true
            else coordination_server.available stale_timeout now url L))
  ∧ (urls ≠ [] →
     network (sent s)
     = deliver
         (app.batch_claim stale_timeout now locked urls h _worker_id L).1 →
     (batch_claim network _worker_id urls h s).1
     = let '(granted, denied, _) :=
         coordination_server.batch_claim stale_timeout now locked urls h
           _worker_id L
       in inr (JList (JStr <$> granted), JList (JStr <$> denied))).
Proof.
  split_and!.
  - intros Hnet. unfold claim, _post. rewrite attempts_twice, Hnet.
    unfold app.claim, deliver, app.missing_url.
    rewrite server_claim_unfold.
    destruct (is_empty url); simpl; [done|].
    by destruct (claim_unguarded _ _ _ _ _ _ _) as [[] L1].
  - intros Hnet. unfold is_available, _get. rewrite attempts_twice, Hnet.
    unfold app.available, deliver, app.missing_url.
    destruct (is_empty url); simpl; [done|].
    by destruct (coordination_server.available _ _ _ _).
  - intros Hne Hnet. unfold batch_claim, _post.
    destruct urls as [|u urls]; [done|].
    rewrite attempts_twice, Hnet. unfold app.batch_claim, deliver.
    by destruct (coordination_server.batch_claim _ _ _ _ _ _ _) as [[g d] L'].
Qed.
End MoreClient.

Lemma collected_urls_claimed_witness :
  (URLCoordinator.batch_claim 1800 (λ i, 100 + Z.of_nat i)%Z
     ["job/2"; "job/3"] "top_down" board_ledger).1
  = (["job/3"], ["job/2"]).
Proof.
  destruct (collected_urls_claimed 1800 (λ i, 100 + Z.of_nat i)%Z 100 101
              "top_down" "w" "job/" 5 {[ "1"; "2"; "3" ]} ["2"; "3"; "1"] ∅
              board_ledger ["job/2"; "job/3"])
    as (_ & H & _).
  - apply (bool_decide_unpack _). vm_compute. exact I.
  - vm_compute. reflexivity.
  - rewrite H. vm_compute. reflexivity.
Defined.

Lemma network_collect_urls_filters_witness :
  ["2"; "3"; "1"] ≡ₚ elements ({[ "1"; "2"; "3" ]} : gset string)
  ∧ match dataset_mover._network_collect_urls "job/" 2 {[ "1"; "2"; "3" ]}
            ["2"; "3"; "1"] {[ "job/3" ]} ∅ ∅ with
    | None => False
    | Some urls => NoDup urls ∧ length urls = 2%nat
    end.
Proof.
  assert (Hperm : ["2"; "3"; "1"] ≡ₚ elements ({[ "1"; "2"; "3" ]} : gset string)).
  { apply (bool_decide_unpack _). vm_compute. exact I. }
  split; [exact Hperm|].
  pose proof (network_collect_urls_filters "job/" 2 {[ "1"; "2"; "3" ]}
                ["2"; "3"; "1"] {[ "job/3" ]} ∅ ∅ Hperm) as H.
  destruct (dataset_mover._network_collect_urls "job/" 2 {[ "1"; "2"; "3" ]}
              ["2"; "3"; "1"] {[ "job/3" ]} ∅ ∅) as [urls|] eqn:Hurls.
  - destruct H as (_ & Hnd & _ & Hlen). split; [exact Hnd|].
    vm_compute in Hurls. injection Hurls as <-. reflexivity.
  - vm_compute in Hurls. discriminate Hurls.
Defined.

Lemma unreachable_server_degrades_witness :
  (HTTPCoordinator.batch_claim (λ _, HTTPCoordinator.ConnectionError) "host"
     ["A"; "B"] "top_down"
     {| HTTPCoordinator.sent := 0; HTTPCoordinator.trace := [] |}).1
  = inr (HTTPCoordinator.JList [],
         HTTPCoordinator.JList
           [HTTPCoordinator.JStr "A"; HTTPCoordinator.JStr "B"]).
Proof.
  rewrite (proj1 (unreachable_server_degrades
                    (λ _, HTTPCoordinator.ConnectionError) "host"
                    ["A"; "B"] "top_down" "A" "boom" "done" _
                    (λ _, or_introl eq_refl))).
  reflexivity.
Defined.

(** * Properties of the pipeline orchestrator *)

Import dataset_mover TabState Accounting.

(** ** Keys held by slots *)

Lemma held_keys_app ss1 ss2 :
  held_keys (ss1 ++ ss2) = held_keys ss1 ++ held_keys ss2.
Proof.
  induction ss1 as [|s ss1 IH]; simpl; [done|].
  destruct (accounted s); simpl; by rewrite IH.
Qed.

Lemma held_keys_cons s ss : held_keys (s :: ss) = held_keys [s] ++ held_keys ss.
Proof. simpl. by destruct (accounted s). Qed.

Lemma held_keys_lookup ss i s :
  ss !! i = Some s →
  held_keys ss
  = held_keys (take i ss) ++ held_keys [s] ++ held_keys (drop (S i) ss).
Proof.
  intros Hi. rewrite <-(take_drop_middle ss i s) at 1 by done.
  by rewrite held_keys_app, held_keys_cons.
Qed.

Lemma held_keys_insert ss i s s' :
  ss !! i = Some s →
  held_keys (<[i := s']> ss)
  = held_keys (take i ss) ++ held_keys [s'] ++ held_keys (drop (S i) ss).
Proof.
  intros Hi. rewrite insert_take_drop by (by eapply lookup_lt_Some).
  by rewrite held_keys_app, held_keys_cons.
Qed.

Lemma held_keys_init (keys : list string) : held_keys (__init__ <$> keys) = keys.
Proof. induction keys as [|k keys IH]; csimpl; [done|]. by rewrite IH. Qed.

Lemma NoDup_submseteq_inv (l k : list string) : l ⊆+ k → NoDup k → NoDup l.
Proof.
  intros [k' Hk]%submseteq_Permutation Hnd. rewrite Hk in Hnd.
  by apply NoDup_app in Hnd as [? _].
Qed.

Lemma rotate_submseteq (next : string) rest k :
  rest ++ [next] ⊆+ (next :: rest) ++ k.
Proof.
  apply submseteq_inserts_r, Permutation_submseteq.
  by rewrite Permutation_app_comm.
Qed.

(** ** The invariant is kept by every step *)

(** A change of the queue and of one slot keeps the pipeline consistent when
    it keeps the balance, creates no key, and blacklists only the key of the
    slot, which is then neither queued nor held. *)
Lemma consistent_update n st st' i slot slot' :
  slots st !! i = Some slot →
  slots st' = <[i := slot']> (slots st) →
  moved st' + length (permanently_failed st')
    + length (queue st' ++ held_keys [slot'])
  = moved st + length (permanently_failed st)
    + length (queue st ++ held_keys [slot]) →
  queue st' ++ held_keys [slot'] ⊆+ queue st ++ held_keys [slot] →
  (∀ u, u ∈ blacklisted_urls st' →
        u ∈ blacklisted_urls st
        ∨ (u ∈ held_keys [slot] ∧ u ∉ queue st' ++ held_keys [slot'])) →
  consistent n st → consistent n st'.
Proof.
  intros Hi Hslots Hbal Hsub Hbl [Hn Hnd Hq].
  unfold outstanding in *.
  rewrite (held_keys_lookup _ _ _ Hi) in Hn, Hnd, Hq.
  set (K1 := held_keys (take i (slots st))) in *.
  set (K2 := held_keys (drop (S i) (slots st))) in *.
  assert (Hperm : ∀ Q k, Q ++ K1 ++ k ++ K2 ≡ₚ (Q ++ k) ++ K1 ++ K2).
  { intros Q k. rewrite <-!app_assoc. f_equiv. rewrite !app_assoc. f_equiv.
    apply Permutation_app_comm. }
  assert (Hsub' : queue st' ++ K1 ++ held_keys [slot'] ++ K2
                  ⊆+ queue st ++ K1 ++ held_keys [slot] ++ K2).
  { rewrite !Hperm. by apply submseteq_skips_r. }
  split; unfold outstanding; rewrite Hslots, (held_keys_insert _ _ _ _ Hi);
    fold K1 K2.
  - rewrite !length_app in *. lia.
  - by eapply NoDup_submseteq_inv.
  - intros u Hu Hin. destruct (Hbl u Hu) as [Hold|[Hk Hnew]].
    + eapply Hq; [done|]. by eapply elem_of_submseteq.
    + rewrite Hperm in Hnd. apply NoDup_app in Hnd as (_ & Hdisj & _).
      rewrite Hperm in Hin. apply elem_of_app in Hin as [Hin|Hin]; [done|].
      eapply (Hdisj u); [|done]. apply elem_of_app. by right.
Qed.

Section Orchestrator.
Variable enabled : bool.

(** A tick keeps the key of the slot, and whether it is accounted for. *)
Lemma tick_held_keys env slot :
  held_keys [(_tick_slot_fast enabled env (count_tick slot)).1.1]
  = held_keys [slot].
Proof.
  unfold _tick_slot_fast, tick_pending, tick_navigating, tick_detail_wait,
    tick_scanning, tick_null_clicked, tick_converting, tick_ready,
    tick_add_clicked, tick_confirming, tick_verifying.
  destruct slot as [u s m r c h k]; simpl.
  destruct s; simpl; repeat case_match; done.
Qed.

Lemma recycle_consistent n st i slot :
  slots st !! i = Some slot → consistent n st →
  consistent n (set_slot i (recycle slot st).1 (recycle slot st).2).
Proof.
  intros Hi Hc. pose proof Hc as [Hn Hnd Hq].
  unfold outstanding in Hn, Hnd, Hq.
  rewrite (held_keys_lookup _ _ _ Hi) in Hn, Hnd, Hq.
  unfold recycle.
  destruct (status slot) eqn:Hs;
    try (eapply consistent_update; [exact Hi|reflexivity|..|exact Hc];
         simpl; unfold accounted; rewrite ?Hs; simpl;
         [lia|done|by left]).
  - (* DONE: counted *)
    eapply consistent_update; [exact Hi|reflexivity|..|exact Hc];
      simpl; unfold accounted; rewrite Hs; simpl.
    + rewrite !length_app. simpl. lia.
    + apply submseteq_inserts_r. by rewrite app_nil_r.
    + by left.
  - (* ERROR: blacklisted, queued again, or given up *)
    repeat case_bool_decide;
      (eapply consistent_update; [exact Hi|reflexivity|..|exact Hc];
       simpl; unfold accounted; rewrite Hs; simpl).
    + rewrite !length_app. simpl. lia.
    + apply submseteq_inserts_r. by rewrite app_nil_r.
    + intros u [Hu| ->%elem_of_singleton]%elem_of_union; [by left|right].
      split; [apply list_elem_of_singleton; done|].
      rewrite app_nil_r. intros Hin.
      apply NoDup_app in Hnd as (_ & Hdisj & _).
      apply (Hdisj _ Hin). rewrite !elem_of_app.
      right; left. simpl. unfold accounted. rewrite Hs.
      by apply list_elem_of_singleton.
    + rewrite !length_app. simpl. lia.
    + by rewrite app_nil_r.
    + by left.
    + rewrite !length_app. simpl. lia.
    + apply submseteq_inserts_r. by rewrite app_nil_r.
    + by left.
Qed.

Lemma assign_next_consistent n st i slot :
  slots st !! i = Some slot → consistent n st →
  consistent n (set_slot i (assign_next slot st).1 (assign_next slot st).2).
Proof.
  intros Hi Hc. pose proof Hc as [Hn Hnd Hq].
  unfold outstanding in Hn, Hnd, Hq.
  unfold assign_next.
  destruct (status slot) eqn:Hs;
    try (eapply consistent_update; [exact Hi|reflexivity|..|exact Hc];
         simpl; [lia|done|by left]);
    (destruct (queue st) as [|next rest] eqn:HQ;
     [ eapply consistent_update; [exact Hi|reflexivity|..|exact Hc];
       simpl; [lia|done|by left]
     | case_bool_decide as Hbl;
       [ exfalso; apply (Hq next Hbl); rewrite elem_of_app; left; left
       | eapply consistent_update; [exact Hi|reflexivity|..|exact Hc];
         simpl; unfold accounted; rewrite ?HQ, ?Hs; simpl;
         [ rewrite !length_app; simpl; lia
         | apply rotate_submseteq
         | by left ] ] ]).
Qed.

Lemma assign_next_set_slot i x slot st :
  assign_next slot (set_slot i x st)
  = ((assign_next slot st).1, set_slot i x (assign_next slot st).2).
Proof.
  unfold assign_next.
  destruct (status slot); try done;
    (destruct (queue st) as [|next rest] eqn:HQ; simpl; rewrite HQ; [done|];
     by case_bool_decide).
Qed.

Lemma set_slot_twice i x y st :
  set_slot i y (set_slot i x st) = set_slot i y st.
Proof. unfold set_slot. simpl. by rewrite list_insert_insert_eq. Qed.

Lemma recycle_slots slot st : slots (recycle slot st).2 = slots st.
Proof. unfold recycle. by repeat case_match. Qed.

Lemma visit_consistent env n i st :
  consistent n st → consistent n (visit enabled env i st).
Proof.
  intros Hc. unfold visit.
  destruct (slots st !! i) as [slot|] eqn:Hi; [|done].
  assert (Hrecycle :
    consistent n (let '(slot1, st1) := recycle slot st in
                  let '(slot2, st2) := assign_next slot1 st1 in
                  set_slot i slot2 st2)).
  { pose proof (recycle_consistent n st i slot Hi Hc) as H1.
    pose proof (recycle_slots slot st) as Hsl.
    destruct (recycle slot st) as [slot1 st1]. simpl in *.
    assert (Hi1 : slots (set_slot i slot1 st1) !! i = Some slot1).
    { simpl. rewrite Hsl. apply list_lookup_insert_eq.
      by eapply lookup_lt_Some. }
    pose proof (assign_next_consistent n _ i slot1 Hi1 H1) as H2.
    rewrite assign_next_set_slot in H2. simpl in H2.
    rewrite set_slot_twice in H2.
    by destruct (assign_next slot1 st1). }
  assert (Htick :
    consistent n
      (let '(slot', calls, exc) :=
         _tick_slot_fast enabled env (count_tick slot) in
       {| moved := moved st;
          permanently_failed := permanently_failed st;
          retry_tracker := retry_tracker st;
          blacklisted_urls := blacklisted_urls st; queue := queue st;
          slots := <[i := slot']> (slots st);
          round_num := round_num st;
          coordinator_calls := coordinator_calls st ++ calls;
          raised := exc |})).
  { pose proof (tick_held_keys env slot) as Hk.
    destruct (_tick_slot_fast enabled env (count_tick slot))
      as [[slot' calls] exc].
    simpl in Hk.
    eapply consistent_update; [exact Hi|reflexivity|..|exact Hc]; simpl.
    - by rewrite Hk.
    - by rewrite Hk.
    - by left. }
  by destruct (status slot).
Qed.

Lemma visit_blacklisted env i st u :
  u ∈ blacklisted_urls st → u ∈ blacklisted_urls (visit enabled env i st).
Proof.
  intros Hu. unfold visit, recycle, assign_next.
  repeat (case_match; simplify_eq; simpl; try done); set_solver.
Qed.

(** ** Runs *)

Lemma step_consistent n st st' :
  step enabled st st' → consistent n st → consistent n st'.
Proof.
  intros [env i st0|st0]; [apply visit_consistent|by intros []].
Qed.

Lemma steps_consistent n st st' :
  rtc (step enabled) st st' → consistent n st → consistent n st'.
Proof. induction 1; eauto using step_consistent. Qed.

Lemma steps_blacklisted st st' u :
  rtc (step enabled) st st' →
  u ∈ blacklisted_urls st → u ∈ blacklisted_urls st'.
Proof.
  induction 1 as [|st1 st2 st3 [env i st0|st0] _ IH]; [done|..]; intros Hu.
  - by apply IH, visit_blacklisted.
  - by apply IH.
Qed.

Variable world : nat → nat → tick_env.

Lemma visits_steps k st : rtc (step enabled) st (visits enabled world k st).
Proof.
  unfold visits. generalize 0 as a. revert st.
  induction k as [|k IH]; intros st a; simpl; [done|].
  destruct (raised st); [apply IH|].
  eapply rtc_l; [apply step_visit|]. apply IH.
Qed.

Lemma round_steps st : rtc (step enabled) st (round enabled world st).
Proof.
  unfold round. eapply rtc_l; [apply step_next_round|].
  apply (visits_steps _ (next_round st)).
Qed.

Lemma rounds_steps r st : rtc (step enabled) st (rounds enabled world r st).
Proof.
  revert st. induction r as [|r IH]; intros st; simpl; [done|].
  destruct (raised st); [done|]. destruct (finished st); [done|].
  etrans; [apply round_steps|apply IH].
Qed.

Lemma loop_steps fuel st st' :
  loop enabled world fuel st = Some st' →
  rtc (step enabled) st st'
  ∧ (raised st' = None → finished st' = true).
Proof.
  revert st. induction fuel as [|fuel IH]; intros st; simpl;
    destruct (raised st) eqn:Hr; try (intros [= <-]; by rewrite Hr);
    destruct (finished st) eqn:Hf; intros Hl; simplify_eq; try done.
  apply IH in Hl as [Hsteps Hfin]. split; [|done].
  etrans; [apply round_steps|done].
Qed.

(** What [_run_pipeline] returns is the final accounting of a state in
    which the loop has broken. *)
Lemma run_pipeline_returns granted num_slots fuel m pf stf :
  _run_pipeline enabled world granted num_slots fuel = Some (inr (m, pf, stf)) →
  granted = [] ∧ m = 0 ∧ pf = [] ∧ stf = start [] num_slots
  ∨ ∃ st, loop enabled world fuel (start granted num_slots) = Some st
          ∧ raised st = None ∧ finished st = true
          ∧ stf = final_accounting st
          ∧ m = moved stf ∧ pf = permanently_failed stf.
Proof.
  unfold _run_pipeline. destruct granted as [|g0 granted'].
  - intros [= <- <- <-]. by left.
  - destruct (loop _ _ _ _) as [st|] eqn:Hloop; [|done]. simpl.
    destruct (raised st) eqn:Hr; [done|].
    intros [= <- <- <-]. right. exists st.
    pose proof (loop_steps _ _ _ Hloop) as [_ Hfin]. by split_and!; auto.
Qed.

Lemma start_consistent granted num_slots :
  NoDup granted → consistent (length granted) (start granted num_slots).
Proof.
  intros Hnd.
  assert (Hperm : outstanding (start granted num_slots) ≡ₚ granted).
  { unfold outstanding, start. simpl. rewrite held_keys_init.
    by rewrite Permutation_app_comm, take_drop. }
  split.
  - simpl. by rewrite Hperm.
  - by rewrite Hperm.
  - intros u Hu. simpl in Hu. set_solver.
Qed.

(** Every point of a run: [k] slots visited in the round that follows [r]
    completed rounds. *)
Lemma point_consistent granted num_slots r k :
  NoDup granted →
  consistent (length granted)
    (visits enabled world k
       (next_round (rounds enabled world r (start granted num_slots)))).
Proof.
  intros Hnd. eapply steps_consistent; [|by apply start_consistent].
  etrans; [apply rounds_steps|].
  eapply rtc_l; [apply step_next_round|apply visits_steps].
Qed.

(** ** Final accounting *)

Lemma final_accounting_totals st :
  finished st = true →
  moved (final_accounting st)
    + length (permanently_failed (final_accounting st))
  = moved st + length (permanently_failed st) + length (outstanding st).
Proof.
  unfold finished, final_accounting, outstanding.
  intros [Hslots Hqueue]%andb_prop.
  destruct (queue st); [|done]. simpl.
  apply Is_true_true_2, forallb_True in Hslots.
  revert Hslots. generalize (slots st) as ss. intros ss.
  revert st. induction ss as [|s ss IH]; intros st Hall; simpl; [lia|].
  apply Forall_cons in Hall as [Hs Hall].
  rewrite IH by done. unfold active in Hs.
  unfold accounted, account_remaining.
  destruct (status s); simpl in *; try done; rewrite ?length_app; simpl; lia.
Qed.

Lemma account_remaining_frame ss st :
  (∀ u, u ∈ permanently_failed st →
        u ∈ permanently_failed (foldl account_remaining st ss))
  ∧ (∀ c, c ∈ coordinator_calls st →
          c ∈ coordinator_calls (foldl account_remaining st ss))
  ∧ blacklisted_urls (foldl account_remaining st ss) = blacklisted_urls st
  ∧ queue (foldl account_remaining st ss) = queue st
  ∧ slots (foldl account_remaining st ss) = slots st.
Proof.
  revert st. induction ss as [|s ss IH]; intros st; simpl; [done|].
  destruct (IH (account_remaining st s)) as (H1 & H2 & -> & -> & ->).
  unfold account_remaining in *.
  split_and!; try (by destruct (status s)).
  - intros u Hu. apply H1. destruct (status s); simpl; try done.
    apply elem_of_app. by left.
  - intros c Hc. apply H2. destruct (status s); simpl; try done.
    apply elem_of_app. by left.
Qed.

Lemma final_accounting_failed st slot :
  slot ∈ slots st → status slot = ERROR →
  job_url slot ∈ permanently_failed (final_accounting st)
  ∧ MarkFailed (job_url slot) (error_msg slot)
    ∈ coordinator_calls (final_accounting st).
Proof.
  unfold final_accounting. generalize (slots st) as ss. intros ss Hin Hs.
  revert st. induction Hin as [slot ss|slot s ss Hin IH]; intros st; simpl.
  - destruct (account_remaining_frame ss (account_remaining st slot))
      as (H1 & H2 & _).
    split; [apply H1|apply H2]; unfold account_remaining; rewrite Hs; simpl;
      apply elem_of_app; right; by apply list_elem_of_singleton.
  - by apply IH.
Qed.

(** ** The claims about the orchestrator *)

(** C8 (as amended).  At every point of a run on distinct granted keys,
    the completed count, plus the number of permanently failed keys, plus
    the number of queued keys, plus the number of keys held by a slot not
    yet accounted for (any slot but those marked [_counted], [_recycled]
    or [BLACKLISTED]: a slot that has reached DONE or ERROR and awaits
    recycling is among them) is the number of granted keys; the queued
    and held keys are distinct; and the pair returned by [_run_pipeline]
    adds up to the number of granted keys. *)
Theorem no_double_counting granted num_slots r k :
  NoDup granted →
  let st := visits enabled world k
              (next_round (rounds enabled world r (start granted num_slots))) in
  moved st + length (permanently_failed st) + length (queue st)
    + length (held_keys (slots st)) = length granted
  ∧ NoDup (queue st ++ held_keys (slots st))
  ∧ (∀ fuel m pf stf,
       _run_pipeline enabled world granted num_slots fuel
       = Some (inr (m, pf, stf)) →
       m + length pf = length granted).
Proof.
  intros Hnd st.
  destruct (point_consistent granted num_slots r k Hnd) as [Hbal Hdist _].
  fold st in Hbal, Hdist. unfold outstanding in Hbal, Hdist.
  split_and!.
  - rewrite length_app in Hbal. lia.
  - done.
  - intros fuel m pf stf
      [(-> & -> & -> & _)|(st1 & Hloop & _ & Hfin & -> & -> & ->)]%run_pipeline_returns;
      [done|].
    apply loop_steps in Hloop as [Hsteps _].
    rewrite final_accounting_totals by done.
    eapply steps_consistent in Hsteps; [|by apply start_consistent].
    by destruct Hsteps.
Qed.

(** C7 (as amended).  In a run on distinct granted keys, take a slot in
    ERROR whose consecutive-error count is at least BLACKLIST_THRESHOLD.
    When the loop recycles it, the slot becomes BLACKLISTED, its key joins
    the blacklist and the permanently failed keys, [mark_failed] is
    reported and the queue is left alone; from then on the key stays
    blacklisted and is never on the queue.  When instead the run ends
    before the slot is recycled, the final accounting records the key as
    permanently failed and reports [mark_failed], the slot staying in
    ERROR.  A transition to DONE resets the count to 0, and recycling a
    DONE slot counts it as moved without blacklisting or reporting
    anything. *)
Theorem blacklist_policy granted num_slots r k i slot :
  NoDup granted →
  let st := visits enabled world k
              (next_round (rounds enabled world r (start granted num_slots))) in
  slots st !! i = Some slot →
  status slot = ERROR →
  BLACKLIST_THRESHOLD ≤ consecutive_errors slot →
  (let '(slot1, st1) := recycle slot st in
   status slot1 = BLACKLISTED ∧ job_url slot1 = job_url slot
   ∧ job_url slot ∈ blacklisted_urls st1
   ∧ permanently_failed st1 = permanently_failed st ++ [job_url slot]
   ∧ coordinator_calls st1
     = coordinator_calls st
       ++ [MarkFailed (job_url slot) ("blacklisted: " +:+ error_msg slot)]
   ∧ queue st1 = queue st)
  ∧ (∀ env st', rtc (step enabled) (visit enabled env i st) st' →
                job_url slot ∈ blacklisted_urls st'
                ∧ job_url slot ∉ queue st')
  ∧ (let st' := final_accounting st in
     slots st' = slots st
     ∧ job_url slot ∈ permanently_failed st'
     ∧ MarkFailed (job_url slot) (error_msg slot) ∈ coordinator_calls st'
     ∧ queue st' = queue st)
  ∧ (∀ (tab : t) message st0,
       consecutive_errors (transition DONE message tab) = 0
       ∧ (status tab = DONE →
          let '(tab1, st1) := recycle tab st0 in
          status tab1 = _counted
          ∧ moved st1 = moved st0 + 1
          ∧ blacklisted_urls st1 = blacklisted_urls st0
          ∧ permanently_failed st1 = permanently_failed st0
          ∧ coordinator_calls st1 = coordinator_calls st0
          ∧ queue st1 = queue st0)).
Proof.
  intros Hnd st Hi Hs Hce.
  pose proof (point_consistent granted num_slots r k Hnd) as Hc.
  fold st in Hc. split_and!.
  - unfold recycle. rewrite Hs, bool_decide_eq_true_2 by done. simpl.
    split_and!; try done.
    apply elem_of_union. right. by apply elem_of_singleton.
  - intros env st' Hsteps.
    assert (Hbl : job_url slot ∈ blacklisted_urls (visit enabled env i st)).
    { unfold visit. rewrite Hi, Hs. unfold recycle.
      rewrite Hs, bool_decide_eq_true_2 by done.
      unfold assign_next. simpl.
      assert (job_url slot ∈ blacklisted_urls st ∪ {[job_url slot]}).
      { apply elem_of_union. right. by apply elem_of_singleton. }
      destruct (queue st); simpl; [done|]. by case_bool_decide. }
    split; [by eapply steps_blacklisted|].
    assert (Hc' : consistent (length granted) st').
    { eapply steps_consistent; [exact Hsteps|]. by apply visit_consistent. }
    intros Hin. eapply (quarantined _ _ Hc'); [by eapply steps_blacklisted|].
    unfold outstanding. apply elem_of_app. by left.
  - simpl.
    destruct (account_remaining_frame (slots st) st) as (_ & _ & _ & Hq & Hsl).
    destruct (final_accounting_failed st slot) as [Hpf Hcall]; [|done|].
    { by eapply list_elem_of_lookup_2. }
    done.
  - intros tab message st0. split; [done|]. intros Hd.
    unfold recycle. by rewrite Hd.
Qed.

End Orchestrator.

(** C8, counterexample.  One key, one slot, every probe succeeding: after
    the 8th round the slot has reached DONE and is not yet counted, so the
    sum of the specification is 0 for 1 granted key. *)
Lemma done_slot_not_yet_counted :
  let st := rounds true smooth_world 8 (start ["A"] 1) in
  (status <$> slots st) = [DONE] ∧ moved st = 0
  ∧ claimed_total st ≠ length ["A"].
Proof. vm_compute. split_and!; [done|done|lia]. Qed.

(** C7, counterexample.  Two keys, two slots: the slot of "B" errs for the
    third time in a row in the round in which "A" is done.  The run ends
    there: the slot stays in ERROR with count 3, nothing is blacklisted, and
    the final accounting reports "B" as failed. *)
Lemma error_at_exit_not_blacklisted :
  match _run_pipeline true exit_world ["B"; "A"] 2 20 with
  | Some (inr (moved, permanently_failed, st)) =>
      (status <$> slots st) = [ERROR; DONE]
      ∧ (consecutive_errors <$> slots st) = [3; 0]
      ∧ elements (blacklisted_urls st) = []
      ∧ moved = 1 ∧ permanently_failed = ["B"]
      ∧ coordinator_calls st
        = [MarkDone "A";
           MarkFailed "B" "Navigation timeout — detail view never appeared"]
  | _ => False
  end.
Proof. vm_compute. by split_and!. Qed.

Lemma no_double_counting_witness :
  let st := visits true exit_world 1
              (next_round (rounds true exit_world 4 (start ["B"; "A"; "C"] 2))) in
  moved st + length (permanently_failed st) + length (queue st)
    + length (held_keys (slots st)) = 3.
Proof.
  refine (proj1 (no_double_counting true exit_world ["B"; "A"; "C"] 2 4 1 _)).
  apply (bool_decide_unpack _). vm_compute. exact I.
Defined.

Lemma blacklist_policy_witness :
  let st1 := visit true (stuck_world 6 0) 0
               (visits true stuck_world 0
                  (next_round (rounds true stuck_world 5 (start ["B"; "A"] 2)))) in
  "B" ∈ blacklisted_urls st1 ∧ "B" ∉ queue st1.
Proof.
  refine (proj1 (proj2 (blacklist_policy true stuck_world ["B"; "A"] 2 5 0 0
    {| job_url := "B"; status := ERROR; error_msg := "boom";
       retry_count := 2; consecutive_errors := 3;
       error_history := ["boom"; "boom"; "boom"]; tick_count := 1 |}
    _ _ _ _)) (stuck_world 6 0) _ (rtc_refl _ _)).
  - apply (bool_decide_unpack _). vm_compute. exact I.
  - reflexivity.
  - reflexivity.
  - unfold BLACKLIST_THRESHOLD. simpl. lia.
Defined.



(** ** Sample runs *)

(** Three keys on two slots.  The slot of "B" waits for its detail view
    until "A" is done and "C" has taken over the other slot, then times out
    and twice fails to reopen the page: "A" and "C" are moved, "B" is
    blacklisted and reported as failed. *)
Example three_keys_two_slots :
  match _run_pipeline true
          (λ r i, if bool_decide (i = 0)
                  then with_page
                         (if bool_decide (r = 1) then GotoFired
                          else OpenRaised "boom")
                         (if bool_decide (r < 10) then NavNotYet
                          else NavTimeout)
                  else smooth)
          ["B"; "A"; "C"] 2 40 with
  | Some (inr (moved, permanently_failed, st)) =>
      moved = 2 ∧ permanently_failed = ["B"]
      ∧ elements (blacklisted_urls st) = ["B"]
      ∧ coordinator_calls st
        = [MarkDone "A"; MarkFailed "B" "blacklisted: boom"; MarkDone "C"]
  | _ => False
  end.
Proof. vm_compute. by split_and!. Qed.

(** A slot that errs twice in a row and then completes its key is counted
    as moved; nothing is blacklisted and its error count is back to 0. *)
Example two_errors_then_done :
  let st := rounds true recovering_world 13 (start ["B"; "A"] 2) in
  moved st = 1 ∧ permanently_failed st = []
  ∧ elements (blacklisted_urls st) = []
  ∧ (consecutive_errors <$> slots st) = [0; 0]
  ∧ (error_history <$> slots st) = [["boom"; "boom"]; []]
  ∧ coordinator_calls st = [MarkDone "B"].
Proof. vm_compute. by split_and!. Qed.

(** A key granted twice (a coordinator that grants everything, such as
    [NullCoordinator], on a list with a duplicate): once the key is
    blacklisted its second copy is taken off the queue and dropped, and the
    returned counts add up to 1 for 2 granted keys. *)
Example duplicate_key_dropped :
  match _run_pipeline false stuck_world ["B"; "B"] 1 20 with
  | Some (inr (moved, permanently_failed, st)) =>
      moved = 0 ∧ permanently_failed = ["B"] ∧ queue st = []
      ∧ (status <$> slots st) = [BLACKLISTED]
  | _ => False
  end.
Proof. vm_compute. by split_and!. Qed.

(** * More properties of the pipeline orchestrator *)

Import Reporting.

Section MoreOrchestrator.
Variable enabled : bool.

(** *** One tick *)

Ltac unfold_ticks :=
  unfold _tick_slot_fast, tick_pending, tick_navigating, tick_detail_wait,
    tick_scanning, tick_null_clicked, tick_converting, tick_ready,
    tick_add_clicked, tick_confirming, tick_verifying.

Lemma tick_outcome env slot :
  let '(slot', calls, exc) := _tick_slot_fast enabled env slot in
  job_url slot' = job_url slot
  ∧ retry_count slot' = retry_count slot
  ∧ tick_count slot' = tick_count slot
  ∧ (slot' = slot
     ∨ status slot' = ERROR
       ∧ consecutive_errors slot' = consecutive_errors slot + 1
       ∧ error_history slot' = error_history slot ++ [error_msg slot']
       ∧ active slot = true
       ∧ status slot ≠ CONFIRMING ∧ status slot ≠ VERIFYING
     ∨ rank (status slot) < rank (status slot') ≤ rank DONE
       ∧ error_history slot' = error_history slot
       ∧ error_msg slot' = error_msg slot
       ∧ consecutive_errors slot'
         = (if bool_decide (status slot' = DONE) then 0
            else consecutive_errors slot))
  ∧ (status slot' = DONE →
     status slot = DONE ∨ status slot = VERIFYING
     ∨ (status slot = PENDING ∧ enabled = true
        ∧ done_elsewhere (server_entry env) = true))
  ∧ calls = (if bool_decide (status slot = VERIFYING)
             then MarkDone (job_url slot)
                  :: match mark_done_raised env with
                     | Some _ => [MarkDone (job_url slot)]
                     | None => []
                     end
             else [])
  ∧ exc = (if bool_decide (status slot = VERIFYING)
           then match mark_done_raised env with
                | Some _ => mark_done_raised_again env
                | None => None
                end
           else None)
  ∧ match exc with
    | Some _ => slot' = slot
    | None => status slot = VERIFYING → status slot' = DONE
    end.
Proof.
  unfold_ticks. destruct slot as [u s m r c h k]; simpl.
  destruct s; simpl;
    repeat (case_match; simplify_eq/=; try done);
    split_and!; try done; try (by left); try (by right; left);
    try (right; right; split_and!; simpl; try done; lia);
    try (intros [=]); try (by left); try (by right; left).
  right; right.
  match goal with H : _ && _ = true |- _ => apply andb_prop in H as [? ?] end.
  by split_and!.
Qed.


(** *** Invariants of a run that need no assumption on the granted keys *)

Ltac visit_cases :=
  unfold visit, recycle, assign_next;
  repeat (case_match; simplify_eq/=; try done).

Lemma tick_calls env slot :
  (_tick_slot_fast enabled env slot).1.2
  = if bool_decide (status slot = VERIFYING)
    then MarkDone (job_url slot)
         :: match mark_done_raised env with
            | Some _ => [MarkDone (job_url slot)]
            | None => []
            end
    else [].
Proof.
  pose proof (tick_outcome env slot) as H.
  destruct (_tick_slot_fast enabled env slot) as [[slot' calls] exc].
  by destruct H as (_ & _ & _ & _ & _ & -> & _).
Qed.

Lemma failed_reports_app c1 c2 :
  failed_reports (c1 ++ c2) = failed_reports c1 ++ failed_reports c2.
Proof. apply omap_app. Qed.

Lemma done_reports_app c1 c2 :
  done_reports (c1 ++ c2) = done_reports c1 ++ done_reports c2.
Proof. apply omap_app. Qed.

Lemma visit_slots_length env i st :
  length (slots (visit enabled env i st)) = length (slots st).
Proof. visit_cases; by rewrite ?length_insert. Qed.

Lemma visit_failed_reports env i st :
  failed_reports (coordinator_calls st) = permanently_failed st →
  failed_reports (coordinator_calls (visit enabled env i st))
  = permanently_failed (visit enabled env i st).
Proof.
  intros Hinv. unfold visit.
  destruct (slots st !! i) as [slot|] eqn:Hi; [|done].
  assert (Htick :
    ∀ slot' calls exc,
      _tick_slot_fast enabled env (count_tick slot) = (slot', calls, exc) →
      failed_reports (coordinator_calls st ++ calls) = permanently_failed st).
  { intros slot' calls exc Ht.
    pose proof (tick_calls env (count_tick slot)) as Hc. rewrite Ht in Hc.
    simpl in Hc. rewrite Hc, failed_reports_app, Hinv.
    case_bool_decide; [destruct (mark_done_raised env)|]; simpl;
      by rewrite app_nil_r. }
  unfold recycle, assign_next.
  repeat (case_match; simplify_eq/=; try done); try (by eapply Htick);
    by rewrite ?failed_reports_app, ?Hinv.
Qed.

Lemma done_keys_app ss1 ss2 :
  done_keys (ss1 ++ ss2) = done_keys ss1 ++ done_keys ss2.
Proof. unfold done_keys. by rewrite filter_app, fmap_app. Qed.

Lemma done_keys_lookup ss i s :
  ss !! i = Some s →
  done_keys ss
  = done_keys (take i ss) ++ done_keys [s] ++ done_keys (drop (S i) ss).
Proof.
  intros Hi. rewrite <-(take_drop_middle ss i s) at 1 by done.
  rewrite done_keys_app. f_equal. apply (done_keys_app [s]).
Qed.

Lemma done_keys_insert ss i s s' :
  ss !! i = Some s →
  done_keys (<[i := s']> ss)
  = done_keys (take i ss) ++ done_keys [s'] ++ done_keys (drop (S i) ss).
Proof.
  intros Hi. rewrite insert_take_drop by (by eapply lookup_lt_Some).
  rewrite done_keys_app. f_equal. apply (done_keys_app [s']).
Qed.

Lemma done_keys_one s :
  done_keys [s] = if bool_decide (status s = DONE) then [job_url s] else [].
Proof.
  unfold done_keys. rewrite filter_cons, filter_nil.
  case_decide; case_bool_decide; done.
Qed.

(** The [mark_done] calls of a tick against the slot it leaves: one or two
    calls when the slot reaches DONE through its verification, two calls
    when the tick raises, none otherwise. *)
Lemma tick_done_reports env slot :
  status slot ≠ DONE →
  let '(slot', calls, exc) := _tick_slot_fast enabled env (count_tick slot) in
  length (done_reports calls)
  ≤ 2 * length (done_keys [slot'])
    + match exc with Some _ => 2 | None => 0 end
  ∧ (enabled = false →
     length (done_keys [slot']) ≤ length (done_reports calls))
  ∧ (mark_done_raised env = None →
     length (done_reports calls) ≤ length (done_keys [slot'])
     ∧ (enabled = false →
        length (done_reports calls) = length (done_keys [slot']))).
Proof.
  intros Hnd. unfold_ticks. destruct slot as [u s m r c h k]; simpl in *.
  destruct s; simpl;
    repeat (case_match; simplify_eq/=; try done);
    (split;
     [ try done; vm_compute; lia
     | split;
       [ intros He; subst; simpl in *; try done; vm_compute; lia
       | intros Hr; try congruence;
         (split; [try done; vm_compute; lia|]);
         intros He; subst; simpl in *; try done; congruence ] ]).
Qed.

Lemma visit_local env i st slot :
  slots st !! i = Some slot →
  let st' := visit enabled env i st in
  ∃ slot',
    slots st' = <[i := slot']> (slots st)
    ∧ moved st' + length (permanently_failed st')
        + length (queue st' ++ held_keys [slot'])
      ≤ moved st + length (permanently_failed st)
        + length (queue st ++ held_keys [slot])
    ∧ (queue st' ++ held_keys [slot']) ++ permanently_failed st'
      ⊆+ (queue st ++ held_keys [slot]) ++ permanently_failed st
    ∧ length (done_reports (coordinator_calls st'))
        + 2 * (moved st + length (done_keys [slot]))
      ≤ length (done_reports (coordinator_calls st))
        + 2 * (moved st' + length (done_keys [slot']))
        + match raised st' with Some _ => 2 | None => 0 end
    ∧ (enabled = false →
       length (done_reports (coordinator_calls st)) + moved st'
         + length (done_keys [slot'])
       ≤ length (done_reports (coordinator_calls st')) + moved st
         + length (done_keys [slot]))
    ∧ (mark_done_raised env = None →
       length (done_reports (coordinator_calls st')) + moved st
         + length (done_keys [slot])
       ≤ length (done_reports (coordinator_calls st)) + moved st'
         + length (done_keys [slot'])
       ∧ (enabled = false →
          length (done_reports (coordinator_calls st')) + moved st
            + length (done_keys [slot])
          = length (done_reports (coordinator_calls st)) + moved st'
            + length (done_keys [slot'])))
    ∧ ((∀ u n, retry_tracker st !! u = Some n → 1 ≤ n ≤ MAX_CARD_RETRIES) →
       ∀ u n, retry_tracker st' !! u = Some n → 1 ≤ n ≤ MAX_CARD_RETRIES)
    ∧ ((∀ u, u ∈ blacklisted_urls st → u ∈ permanently_failed st) →
       ∀ u, u ∈ blacklisted_urls st' → u ∈ permanently_failed st').
Proof.
  intros Hi. cbv zeta. unfold visit. rewrite Hi.
  destruct (decide (status slot = DONE ∨ status slot = ERROR
                    ∨ status slot = BLACKLISTED)) as [Hfin|Hact].
  - (* the slot is recycled *)
    assert (Hrec :
      ∀ (st0 : pipeline) (P : pipeline → Prop),
        P (let '(slot1, st1) := recycle slot st in
           let '(slot2, st2) := assign_next slot1 st1 in
           set_slot i slot2 st2) →
        P match status slot with
          | DONE | ERROR | BLACKLISTED =>
              let '(slot1, st1) := recycle slot st in
              let '(slot2, st2) := assign_next slot1 st1 in
              set_slot i slot2 st2
          | _ =>
              let '(slot', calls, exc) :=
                _tick_slot_fast enabled env (count_tick slot) in
              {| moved := moved st;
                 permanently_failed := permanently_failed st;
                 retry_tracker := retry_tracker st;
                 blacklisted_urls := blacklisted_urls st; queue := queue st;
                 slots := <[i := slot']> (slots st);
                 round_num := round_num st;
                 coordinator_calls := coordinator_calls st ++ calls;
                 raised := exc |}
          end).
    { intros _ P HP. by destruct Hfin as [->|[->| ->]]. }
    apply (Hrec st). clear Hrec.
    destruct (raised st) as [e0|] eqn:Hraised;
    (destruct (status slot) eqn:Hs; try (exfalso; intuition congruence);
     unfold recycle; rewrite Hs; repeat case_bool_decide;
     unfold assign_next; simpl; rewrite ?Hs; simpl;
     (destruct (queue st) as [|next rest] eqn:HQ; simpl;
      repeat case_bool_decide; simpl; rewrite ?HQ, ?Hraised;
      (eexists; split; [reflexivity|]);
      rewrite ?done_reports_app, !done_keys_one;
      unfold accounted; simpl;
      rewrite ?Hs; simpl; rewrite ?length_app; simpl;
      split_and!;
      first
        [ lia
        | solve_submseteq
        | intros _; lia
        | intros _; split; [lia|intros _; lia]
        | done
        | intros Hb u n; rewrite lookup_insert; case_decide;
          [ intros [= <-]; unfold MAX_CARD_RETRIES in *; lia | apply Hb ]
        | intros Hb u; rewrite ?elem_of_union, ?elem_of_singleton,
            ?elem_of_app, ?list_elem_of_singleton; specialize (Hb u); tauto ])).
  - (* the slot is ticked *)
    assert (Hnd : status slot ≠ DONE) by tauto.
    pose proof (tick_held_keys enabled env slot) as Hk.
    pose proof (tick_done_reports env slot Hnd) as Hd.
    assert (Htick :
      ∀ P : pipeline → Prop,
        P (let '(slot', calls, exc) :=
             _tick_slot_fast enabled env (count_tick slot) in
           {| moved := moved st;
              permanently_failed := permanently_failed st;
              retry_tracker := retry_tracker st;
              blacklisted_urls := blacklisted_urls st; queue := queue st;
              slots := <[i := slot']> (slots st);
              round_num := round_num st;
              coordinator_calls := coordinator_calls st ++ calls;
              raised := exc |}) →
        P match status slot with
          | DONE | ERROR | BLACKLISTED =>
              let '(slot1, st1) := recycle slot st in
              let '(slot2, st2) := assign_next slot1 st1 in
              set_slot i slot2 st2
          | _ =>
              let '(slot', calls, exc) :=
                _tick_slot_fast enabled env (count_tick slot) in
              {| moved := moved st;
                 permanently_failed := permanently_failed st;
                 retry_tracker := retry_tracker st;
                 blacklisted_urls := blacklisted_urls st; queue := queue st;
                 slots := <[i := slot']> (slots st);
                 round_num := round_num st;
                 coordinator_calls := coordinator_calls st ++ calls;
                 raised := exc |}
          end).
    { intros P HP. destruct (status slot); tauto. }
    apply Htick. clear Htick.
    destruct (_tick_slot_fast enabled env (count_tick slot))
      as [[slot' calls] exc].
    exists slot'. change (held_keys [slot'] = held_keys [slot]) in Hk.
    cbn [slots moved permanently_failed queue coordinator_calls raised
           retry_tracker blacklisted_urls].
    rewrite Hk, done_reports_app, !length_app, (done_keys_one slot).
    rewrite bool_decide_eq_false_2 by done. cbn [length].
    destruct Hd as (Hd1 & Hd2 & Hd3).
    split_and!; try done; try lia.
    + intros He. specialize (Hd2 He). lia.
    + intros Hr. destruct (Hd3 Hr) as [Hd4 Hd5]. split; [lia|].
      intros He. specialize (Hd5 He). lia.
Qed.

Lemma visit_sound env G c i st :
  raised st = None →
  sound enabled G c st → sound enabled G c (visit enabled env i st).
Proof.
  intros Hlive Hs.
  destruct (slots st !! i) as [slot|] eqn:Hi;
    [|by unfold visit; rewrite Hi].
  pose proof (visit_failed_reports env i st (reports_failed _ _ _ _ Hs)) as Hrf.
  pose proof (visit_slots_length env i st) as Hlen.
  destruct (visit_local env i st slot Hi)
    as (slot' & Hslots & Hle & Hsub & Hdl & Hde & _ & Hbud & Hbl).
  destruct Hs as [Hs1 Hs2 Hs3 Hs4 Hs5 Hs6 Hs7 Hs8].
  unfold outstanding in *.
  rewrite (held_keys_lookup _ _ _ Hi) in Hs1, Hs2.
  rewrite (done_keys_lookup _ _ _ Hi) in Hs4, Hs5.
  rewrite Hlive in Hs4.
  set (K1 := held_keys (take i (slots st))) in *.
  set (K2 := held_keys (drop (S i) (slots st))) in *.
  assert (Hperm : ∀ Q k P, (Q ++ K1 ++ k ++ K2) ++ P ≡ₚ ((Q ++ k) ++ P) ++ K1 ++ K2).
  { intros Q k P. solve_Permutation. }
  split; unfold outstanding; rewrite ?Hslots, ?(held_keys_insert _ _ _ _ Hi),
    ?(done_keys_insert _ _ _ _ Hi); fold K1 K2.
  - rewrite Hperm. etrans; [|exact Hs1]. rewrite (Hperm (queue st)).
    by apply submseteq_skips_r.
  - rewrite !length_app in *. lia.
  - done.
  - rewrite !length_app in *.
    destruct (raised (visit enabled env i st)); lia.
  - intros He. specialize (Hs5 He). specialize (Hde He).
    rewrite !length_app in *. lia.
  - by apply Hbud.
  - by apply Hbl.
  - by rewrite <-Hslots, Hlen.
Qed.

Lemma live_step_sound G c st st' :
  live_step enabled st st' → sound enabled G c st → sound enabled G c st'.
Proof.
  intros [env i st0 Hlive|st0]; [by apply visit_sound|by intros []].
Qed.

Lemma live_steps_sound G c st st' :
  rtc (live_step enabled) st st' → sound enabled G c st → sound enabled G c st'.
Proof. induction 1; eauto using live_step_sound. Qed.

Lemma live_steps_steps st st' :
  rtc (live_step enabled) st st' → rtc (step enabled) st st'.
Proof.
  apply rtc_subrel. intros x y [env i st0 _|st0]; constructor.
Qed.

Lemma done_keys_init (keys : list string) : done_keys (__init__ <$> keys) = [].
Proof. induction keys as [|k keys IH]; [done|]. by cbn. Qed.

Lemma start_sound granted num_slots :
  sound enabled granted (num_slots `min` length granted)
    (start granted num_slots).
Proof.
  assert (Hperm : outstanding (start granted num_slots) ≡ₚ granted).
  { unfold outstanding, start. simpl. rewrite held_keys_init.
    by rewrite Permutation_app_comm, take_drop. }
  split.
  - simpl. rewrite app_nil_r. by rewrite Hperm.
  - simpl. rewrite Hperm. lia.
  - done.
  - simpl. lia.
  - intros _. simpl. by rewrite done_keys_init.
  - intros u n. simpl. by rewrite lookup_empty.
  - intros u. simpl. by rewrite elem_of_empty.
  - simpl. rewrite length_fmap, length_take. lia.
Qed.

Variable world : nat → nat → tick_env.

Lemma visits_live k st :
  rtc (live_step enabled) st (visits enabled world k st).
Proof.
  unfold visits. generalize 0 as a. revert st.
  induction k as [|k IH]; intros st a; simpl; [done|].
  destruct (raised st) eqn:Hr; [apply IH|].
  eapply rtc_l; [by apply live_visit|]. apply IH.
Qed.

Lemma round_live st : rtc (live_step enabled) st (round enabled world st).
Proof.
  unfold round. eapply rtc_l; [apply live_next_round|].
  apply (visits_live _ (next_round st)).
Qed.

Lemma rounds_live r st : rtc (live_step enabled) st (rounds enabled world r st).
Proof.
  revert st. induction r as [|r IH]; intros st; simpl; [done|].
  destruct (raised st); [done|]. destruct (finished st); [done|].
  etrans; [apply round_live|apply IH].
Qed.

Lemma loop_live fuel st st' :
  loop enabled world fuel st = Some st' → rtc (live_step enabled) st st'.
Proof.
  revert st. induction fuel as [|fuel IH]; intros st; simpl;
    destruct (raised st) eqn:Hr; try (by intros [= <-]);
    destruct (finished st) eqn:Hf; intros Hl; simplify_eq; try done.
  etrans; [apply round_live|by apply IH].
Qed.

Lemma point_sound granted num_slots r k :
  sound enabled granted (num_slots `min` length granted)
    (visits enabled world k
       (next_round (rounds enabled world r (start granted num_slots)))).
Proof.
  eapply live_steps_sound; [|apply start_sound].
  etrans; [apply rounds_live|].
  eapply rtc_l; [apply live_next_round|apply visits_live].
Qed.

(** *** Runs in which the first [mark_done] of a tick never raises *)

Lemma visit_once env i st :
  mark_done_raised env = None →
  reported_once enabled st → reported_once enabled (visit enabled env i st).
Proof.
  intros Hret [Hle Heq].
  destruct (slots st !! i) as [slot|] eqn:Hi;
    [|by unfold visit; rewrite Hi].
  destruct (visit_local env i st slot Hi)
    as (slot' & Hslots & _ & _ & _ & _ & Hex & _ & _).
  destruct (Hex Hret) as [Hex1 Hex2].
  rewrite (done_keys_lookup _ _ _ Hi) in Hle, Heq.
  split; rewrite Hslots, (done_keys_insert _ _ _ _ Hi).
  - rewrite !length_app in *. lia.
  - intros He. specialize (Heq He). specialize (Hex2 He).
    rewrite !length_app in *. lia.
Qed.

Lemma visits_once k st :
  (∀ r i, mark_done_raised (world r i) = None) →
  reported_once enabled st → reported_once enabled (visits enabled world k st).
Proof.
  intros Hret. unfold visits. generalize 0 as a. revert st.
  induction k as [|k IH]; intros st a Ho; simpl; [done|].
  apply IH. destruct (raised st); [done|]. by apply visit_once.
Qed.

Lemma round_once st :
  (∀ r i, mark_done_raised (world r i) = None) →
  reported_once enabled st → reported_once enabled (round enabled world st).
Proof.
  intros Hret Ho. unfold round. apply visits_once; [done|]. by destruct Ho.
Qed.

Lemma rounds_once r st :
  (∀ r i, mark_done_raised (world r i) = None) →
  reported_once enabled st → reported_once enabled (rounds enabled world r st).
Proof.
  intros Hret. revert st. induction r as [|r IH]; intros st Ho; simpl; [done|].
  destruct (raised st); [done|]. destruct (finished st); [done|].
  by apply IH, round_once.
Qed.

Lemma loop_once fuel st st' :
  (∀ r i, mark_done_raised (world r i) = None) →
  loop enabled world fuel st = Some st' →
  reported_once enabled st → reported_once enabled st'.
Proof.
  intros Hret. revert st. induction fuel as [|fuel IH]; intros st; simpl;
    destruct (raised st) eqn:Hr; try (by intros [= <-]);
    destruct (finished st) eqn:Hf; intros Hl Ho; simplify_eq; try done.
  eapply IH; [done|]. by apply round_once.
Qed.

Lemma start_once granted num_slots :
  reported_once enabled (start granted num_slots).
Proof. split; simpl; rewrite done_keys_init; [lia|done]. Qed.

(** *** Final accounting, exactly *)

Lemma account_remaining_exact ss st :
  let st' := foldl account_remaining st ss in
  moved st' = moved st + length (done_keys ss)
  ∧ permanently_failed st' = permanently_failed st ++ error_keys ss
  ∧ coordinator_calls st'
    = coordinator_calls st
      ++ ((λ s, MarkFailed (job_url s) (error_msg s))
            <$> filter (λ s, status s = ERROR) ss)
  ∧ slots st' = slots st ∧ queue st' = queue st
  ∧ retry_tracker st' = retry_tracker st
  ∧ blacklisted_urls st' = blacklisted_urls st.
Proof.
  revert st. induction ss as [|s ss IH]; intros st; simpl.
  - by rewrite !app_nil_r, Nat.add_0_r.
  - destruct (IH (account_remaining st s)) as (-> & -> & -> & -> & -> & -> & ->).
    unfold account_remaining, done_keys, error_keys.
    rewrite !filter_cons.
    destruct (status s) eqn:Hs; repeat case_decide; try congruence;
      rewrite ?fmap_cons;
      cbn [moved permanently_failed coordinator_calls slots queue
             retry_tracker blacklisted_urls length app];
      rewrite <-?app_assoc; split_and!; try done; lia.
Qed.

Lemma terminal_keys_held ss : done_keys ss ++ error_keys ss ⊆+ held_keys ss.
Proof.
  induction ss as [|s ss IH]; [done|].
  unfold done_keys, error_keys in *. rewrite !filter_cons. simpl.
  unfold accounted.
  destruct (status s) eqn:Hs; repeat case_decide; try congruence; simpl;
    try done; try (by apply submseteq_cons).
  - by apply submseteq_skip.
  - etrans; [|apply submseteq_skip, IH].
    apply Permutation_submseteq. solve_Permutation.
Qed.

Lemma failed_reports_errors (ss : list t) :
  failed_reports ((λ s, MarkFailed (job_url s) (error_msg s)) <$> ss)
  = job_url <$> ss.
Proof. induction ss as [|s ss IH]; [done|]. cbn. by rewrite <-IH. Qed.

Lemma done_reports_errors (ss : list t) :
  done_reports ((λ s, MarkFailed (job_url s) (error_msg s)) <$> ss) = [].
Proof. induction ss as [|s ss IH]; [done|]. by cbn. Qed.

(** What [_run_pipeline] returns is the final accounting of a state that
    the loop reaches from the start without an exception. *)
Lemma run_pipeline_inv granted num_slots fuel m pf stf :
  _run_pipeline enabled world granted num_slots fuel = Some (inr (m, pf, stf)) →
  granted = [] ∧ m = 0 ∧ pf = [] ∧ stf = start [] num_slots
  ∨ ∃ st, rtc (live_step enabled) (start granted num_slots) st
          ∧ loop enabled world fuel (start granted num_slots) = Some st
          ∧ raised st = None
          ∧ finished st = true
          ∧ stf = final_accounting st
          ∧ m = moved stf ∧ pf = permanently_failed stf.
Proof.
  intros [?|(st & Hloop & ? & ? & ? & ? & ?)]%run_pipeline_returns;
    [by left|right].
  exists st. split_and!; try done. by eapply loop_live.
Qed.

(** X13.  The number of slots never changes: at every point of a run,
    and in the state returned, it is [min(num_slots, len(granted))], so
    at most [num_slots] slots are active at any time. *)
Theorem slot_count_constant granted num_slots r k :
  let st := visits enabled world k
              (next_round (rounds enabled world r (start granted num_slots))) in
  length (slots st) = num_slots `min` length granted
  ∧ length (filter (λ s, active s) (slots st)) ≤ num_slots
  ∧ (∀ fuel m pf stf,
       _run_pipeline enabled world granted num_slots fuel
       = Some (inr (m, pf, stf)) →
       length (slots stf) = num_slots `min` length granted).
Proof.
  intros st. pose proof (point_sound granted num_slots r k) as Hs.
  fold st in Hs. destruct Hs as [_ _ _ _ _ _ _ Hc]. split_and!.
  - done.
  - etrans; [apply length_filter|]. lia.
  - intros fuel m pf stf
      [(-> & _ & _ & ->)|(st1 & Hsteps & _ & _ & _ & -> & _)]%run_pipeline_inv.
    + by destruct (start_sound [] num_slots).
    + eapply live_steps_sound in Hsteps; [|apply start_sound].
      destruct (account_remaining_exact (slots st1) st1)
        as (_ & _ & _ & Hsl & _).
      unfold final_accounting. rewrite Hsl. by destruct Hsteps.
Qed.

(** X14.  At every point of a run, and at its end, every count of the
    retry tracker is between 1 and MAX_CARD_RETRIES, and every
    blacklisted key is among the permanently failed keys. *)
Theorem retry_budget granted num_slots r k :
  let st := visits enabled world k
              (next_round (rounds enabled world r (start granted num_slots))) in
  (∀ u n, retry_tracker st !! u = Some n → 1 ≤ n ≤ MAX_CARD_RETRIES)
  ∧ (∀ u, u ∈ blacklisted_urls st → u ∈ permanently_failed st)
  ∧ (∀ fuel m pf stf,
       _run_pipeline enabled world granted num_slots fuel
       = Some (inr (m, pf, stf)) →
       (∀ u n, retry_tracker stf !! u = Some n → 1 ≤ n ≤ MAX_CARD_RETRIES)
       ∧ (∀ u, u ∈ blacklisted_urls stf → u ∈ pf)).
Proof.
  intros st. pose proof (point_sound granted num_slots r k) as Hs.
  fold st in Hs. destruct Hs as [_ _ _ _ _ Hb Hbl _]. split_and!; try done.
  intros fuel m pf stf
    [(-> & _ & _ & ->)|(st1 & Hsteps & _ & _ & _ & -> & _ & ->)]%run_pipeline_inv.
  - simpl. split; [intros u n|intros u].
    + by rewrite lookup_empty.
    + by rewrite elem_of_empty.
  - eapply live_steps_sound in Hsteps; [|apply start_sound].
    destruct (account_remaining_exact (slots st1) st1)
      as (_ & Hpf & _ & _ & _ & Hrt & Hbk).
    unfold final_accounting. rewrite Hpf, Hrt, Hbk.
    destruct Hsteps as [_ _ _ _ _ Hb1 Hbl1 _]. split; [done|].
    intros u Hu. apply elem_of_app. left. by apply Hbl1.
Qed.

(** X15.  At every point of a run the urls reported with [mark_failed]
    are, in order, the permanently failed keys.  [mark_done] is called
    once or twice for a key that completes, and twice by a tick that
    raises: the number of its calls is at most twice the completed count
    plus the number of slots in DONE, plus 2 once an exception has left
    the loop, and it is at least that count plus that number when
    coordination is disabled.  With a [mark_done] that never raises at its
    first call the number of calls is at most that sum, and equal to it
    when coordination is disabled.  The same holds of what
    [_run_pipeline] returns, with the returned count and the returned
    failed keys. *)
Theorem reports_match_result granted num_slots r k :
  let st := visits enabled world k
              (next_round (rounds enabled world r (start granted num_slots))) in
  failed_reports (coordinator_calls st) = permanently_failed st
  ∧ length (done_reports (coordinator_calls st))
    ≤ 2 * (moved st + length (done_keys (slots st)))
      + match raised st with Some _ => 2 | None => 0 end
  ∧ (enabled = false →
     moved st + length (done_keys (slots st))
     ≤ length (done_reports (coordinator_calls st)))
  ∧ ((∀ r i, mark_done_raised (world r i) = None) →
     length (done_reports (coordinator_calls st))
     ≤ moved st + length (done_keys (slots st))
     ∧ (enabled = false →
        length (done_reports (coordinator_calls st))
        = moved st + length (done_keys (slots st))))
  ∧ (∀ fuel m pf stf,
       _run_pipeline enabled world granted num_slots fuel
       = Some (inr (m, pf, stf)) →
       failed_reports (coordinator_calls stf) = pf
       ∧ length (done_reports (coordinator_calls stf)) ≤ 2 * m
       ∧ (enabled = false →
          m ≤ length (done_reports (coordinator_calls stf)))
       ∧ ((∀ r i, mark_done_raised (world r i) = None) →
          length (done_reports (coordinator_calls stf)) ≤ m
          ∧ (enabled = false →
             length (done_reports (coordinator_calls stf)) = m))).
Proof.
  intros st. pose proof (point_sound granted num_slots r k) as Hs.
  fold st in Hs. destruct Hs as [_ _ Hf Hd He _ _ _].
  split; [done|]. split; [done|]. split; [done|]. split.
  - intros Hret.
    assert (Ho : reported_once enabled st).
    { apply visits_once; [done|].
      pose proof (rounds_once r _ Hret (start_once granted num_slots)) as Hr.
      by destruct Hr. }
    by destruct Ho.
  - intros fuel m pf stf
      [(-> & -> & -> & ->)
      |(st1 & Hsteps & Hloop & Hlive & _ & -> & -> & ->)]%run_pipeline_inv.
    + simpl. split_and!; [done|lia|intros _; lia|].
      intros _. split; [lia|done].
    + eapply live_steps_sound in Hsteps; [|apply start_sound].
      destruct (account_remaining_exact (slots st1) st1)
        as (Hm & Hpf & Hcalls & _).
      unfold final_accounting. rewrite Hm, Hpf, Hcalls.
      rewrite failed_reports_app, done_reports_app, failed_reports_errors,
        done_reports_errors, app_nil_r.
      destruct Hsteps as [_ _ Hf1 Hd1 He1 _ _ _]. rewrite Hlive in Hd1.
      split_and!.
      * by rewrite Hf1.
      * lia.
      * done.
      * intros Hret.
        pose proof (loop_once _ _ _ Hret Hloop (start_once granted num_slots))
          as [Ho1 Ho2].
        done.
Qed.

Lemma run_pipeline_keys granted num_slots fuel m pf stf :
  _run_pipeline enabled world granted num_slots fuel = Some (inr (m, pf, stf)) →
  pf ⊆+ granted ∧ m + length pf ≤ length granted.
Proof.
  intros [(-> & -> & -> & ->)
         |(st1 & Hsteps & _ & _ & Hfin & -> & -> & ->)]%run_pipeline_inv.
  - split; [done|simpl; lia].
  - eapply live_steps_sound in Hsteps; [|apply start_sound].
    destruct (account_remaining_exact (slots st1) st1) as (Hm & Hpf & _).
    unfold final_accounting. rewrite Hm, Hpf.
    destruct Hsteps as [Hsub1 Hle1 _ _ _ _ _ _].
    unfold outstanding in *.
    pose proof (terminal_keys_held (slots st1)) as Hterm.
    assert (Herr : error_keys (slots st1) ⊆+ held_keys (slots st1)).
    { etrans; [|exact Hterm]. apply submseteq_inserts_l. done. }
    split.
    + etrans; [|exact Hsub1].
      rewrite (Permutation_app_comm (permanently_failed st1)).
      apply submseteq_app; [|done].
      etrans; [exact Herr|]. by apply submseteq_inserts_l.
    + apply submseteq_length in Hterm.
      rewrite !length_app in *. lia.
Qed.

(** X16.  Whatever the granted keys are, duplicates included (the null
    coordinator grants the list it is given): at every point of a run the
    queued keys, the keys held by slots not yet accounted for and the
    permanently failed keys together are a sub-multiset of the granted
    keys, and the completed count plus the numbers of these keys is at
    most the number of granted keys; the keys returned as permanently
    failed are a sub-multiset of the granted keys, and the returned count
    plus their number is at most the number of granted keys.  No key is
    invented and none is counted more often than it was granted. *)
Theorem keys_never_multiply granted num_slots r k :
  let st := visits enabled world k
              (next_round (rounds enabled world r (start granted num_slots))) in
  (queue st ++ held_keys (slots st)) ++ permanently_failed st ⊆+ granted
  ∧ moved st + length (permanently_failed st) + length (queue st)
      + length (held_keys (slots st)) ≤ length granted
  ∧ (∀ fuel m pf stf,
       _run_pipeline enabled world granted num_slots fuel
       = Some (inr (m, pf, stf)) →
       pf ⊆+ granted ∧ m + length pf ≤ length granted).
Proof.
  intros st. pose proof (point_sound granted num_slots r k) as Hs.
  fold st in Hs. destruct Hs as [Hsub Hle _ _ _ _ _ _].
  unfold outstanding in *. split_and!.
  - done.
  - rewrite length_app in Hle. lia.
  - intros fuel m pf stf. apply run_pipeline_keys.
Qed.

(** X17.  With no slot ([num_slots] 0) and at least one granted key the
    loop never ends, however many iterations it is given: the queue is
    never emptied. *)
Theorem zero_slots_never_finishes granted fuel :
  granted ≠ [] → _run_pipeline enabled world granted 0 fuel = None.
Proof.
  intros Hne. unfold _run_pipeline.
  destruct granted as [|g0 granted']; [done|].
  assert (Hloop : ∀ st, slots st = [] → queue st ≠ [] → raised st = None →
                        loop enabled world fuel st = None).
  { induction fuel as [|fuel' IH]; intros st Hs Hq Hr; simpl;
      rewrite Hr; unfold finished; rewrite Hs; simpl;
      destruct (queue st) eqn:HQ; try done.
    apply IH.
    - unfold round. rewrite Hs. done.
    - unfold round. rewrite Hs. simpl. by rewrite HQ.
    - unfold round. rewrite Hs. done. }
  by rewrite Hloop.
Qed.
End MoreOrchestrator.

Lemma zero_slots_never_finishes_witness :
  _run_pipeline true smooth_world ["A"] 0 50 = None.
Proof. apply zero_slots_never_finishes. discriminate. Defined.

(** ** From the urls of a batch to its result *)

Section Batch.
Local Open Scope Z_scope.
Variable enabled : bool.
Variable world : nat → nat → tick_env.
Variable stale_timeout : Z.

Lemma file_batch_loop_acc now i urls h granted denied (L : ledger) :
  URLCoordinator.batch_claim_loop stale_timeout now i urls h granted denied L
  = let '(g, d, L') :=
      URLCoordinator.batch_claim_loop stale_timeout now i urls h [] [] L in
    (granted ++ g, denied ++ d, L').
Proof.
  revert i granted denied L.
  induction urls as [|url rest IH]; intros i granted denied L; simpl.
  - by rewrite !app_nil_r.
  - destruct (URLCoordinator.claim _ _ _ _ _) as [[] L1].
    + rewrite (IH (S i) (granted ++ [url])), (IH (S i) [url]).
      destruct (URLCoordinator.batch_claim_loop _ _ _ rest _ [] [] L1)
        as [[g d] L2].
      by rewrite <-app_assoc.
    + rewrite (IH (S i) granted (denied ++ [url])), (IH (S i) [] [url]).
      destruct (URLCoordinator.batch_claim_loop _ _ _ rest _ [] [] L1)
        as [[g d] L2].
      by rewrite <-app_assoc.
Qed.

Lemma file_batch_loop_partition now i urls h (L : ledger) :
  let r := URLCoordinator.batch_claim_loop stale_timeout now i urls h [] [] L in
  r.1.1 ++ r.1.2 ≡ₚ urls.
Proof.
  revert i L. induction urls as [|url rest IH]; intros i L; simpl; [done|].
  destruct (URLCoordinator.claim _ _ _ _ _) as [[] L1];
    rewrite file_batch_loop_acc; specialize (IH (S i) L1);
    destruct (URLCoordinator.batch_claim_loop _ _ _ rest _ [] [] L1)
      as [[g d] L2]; simpl in *.
  - by rewrite IH.
  - by rewrite <-Permutation_middle, IH.
Qed.

(** A key claimed at the instant [t] is not granted again, and keeps its
    entry, as long as the claims that follow come less than
    [stale_timeout] after [t]. *)
Lemma file_batch_loop_keeps_fresh now i urls h (L : ledger) t k :
  (∀ b, (i ≤ b < i + length urls)%nat → now b - t < stale_timeout) →
  fresh t L k →
  let r := URLCoordinator.batch_claim_loop stale_timeout now i urls h [] [] L in
  fresh t r.2 k ∧ k ∉ r.1.1.
Proof.
  revert i L. induction urls as [|url rest IH]; intros i L Hwin Hf; simpl.
  - split; [done|apply not_elem_of_nil].
  - assert (Hwin' : ∀ b, (S i ≤ b < S i + length rest)%nat →
                         now b - t < stale_timeout).
    { intros b Hb. apply Hwin. simpl. lia. }
    rewrite file_claim_unfold.
    destruct (coordination_server.claimable _ _ _) eqn:Hc.
    + assert (url ≠ k) as Hne.
      { intros ->. destruct Hf as (e & Hk & Hs & Hu). rewrite Hk in Hc.
        apply claimable_spec in Hc as [_ Hage]. rewrite Hu in Hage.
        simpl in Hage. specialize (Hwin i). simpl in Hwin. lia. }
      rewrite file_batch_loop_acc.
      match goal with
      | |- context [URLCoordinator.batch_claim_loop _ _ _ rest _ [] [] ?L1] =>
          assert (Hf' : fresh t L1 k)
            by (destruct Hf as (e0 & ? & ? & ?); exists e0;
                by rewrite lookup_insert_ne);
          specialize (IH (S i) L1 Hwin' Hf');
          destruct (URLCoordinator.batch_claim_loop _ _ _ rest _ [] [] L1)
            as [[g d] L2]
      end.
      simpl in *. destruct IH as [IH1 IH2]. split; [done|].
      by apply not_elem_of_cons.
    + rewrite file_batch_loop_acc. specialize (IH (S i) L Hwin' Hf).
      by destruct (URLCoordinator.batch_claim_loop _ _ _ rest _ [] [] L)
        as [[g d] L2].
Qed.

(** The claims of a batch that takes less than [stale_timeout]: no key is
    granted twice, and every granted key is HELD since the instant of its
    claim. *)
Lemma file_batch_loop_fresh now i urls h (L : ledger) :
  (∀ a b, (i ≤ a ≤ b)%nat → (b < i + length urls)%nat →
          0 ≤ now b - now a < stale_timeout) →
  let r := URLCoordinator.batch_claim_loop stale_timeout now i urls h [] [] L in
  NoDup r.1.1
  ∧ ∀ u, u ∈ r.1.1 →
         ∃ j, urls !! j = Some u ∧ fresh (now (i + j)%nat) r.2 u.
Proof.
  revert i L. induction urls as [|url rest IH]; intros i L Hwin; simpl.
  - split; [apply NoDup_nil_2|]. by intros u ?%elem_of_nil.
  - assert (Hwin' : ∀ a b, (S i ≤ a ≤ b)%nat → (b < S i + length rest)%nat →
                           0 ≤ now b - now a < stale_timeout).
    { intros a b Ha Hb. apply Hwin; simpl; lia. }
    assert (Hshift : ∀ (L2 : ledger) u,
              (∃ j, rest !! j = Some u ∧ fresh (now (S i + j)%nat) L2 u) →
              ∃ j, (url :: rest) !! j = Some u ∧ fresh (now (i + j)%nat) L2 u).
    { intros L2 u (j & Hj & Hfr). exists (S j). split; [done|].
      by replace (i + S j)%nat with (S i + j)%nat by lia. }
    rewrite file_claim_unfold.
    destruct (coordination_server.claimable _ _ _) eqn:Hc.
    + rewrite file_batch_loop_acc.
      match goal with
      | |- context [URLCoordinator.batch_claim_loop _ _ _ rest _ [] [] ?L1] =>
          assert (Hf : fresh (now i) L1 url)
            by (eexists; rewrite lookup_insert_eq; by split_and!);
          pose proof (file_batch_loop_keeps_fresh now (S i) rest h L1
                        (now i) url) as Hkeep;
          specialize (IH (S i) L1 Hwin');
          destruct (URLCoordinator.batch_claim_loop _ _ _ rest _ [] [] L1)
            as [[g d] L2]
      end.
      simpl in *. destruct IH as [IH1 IH2].
      destruct Hkeep as [Hk1 Hk2]; [|done|].
      { intros b Hb. apply Hwin; lia. }
      split; [by apply NoDup_cons|].
      intros u [->|Hin]%elem_of_cons; [|by apply Hshift, IH2].
      exists 0%nat. split; [done|]. by rewrite Nat.add_0_r.
    + rewrite file_batch_loop_acc. specialize (IH (S i) L Hwin').
      destruct (URLCoordinator.batch_claim_loop _ _ _ rest _ [] [] L)
        as [[g d] L2].
      simpl in *. destruct IH as [IH1 IH2]. split; [done|].
      intros u Hin. by apply Hshift, IH2.
Qed.

(** X18.  One batch with the file-backed coordinator, no other process
    writing the file meanwhile, its claims following one another on a
    clock that does not go back and within less than [stale_timeout]: the
    batch claim splits the urls into granted and denied ones, the granted
    keys are distinct and each is HELD since the instant of its claim.
    When [_run_pipeline] then returns on the granted keys, the returned
    count plus the number of returned failed keys is the number of
    granted keys, the failed keys being distinct granted keys. *)
Theorem claimed_batch_accounted clock job_urls h (L : ledger) num_slots :
  (∀ a b, (a ≤ b < length job_urls)%nat →
          0 ≤ clock b - clock a < stale_timeout) →
  let '(granted, denied, L') :=
    URLCoordinator.batch_claim stale_timeout clock job_urls h L in
  granted ++ denied ≡ₚ job_urls
  ∧ NoDup granted
  ∧ (∀ u, u ∈ granted →
          ∃ i, job_urls !! i = Some u ∧ fresh (clock i) L' u)
  ∧ (∀ fuel m pf stf,
       _run_pipeline enabled world granted num_slots fuel
       = Some (inr (m, pf, stf)) →
       (m + length pf = length granted)%nat
       ∧ NoDup pf ∧ pf ⊆+ granted).
Proof.
  intros Hwin. unfold URLCoordinator.batch_claim.
  pose proof (file_batch_loop_partition clock 0 job_urls h L) as Hpart.
  destruct (file_batch_loop_fresh clock 0 job_urls h L) as [Hnd Hfresh].
  { intros a b Ha Hb. apply Hwin. simpl in Hb. lia. }
  destruct (URLCoordinator.batch_claim_loop _ _ _ job_urls _ [] [] L)
    as [[granted denied] L'].
  simpl in *. split_and!; try done.
  intros fuel m pf stf Hrun.
  destruct (run_pipeline_keys enabled world _ _ _ _ _ _ Hrun) as [Hsub _].
  split_and!; [|by eapply NoDup_submseteq_inv|done].
  apply run_pipeline_inv in Hrun
    as [(-> & -> & -> & ->)
       |(st1 & Hsteps & _ & _ & Hfin & -> & -> & ->)]; [done|].
  rewrite final_accounting_totals by done.
  apply live_steps_steps in Hsteps.
  eapply steps_consistent in Hsteps; [|by apply start_consistent].
  by destruct Hsteps.
Qed.
End Batch.

Lemma claimed_batch_accounted_witness :
  (URLCoordinator.batch_claim 1800 (λ i, 100 + Z.of_nat i)%Z
     ["A"; "B"; "C"; "A"] "top_down" held_A).1
  = (["B"; "C"], ["A"; "A"])
  ∧ match _run_pipeline true smooth_world ["B"; "C"] 2 40 with
    | Some (inr (m, pf, _)) => m + length pf = 2 ∧ pf = []
    | _ => False
    end.
Proof.
  pose proof (claimed_batch_accounted true smooth_world 1800
                (λ i, 100 + Z.of_nat i)%Z ["A"; "B"; "C"; "A"] "top_down"
                held_A 2) as H.
  assert (Hb : (URLCoordinator.batch_claim 1800 (λ i, 100 + Z.of_nat i)%Z
                  ["A"; "B"; "C"; "A"] "top_down" held_A).1
               = (["B"; "C"], ["A"; "A"]))
    by (vm_compute; reflexivity).
  split; [exact Hb|].
  destruct (URLCoordinator.batch_claim 1800 (λ i, 100 + Z.of_nat i)%Z
              ["A"; "B"; "C"; "A"] "top_down" held_A)
    as [[granted denied] L'].
  cbn [fst] in Hb. injection Hb as -> ->.
  assert (Hr : ∃ stf, _run_pipeline true smooth_world ["B"; "C"] 2 40
                      = Some (inr (2, [], stf)))
    by (vm_compute; eexists; reflexivity).
  destruct Hr as [stf Hr]. rewrite Hr.
  destruct H as (_ & _ & _ & H); [intros a b Hab; simpl in Hab; lia|].
  destruct (H 40 2 [] stf Hr) as (Hsum & _).
  split; [exact Hsum|reflexivity].
Defined.

(** ** Runs in which no probe fails *)

Import Calm.

Section CalmRuns.
Variable enabled : bool.

Lemma tick_calm env slot :
  calm env = true → status slot ≠ ERROR → status slot ≠ BLACKLISTED →
  status slot ≠ _recycled →
  let slot' := (_tick_slot_fast enabled env (count_tick slot)).1.1 in
  status slot' ≠ ERROR ∧ status slot' ≠ BLACKLISTED ∧ status slot' ≠ _recycled.
Proof.
  unfold calm. intros Hcalm H1 H2 H3.
  repeat (apply andb_prop in Hcalm as [Hcalm ?]).
  unfold _tick_slot_fast, tick_pending, tick_navigating, tick_detail_wait,
    tick_scanning, tick_null_clicked, tick_converting, tick_ready,
    tick_add_clicked, tick_confirming, tick_verifying.
  destruct slot as [u s m r c h k]; simpl in *.
  destruct s; simpl; try done;
    repeat match goal with
           | |- context [match ?x with _ => _ end] =>
               destruct x eqn:?; simpl in *; try done
           end.
Qed.

Lemma visit_unharmed env n i st :
  calm env = true → unharmed n st → unharmed n (visit enabled env i st).
Proof.
  intros Hcalm [Hpf Hbl Hall Hn].
  destruct (slots st !! i) as [slot|] eqn:Hi;
    [|by unfold visit; rewrite Hi].
  pose proof (Forall_lookup_1 _ _ _ _ Hall Hi) as (Hs1 & Hs2 & Hs3).
  assert (Hins : ∀ st' slot',
    permanently_failed st' = [] → blacklisted_urls st' = ∅ →
    slots st' = <[i := slot']> (slots st) →
    status slot' ≠ ERROR ∧ status slot' ≠ BLACKLISTED
      ∧ status slot' ≠ _recycled →
    moved st' + length (queue st' ++ held_keys [slot'])
    = moved st + length (queue st ++ held_keys [slot]) →
    unharmed n st').
  { intros st' slot' Hpf' Hbl' Hslots Hst Hbal. split; try done.
    - rewrite Hslots. by apply Forall_insert.
    - unfold outstanding in *. rewrite Hslots.
      rewrite (held_keys_insert _ _ _ _ Hi).
      rewrite (held_keys_lookup _ _ _ Hi) in Hn.
      rewrite !length_app in *. lia. }
  unfold visit. rewrite Hi.
  pose proof (tick_calm env slot Hcalm Hs1 Hs2 Hs3) as Htick.
  pose proof (tick_held_keys enabled env slot) as Hk.
  destruct (status slot) eqn:Hs; try done;
    try (destruct (_tick_slot_fast enabled env (count_tick slot))
           as [[slot' calls] exc];
         eapply Hins; [done|done|reflexivity|exact Htick|];
         simpl in *; by rewrite Hk).
  unfold recycle. rewrite Hs. unfold assign_next. simpl.
  destruct (queue st) as [|next rest] eqn:HQ; simpl.
  - eapply Hins; [done|done|reflexivity|done|].
    simpl. unfold accounted. rewrite ?HQ, Hs. simpl. lia.
  - rewrite Hbl. rewrite bool_decide_eq_false_2 by set_solver.
    eapply Hins; [done|done|reflexivity|done|].
    simpl. unfold accounted. rewrite Hs. simpl.
    rewrite !length_app. simpl. lia.
Qed.

Variable world : nat → nat → tick_env.
Hypothesis calm_world : ∀ r i, calm (world r i) = true.

Lemma visits_unharmed n k st :
  unharmed n st → unharmed n (visits enabled world k st).
Proof.
  unfold visits. generalize 0 as a. revert st.
  induction k as [|k IH]; intros st a Hu; simpl; [done|].
  apply IH. destruct (raised st); [done|]. by apply visit_unharmed.
Qed.

Lemma round_unharmed n st :
  unharmed n st → unharmed n (round enabled world st).
Proof.
  intros Hu. unfold round. apply visits_unharmed. by destruct Hu.
Qed.

Lemma rounds_unharmed n r st :
  unharmed n st → unharmed n (rounds enabled world r st).
Proof.
  revert st. induction r as [|r IH]; intros st Hu; simpl; [done|].
  destruct (raised st); [done|].
  destruct (finished st); [done|]. by apply IH, round_unharmed.
Qed.

Lemma loop_unharmed n fuel st st' :
  loop enabled world fuel st = Some st' → unharmed n st → unharmed n st'.
Proof.
  revert st. induction fuel as [|fuel IH]; intros st; simpl;
    destruct (raised st) eqn:Hr; try (by intros [= <-]);
    destruct (finished st) eqn:Hf; intros Hl Hu; simplify_eq; try done.
  eapply IH; [done|]. by apply round_unharmed.
Qed.

Lemma start_unharmed granted num_slots :
  unharmed (length granted) (start granted num_slots).
Proof.
  split; try done.
  - simpl. apply Forall_fmap, Forall_true. done.
  - simpl. unfold outstanding. simpl. rewrite held_keys_init.
    rewrite length_app, length_drop, length_take. lia.
Qed.

(** X19.  A run in which no probe of any tick reports a failure, on
    any granted keys: at every point nothing is recorded as failed,
    [mark_failed] is never reported, and the completed count plus the
    number of queued keys and of keys held by slots not yet accounted for
    is the number of granted keys; when the run ends the returned count is
    the number of granted keys and no key is returned as failed. *)
Theorem calm_run_moves_all granted num_slots :
  (∀ r k,
     let st := visits enabled world k
                 (next_round (rounds enabled world r
                                (start granted num_slots))) in
     permanently_failed st = []
     ∧ failed_reports (coordinator_calls st) = []
     ∧ moved st + length (queue st) + length (held_keys (slots st))
       = length granted)
  ∧ (∀ fuel m pf stf,
       _run_pipeline enabled world granted num_slots fuel
       = Some (inr (m, pf, stf)) →
       m = length granted ∧ pf = []
       ∧ failed_reports (coordinator_calls stf) = []).
Proof.
  split.
  - intros r k st.
    assert (Hu : unharmed (length granted) st).
    { apply visits_unharmed.
      pose proof (rounds_unharmed _ r _ (start_unharmed granted num_slots))
        as Hr.
      by destruct Hr. }
    pose proof (point_sound enabled world granted num_slots r k) as Hs.
    fold st in Hs. destruct Hs as [_ _ Hrf _ _ _ _ _].
    destruct Hu as [Hpf _ _ Hn]. unfold outstanding in Hn.
    rewrite length_app in Hn. rewrite Hrf, Hpf. split_and!; [done|done|lia].
  - intros fuel m pf stf
      [(-> & -> & -> & ->)
      |(st & Hsteps & Hloop & _ & Hfin & -> & -> & ->)]%run_pipeline_inv;
      [done|].
    eapply live_steps_sound in Hsteps; [|apply start_sound].
    destruct Hsteps as [_ _ Hrf _ _ _ _ _].
    apply (loop_unharmed (length granted)) in Hloop
      as [Hpf Hbl Hall Hn]; [|apply start_unharmed].
    pose proof (final_accounting_totals st Hfin) as Htot.
    destruct (account_remaining_exact (slots st) st)
      as (Hm & Hpf' & Hcalls & _).
    fold (final_accounting st) in Hm, Hpf', Hcalls.
    assert (Hne : filter (λ s, status s = ERROR) (slots st) = []).
    { clear -Hall. induction Hall as [|s ss (Hs & _) _ IH]; [done|].
      rewrite filter_cons. by rewrite decide_False. }
    unfold error_keys in Hpf'. rewrite Hne, Hpf in Hpf'. simpl in Hpf'.
    rewrite Hcalls, Hne, app_nil_r, Hrf, Hpf.
    rewrite Hpf', Hpf in Htot. simpl in *. split_and!; [lia|done|done].
Qed.
End CalmRuns.

Lemma calm_run_moves_all_witness :
  match _run_pipeline true smooth_world ["A"; "B"; "A"] 2 40 with
  | Some (inr (m, pf, _)) => m = 3 ∧ pf = []
  | _ => False
  end.
Proof.
  destruct (_run_pipeline true smooth_world ["A"; "B"; "A"] 2 40)
    as [[[e ste]|[[m pf] stf]]|] eqn:Hrun.
  - vm_compute in Hrun. discriminate.
  - destruct (proj2 (calm_run_moves_all true smooth_world (λ _ _, eq_refl)
                       ["A"; "B"; "A"] 2) 40 m pf stf Hrun) as (Hm & Hpf & _).
    by split.
  - vm_compute in Hrun. discriminate.
Defined.

(** * The history of a slot and the adaptive timeouts *)

Section History.
Import TabState.
Context {E : Type}.

(** X20.  The history kept by [_record_event]: after any sequence of
    events it is the tail of that sequence, has at most 200 entries, and
    holds at least the last 100 events (all of them while there are fewer
    than 100).  One call appends the event, which ends up last; it cuts
    a history of 200 entries to its last 99 followed by the event, and
    cuts nothing from a shorter one. *)
Theorem record_event_bounded (events : list E) (event : E) (history : list E) :
  let recorded := foldl (λ h e, _record_event e h) [] events in
  recorded `suffix_of` events
  ∧ length recorded ≤ 200
  ∧ 100 `min` length events ≤ length recorded
  ∧ _record_event event history `suffix_of` history ++ [event]
  ∧ last (_record_event event history) = Some event
  ∧ (length history = 200 →
     _record_event event history = drop 101 history ++ [event])
  ∧ (length history < 200 → _record_event event history = history ++ [event]).
Proof.
  assert (Hstep : ∀ (e : E) h,
            _record_event e h `suffix_of` h ++ [e]
            ∧ (length h ≤ 200 → length (_record_event e h) ≤ 200)
            ∧ (∀ n, 100 `min` n ≤ length h →
                    100 `min` S n ≤ length (_record_event e h))).
  { intros e h. unfold _record_event. rewrite length_app. cbn [length].
    case_bool_decide as Hlen.
    - split_and!; [apply suffix_drop|..]; intros; rewrite length_drop,
        length_app; cbn [length]; lia.
    - split_and!; [done|..]; intros; rewrite length_app; cbn [length]; lia. }
  cbv zeta. split_and!.
  - induction events as [|e events IH] using rev_ind; [done|].
    rewrite foldl_app. cbn [foldl].
    etrans; [apply Hstep|]. by apply suffix_app.
  - induction events as [|e events IH] using rev_ind; [cbn; lia|].
    rewrite foldl_app. cbn [foldl]. by apply Hstep.
  - induction events as [|e events IH] using rev_ind; [cbn; lia|].
    rewrite foldl_app, length_app. cbn [foldl length].
    replace (length events + 1) with (S (length events)) by lia.
    by apply Hstep.
  - apply Hstep.
  - unfold _record_event. rewrite length_app. cbn [length]. case_bool_decide.
    + rewrite drop_app_le by lia. by rewrite last_snoc.
    + by rewrite last_snoc.
  - intros Hlen. unfold _record_event. rewrite length_app, Hlen. cbn [length].
    rewrite bool_decide_eq_true_2 by lia.
    rewrite drop_app_le by lia. done.
  - intros Hlen. unfold _record_event. rewrite length_app. cbn [length].
    by rewrite bool_decide_eq_false_2 by lia.
Qed.
End History.

Section Timeouts.
Import SpecFloat utils dataset_mover.
Local Open Scope Z_scope.

Lemma digits2_pos_lower p : 2 ^ (Z.pos (digits2_pos p) - 1) ≤ Z.pos p.
Proof.
  induction p as [p IH|p IH|]; simpl digits2_pos; [| |done].
  - rewrite Pos2Z.inj_succ, (Pos2Z.inj_xI p).
    replace (Z.succ (Z.pos (digits2_pos p)) - 1)
      with (Z.succ (Z.pos (digits2_pos p) - 1)) by lia.
    rewrite Z.pow_succ_r by lia. lia.
  - rewrite Pos2Z.inj_succ, (Pos2Z.inj_xO p).
    replace (Z.succ (Z.pos (digits2_pos p)) - 1)
      with (Z.succ (Z.pos (digits2_pos p) - 1)) by lia.
    rewrite Z.pow_succ_r by lia. lia.
Qed.

Lemma digits2_pos_small p : Z.pos p < 2 ^ 53 → Z.pos (digits2_pos p) ≤ 53.
Proof.
  intros Hp. pose proof (digits2_pos_lower p) as Hlow.
  destruct (decide (Z.pos (digits2_pos p) ≤ 53)) as [|Hbig]; [done|].
  exfalso.
  assert (2 ^ 53 ≤ 2 ^ (Z.pos (digits2_pos p) - 1)).
  { apply Z.pow_le_mono_r; lia. }
  lia.
Qed.

Lemma digits2_pos_iter p k :
  digits2_pos (Pos.iter xO p k) = (digits2_pos p + k)%positive.
Proof.
  induction k as [|k IH] using Pos.peano_ind; simpl.
  - lia.
  - rewrite Pos.iter_succ. simpl. rewrite IH. lia.
Qed.

Lemma Zpos_iter p k : Z.pos (Pos.iter xO p k) = Z.pos p * 2 ^ Z.pos k.
Proof.
  induction k as [|k IH] using Pos.peano_ind; simpl.
  - lia.
  - rewrite Pos.iter_succ, (Pos2Z.inj_xO (Pos.iter xO p k)), IH, Pos2Z.inj_succ.
    rewrite Z.pow_succ_r by lia. lia.
Qed.

Lemma round_exact s m e :
  digits2_pos m = 53%positive → -1074 ≤ e ≤ 971 →
  binary_round_aux prec emax s (Z.pos m) e loc_Exact = S754_finite s m e.
Proof.
  intros Hd He.
  assert (Hshift : fexp prec emax (Zdigits2 (Z.pos m) + e) - e = 0).
  { unfold fexp, emin, Zdigits2, prec, emax. rewrite Hd. lia. }
  unfold binary_round_aux, shr_fexp. rewrite Hshift.
  cbn [shr shr_record_of_loc shr_m loc_of_shr_record round_nearest_even].
  rewrite Hshift. cbn [shr shr_m].
  unfold emax, prec. by rewrite (proj2 (Z.leb_le e (1024 - 53))) by lia.
Qed.

Lemma mul_one s m e :
  digits2_pos m = 53%positive → -1022 ≤ e ≤ 971 →
  SFmul prec emax (S754_finite s m e) (SFone prec emax) = S754_finite s m e.
Proof.
  intros Hd He.
  change (SFone prec emax) with (S754_finite false 4503599627370496 (-52)).
  unfold SFmul. rewrite xorb_false_r.
  rewrite Pos.mul_comm.
  let shifted := eval cbv [Pos.iter PosDef.Pos.iter] in (Pos.iter xO m 52) in
  change (4503599627370496 * m)%positive with shifted.
  match goal with
  | |- binary_round_aux _ _ _ (Z.pos ?shifted) _ _ = _ => set (mz := shifted)
  end.
  assert (Hshift : fexp prec emax
                     (Zdigits2 (Z.pos mz) + (e + -52))
                   - (e + -52) = 52).
  { unfold fexp, emin, Zdigits2, prec, emax, mz. cbn [digits2_pos].
    rewrite Hd. lia. }
  unfold binary_round_aux, shr_fexp. rewrite Hshift. unfold mz.
  cbn [shr shr_record_of_loc shr_m loc_of_shr_record round_nearest_even
       iter_pos shr_1 orb].
  assert (Hstay : fexp prec emax (Zdigits2 (Z.pos m) + (e + -52 + 52))
                  - (e + -52 + 52) = 0).
  { unfold fexp, emin, Zdigits2, prec, emax. rewrite Hd. lia. }
  rewrite Hstay. cbn [shr shr_m].
  unfold emax, prec.
  rewrite (proj2 (Z.leb_le (e + -52 + 52) (1024 - 53))) by lia.
  f_equal. lia.
Qed.

Lemma binary_round_small s p :
  Z.pos p < 2 ^ 53 →
  ∃ m e, binary_round prec emax s p 0 = S754_finite s m e
         ∧ digits2_pos m = 53%positive ∧ -52 ≤ e ≤ 0
         ∧ Z.pos m = Z.pos p * 2 ^ (- e).
Proof.
  intros Hp. pose proof (digits2_pos_small p Hp) as Hd.
  unfold binary_round, shl_align.
  assert (Hf : fexp prec emax (Z.pos (digits2_pos p) + 0)
               = Z.pos (digits2_pos p) - 53).
  { unfold fexp, emin, prec, emax. lia. }
  rewrite Hf.
  destruct (Z.pos (digits2_pos p) - 53 - 0) as [|d|d] eqn:Hdiff; [|lia|].
  - exists p, 0. split; [|split; [|split]]; [|lia|lia|simpl; lia].
    apply round_exact; lia.
  - exists (Pos.iter xO p d), (Z.pos (digits2_pos p) - 53).
    split; [|split; [|split]]; [| |lia|].
    + apply round_exact; [|lia]. rewrite digits2_pos_iter. lia.
    + rewrite digits2_pos_iter. lia.
    + rewrite Zpos_iter. do 2 f_equal. lia.
Qed.

Lemma int_of_float_exact s m e p :
  e ≤ 0 → Z.pos m = Z.pos p * 2 ^ (- e) →
  int_of_float (S754_finite s m e) = Some (cond_Zopp s (Z.pos p)).
Proof.
  intros He Hm. unfold int_of_float. rewrite Hm. do 2 f_equal.
  case_bool_decide.
  - replace e with 0 by lia. simpl. lia.
  - apply Z.div_mul. apply Z.pow_nonzero; lia.
Qed.

Lemma one_exact raw :
  - 2 ^ 53 ≤ raw ≤ 2 ^ 53 →
  (f ← float_of_int raw; int_of_float (SFmul prec emax f (SFone prec emax)))
  = Some raw.
Proof.
  intros Hraw.
  destruct (decide (raw = 2 ^ 53)) as [->|]; [by vm_compute|].
  destruct (decide (raw = - 2 ^ 53)) as [->|]; [by vm_compute|].
  unfold float_of_int, binary_normalize.
  destruct raw as [|p|p]; [done|..].
  - destruct (binary_round_small false p) as (m & e & -> & Hd & He & Hm); [lia|].
    cbn [mbind option_bind]. rewrite mul_one by (done || lia).
    by rewrite (int_of_float_exact _ _ _ p) by (done || lia).
  - destruct (binary_round_small true p) as (m & e & -> & Hd & He & Hm); [lia|].
    cbn [mbind option_bind]. rewrite mul_one by (done || lia).
    by rewrite (int_of_float_exact _ _ _ p) by (done || lia).
Qed.

(** X21.  [adaptive_timeout] returns multiples of 100 only.  With an
    [int] multiplier it returns the least multiple of 100 that is not
    below [max(base_ms, image_count * per_image_ms) * multiplier] (the
    product is rounded up, not to the nearest), which is at least
    [base_ms] for a multiplier of 1 or more and grows with the image
    count.  With the default multiplier, the float 1.0, it returns the
    same as with the int 1 as long as the maximum is within [2^53] in
    absolute value; so [_add_dataset_timeout] is 30000 up to 600 images
    and 50 ms per image, rounded up to a multiple of 100, beyond.  Above
    [2^53] the float product loses digits: for [10^17 + 1] the default
    gives [10^17], the int 1 gives [10^17 + 100]. *)
Theorem adaptive_timeout_rounds_up base_ms image_count image_count'
    per_image_ms multiplier config :
  let raw := base_ms `max` (image_count * per_image_ms) in
  let scaled := raw * multiplier in
  (∀ timeout,
     adaptive_timeout base_ms image_count per_image_ms config = Some timeout →
     ∃ q, timeout = q * 100)
  ∧ (∃ timeout,
       adaptive_timeout base_ms image_count per_image_ms
         (Some (PyInt multiplier)) = Some timeout
       ∧ scaled ≤ timeout < scaled + 100
       ∧ (0 ≤ base_ms → 1 ≤ multiplier → base_ms ≤ timeout)
       ∧ (0 ≤ per_image_ms → 0 ≤ multiplier → image_count ≤ image_count' →
          ∃ timeout',
            adaptive_timeout base_ms image_count' per_image_ms
              (Some (PyInt multiplier)) = Some timeout'
            ∧ timeout ≤ timeout'))
  ∧ (- 2 ^ 53 ≤ raw ≤ 2 ^ 53 →
     adaptive_timeout base_ms image_count per_image_ms None
     = adaptive_timeout base_ms image_count per_image_ms (Some (PyInt 1)))
  ∧ (image_count * 50 ≤ 2 ^ 53 →
     _add_dataset_timeout image_count None
     = Some (if bool_decide (image_count ≤ 600) then 30000
             else ((image_count + 1) `div` 2) * 100))
  ∧ adaptive_timeout (10 ^ 17 + 1) 0 0 None = Some (10 ^ 17)
  ∧ adaptive_timeout (10 ^ 17 + 1) 0 0 (Some (PyInt 1))
    = Some (10 ^ 17 + 100).
Proof.
  cbv zeta.
  assert (Hone : ∀ b n p,
            - 2 ^ 53 ≤ b `max` (n * p) ≤ 2 ^ 53 →
            adaptive_timeout b n p None
            = Some (((b `max` (n * p) + 99) `div` 100) * 100)).
  { intros b n p Hraw. pose proof (one_exact _ Hraw) as Hexact.
    unfold adaptive_timeout. cbn [default mul].
    destruct (float_of_int _) as [f|]; [|done].
    cbn [mbind option_bind int] in *. by rewrite Hexact. }
  split; [|split; [|split; [|split; [|split]]]].
  - intros timeout. unfold adaptive_timeout.
    destruct (mul _ _) as [product|]; [|done]. cbn [mbind option_bind].
    destruct (int product) as [scaled|]; [|done]. cbn [mbind option_bind].
    intros [= <-]. by eexists.
  - eexists. split; [reflexivity|]. split; [|split].
    + Z.div_mod_to_equations. lia.
    + intros Hb Hm. Z.div_mod_to_equations. nia.
    + intros Hp Hm Hn. eexists. split; [reflexivity|].
      apply Z.mul_le_mono_nonneg_r; [lia|].
      apply Z.div_le_mono; [lia|].
      assert (base_ms `max` (image_count * per_image_ms)
              ≤ base_ms `max` (image_count' * per_image_ms)) by nia.
      nia.
  - intros Hraw. rewrite (Hone _ _ _ Hraw).
    unfold adaptive_timeout. unfold default.
    cbn [from_option id mul mbind option_bind int]. by rewrite Z.mul_1_r.
  - intros Hcount. unfold _add_dataset_timeout.
    rewrite Hone by (change (2 ^ 53) with 9007199254740992; lia).
    f_equal. case_bool_decide; Z.div_mod_to_equations; lia.
  - by vm_compute.
  - by vm_compute.
Qed.
End Timeouts.
